(** * Amulet-Core: the chunk translation engine

    A shallow embedding of [amulet/api/wrapper/chunk/translator.py]
    (class [Translator]) and of [amulet/operations/replace.py], and the
    properties of the two-pass palette translation, the cross-chunk block
    resolver, the biome remapper and the block-replace operation.

    Python exceptions are values of [result]; the calls the engine makes
    to the translation callbacks it is given are recorded, in order, by
    the [Traced] monad.  Dictionaries that are only read by key are
    [gmap]s; the vertical sections of a chunk, whose order decides the
    order of the generated block entities, are an association list. *)

From Stdlib Require Import QArith Qround.
From stdpp Require Import gmap strings list fin_maps sorting.

(** ** Exceptions *)

Inductive exn := TypeError | IndexError | KeyError | AttributeError.

Inductive result (A : Type) :=
  | Ok (a : A)
  | Raise (e : exn).
Arguments Ok {A} a.
Arguments Raise {A} e.

#[global] Instance result_ret : MRet result := λ A a, Ok a.
#[global] Instance result_bind : MBind result := λ A B f m,
  match m with
  | Ok a => f a
  | Raise e => Raise e
  end.

(** ** The block value model *)

(** Modelled from the spec: the class [Block] of [amulet.api.block] is not
    among the sources.  A block is a namespace, a base name and a property
    mapping; a composite block carries in addition an ordered sequence of
    extra blocks layered on the base, none of which is itself layered.
    Equality is structural. *)
Record Layer := mkLayer {
  namespace : string;
  base_name : string;
  properties : gmap string string
}.

Record Block := mkBlock {
  base : Layer;
  extras : list Layer
}.

#[global] Instance Layer_eq_dec : EqDecision Layer.
Proof. solve_decision. Defined.
#[global] Instance Block_eq_dec : EqDecision Block.
Proof. solve_decision. Defined.

(** [Block.base_block]: the block without its extra layers. *)
Definition base_block (b : Block) : Block := mkBlock (base b) [].

(** [Block.extra_blocks]: the extra layers, each as a block of its own. *)
Definition extra_blocks (b : Block) : list Block :=
  (λ l, mkBlock l []) <$> extras b.

(** Modelled from the spec: [Block.__add__], the merge of the block value
    model.  The layers of the right operand are put, in order, on top of
    those of the left one. *)
Definition block_add (b other : Block) : Block :=
  mkBlock (base b) (extras b ++ base other :: extras other).

(** Modelled from the spec: [BlockEntity] of [amulet.api.block_entity],
    a namespaced name, a payload and an integer location.  The namespace is
    the part of the name before the first colon, if there is one. *)
Record BlockEntity := mkBlockEntity {
  be_namespaced_name : string;
  be_location : Z * Z * Z;
  be_nbt : string
}.

#[global] Instance BlockEntity_eq_dec : EqDecision BlockEntity.
Proof. solve_decision. Defined.

(** [BlockEntity.namespace] *)
Definition be_namespace (be : BlockEntity) : option string :=
  n ← String.index 0 ":" (be_namespaced_name be);
  Some (String.substring 0 n (be_namespaced_name be)).

(** [BlockEntity.base_name] *)
Definition be_base_name (be : BlockEntity) : string :=
  match String.index 0 ":" (be_namespaced_name be) with
  | Some n =>
      String.substring (S n) (String.length (be_namespaced_name be) - S n)
        (be_namespaced_name be)
  | None => be_namespaced_name be
  end.

(** [block_entity.namespaced_name = name] *)
Definition set_namespaced_name (be : BlockEntity) (name : string) : BlockEntity :=
  mkBlockEntity name (be_location be) (be_nbt be).

(** Modelled from the spec: [BlockEntity.new_at_location], a copy of the
    block entity at the location [(x, y, z)]. *)
Definition new_at_location (be : BlockEntity) (x y z : Z) : BlockEntity :=
  mkBlockEntity (be_namespaced_name be) (x, y, z) (be_nbt be).

(** Modelled from the spec: [Entity] of [amulet.api.entity].  The location
    is a vector of floating-point numbers in the source; it is kept here as
    a vector of exact rationals. *)
Record Entity := mkEntity {
  e_namespaced_name : string;
  e_location : Q * Q * Q;
  e_nbt : string
}.

(** [e = copy.deepcopy(entity); e.location += (x, y, z)] *)
Definition offset_location (entity : Entity) (x y z : Z) : Entity :=
  let '(ex, ey, ez) := e_location entity in
  mkEntity (e_namespaced_name entity)
    (Qplus ex (inject_Z x), Qplus ey (inject_Z y), Qplus ez (inject_Z z))
    (e_nbt entity).

(** [e.location = location] *)
Definition set_location (e : Entity) (location : Q * Q * Q) : Entity :=
  mkEntity (e_namespaced_name e) location (e_nbt e).

(** [(int(math.floor(entity.x)), int(math.floor(entity.y)), int(math.floor(entity.z)))] *)
Definition floor_location (entity : Entity) : Z * Z * Z :=
  let '(ex, ey, ez) := e_location entity in (Qfloor ex, Qfloor ey, Qfloor ez).

(** ** Palettes *)

(** A pair of a Bedrock tuple entry, one of the three alternatives of
    [BedrockInterfaceBlockType] ([wrapper_types.py]):
    [(None, (id, data))], [(None, Block)] and [(version, Block)]. *)
Inductive BedrockPair :=
  | PairIdData (id data : Z)
  | PairBlock (version : option Z) (b : Block).

#[global] Instance BedrockPair_eq_dec : EqDecision BedrockPair.
Proof. solve_decision. Defined.

(** An entry of a palette: a [Block], or for the Bedrock encodings a tuple
    of pairs ([BedrockInterfaceBlockType]). *)
Inductive PaletteEntry :=
  | PBlock (b : Block)
  | PTuple (t : list BedrockPair).

#[global] Instance PaletteEntry_eq_dec : EqDecision PaletteEntry.
Proof. solve_decision. Defined.

(** The value a block resolver gives as the block: a [Block], or the
    numerical [(id, data)] pair that the second component of a pair
    [(None, (id, data))] is. *)
Inductive BlockValue :=
  | VBlock (b : Block)
  | VIdData (id data : Z).

#[global] Instance BlockValue_eq_dec : EqDecision BlockValue.
Proof. solve_decision. Defined.

(** [pair[1]], the second component of a pair of a tuple entry. *)
Definition pair_second (item : BedrockPair) : BlockValue :=
  match item with
  | PairIdData id data => VIdData id data
  | PairBlock _ b => VBlock b
  end.

(** [palette[i]] *)
Definition palette_getitem (palette : list PaletteEntry) (i : nat) : result PaletteEntry :=
  match palette !! i with
  | Some entry => Ok entry
  | None => Raise IndexError
  end.

(** Modelled from the spec: [BlockManager] of [amulet.api.block], the block
    palette manager.  [get_add_block] looks the block up by structural
    equality; when it is present its index is returned, otherwise the block
    is appended and gets the next sequential index.  [blocks] is the
    sequence in order of first insertion. *)
Abbreviation BlockManager := (list Block).

Definition get_add_block (manager : BlockManager) (block : Block) : nat * BlockManager :=
  match list_find (λ b, b = block) manager with
  | Some (i, _) => (i, manager)
  | None => (length manager, manager ++ [block])
  end.

Definition blocks_of (manager : BlockManager) : list Block := manager.

(** ** numpy arrays *)

(** A three-dimensional array of palette indices, indexed [a[x][y][z]]. *)
Abbreviation SubChunk := (list (list (list nat))).

Definition array_lookup (a : SubChunk) (x y z : nat) : option nat :=
  plane ← a !! x; row ← plane !! y; row !! z.

(** [numpy.where(a == i)], zipped: the coordinates of the cells equal to
    [i], in row-major order. *)
Definition where_eq (a : SubChunk) (i : nat) : list (Z * Z * Z) :=
  mjoin (imap (λ x plane,
    mjoin (imap (λ y row,
      mjoin (imap (λ z v,
        if decide (v = i) then [(Z.of_nat x, Z.of_nat y, Z.of_nat z)] else [])
        row)) plane)) a).

(** The array of the same shape whose cells are [f] of the cells of [a]. *)
Definition map_cells (f : nat → nat) (a : SubChunk) : SubChunk :=
  (λ plane : list (list nat), (λ row : list nat, f <$> row) <$> plane) <$> a.

(** [numpy.zeros(a.shape, dtype=a.dtype)] *)
Definition zeros_like (a : SubChunk) : SubChunk := map_cells (λ _, 0) a.

(** [new_blocks[old_blocks == old] = new] *)
Definition assign_where (old_blocks new_blocks : SubChunk) (old new : nat) : SubChunk :=
  zip_with (zip_with (zip_with (λ o n, if decide (o = old) then new else n)))
    old_blocks new_blocks.

(** [a[x, y, z]] with integers that are in range, [IndexError] otherwise. *)
Definition array_getitem (a : SubChunk) (x y z : Z) : result nat :=
  if decide (0 ≤ x ∧ 0 ≤ y ∧ 0 ≤ z)%Z then
    match array_lookup a (Z.to_nat x) (Z.to_nat y) (Z.to_nat z) with
    | Some v => Ok v
    | None => Raise IndexError
    end
  else Raise IndexError.

(** [a[x, y, z] = v] *)
Definition array_setitem (a : SubChunk) (x y z : Z) (v : nat) : result SubChunk :=
  _ ← array_getitem a x y z;
  Ok (alter (alter (λ row, <[Z.to_nat z := v]> row) (Z.to_nat y)) (Z.to_nat x) a).

(** [numpy.unique(a, return_inverse=True)]: the sorted distinct values, and
    for each cell the index of its value among them. *)
Definition np_unique (a : list Z) : list Z * list nat :=
  let values := merge_sort Z.le (remove_dups a) in
  (values, (λ v, default 0 (fst <$> list_find (λ u, u = v) values)) <$> a).

(** [palette[indices]]: indexing an array with an array of indices. *)
Definition take_indices (palette : list Z) (indices : list nat) : result (list Z) :=
  mapM (λ k, match palette !! k with
             | Some v => Ok v
             | None => Raise IndexError
             end) indices.

(** ** Chunks *)

(** Modelled from the spec: [Chunk] of [amulet.api.chunk] and its block
    array [chunk.blocks], a vertically segmented array of palette indices.
    The sections are kept in the order of [chunk.blocks.sub_chunks], each
    with its section id [cy] and the array [get_sub_chunk(cy)].
    [chunk.block_entities] maps absolute positions to block entities and is
    kept as the sequence of the block entities, each with its location. *)
Abbreviation Blocks := (list (Z * SubChunk)).

Record Chunk := mkChunk {
  cx : Z;
  cz : Z;
  blocks : Blocks;
  block_entities : list BlockEntity;
  entities : list Entity;
  biomes : list Z
}.

(** Modelled from the spec: [chunk.blocks.get_sub_chunk(cy)], the array of
    the section [cy]. *)
Fixpoint get_sub_chunk (b : Blocks) (cy : Z) : result SubChunk :=
  match b with
  | [] => Raise KeyError
  | (cy', a) :: b => if decide (cy' = cy) then Ok a else get_sub_chunk b cy
  end.

(** Modelled from the spec: [chunk.blocks.add_sub_chunk(cy, a)], which
    makes [a] the array of the section [cy]. *)
Fixpoint add_sub_chunk (b : Blocks) (cy : Z) (a : SubChunk) : Blocks :=
  match b with
  | [] => [(cy, a)]
  | (cy', a') :: b =>
      if decide (cy' = cy) then (cy, a) :: b else (cy', a') :: add_sub_chunk b cy a
  end.

(** Modelled from the spec: [chunk.blocks[x, y, z]] with [y] an absolute
    height.  The cell is that of the section [y // 16] at [(x, y % 16, z)];
    a section that does not exist or coordinates out of its range raise. *)
Definition blocks_getitem (b : Blocks) (x y z : Z) : result nat :=
  a ← get_sub_chunk b (y `div` 16)%Z;
  array_getitem a x (y `mod` 16)%Z z.

(** Modelled from the spec: [chunk.blocks[x, y, z] = v], which overwrites
    exactly one cell. *)
Definition blocks_setitem (b : Blocks) (x y z : Z) (v : nat) : result Blocks :=
  a ← get_sub_chunk b (y `div` 16)%Z;
  a' ← array_setitem a x (y `mod` 16)%Z z v;
  Ok (add_sub_chunk b (y `div` 16)%Z a').

(** Modelled from the spec: [chunk.block_entities.get((x, y, z))], the
    block entity at a position, if there is one. *)
Definition block_entities_get (l : list BlockEntity) (location : Z * Z * Z) : option BlockEntity :=
  snd <$> list_find (λ be, be_location be = location) l.

(** The two nested loops
    [for cy in chunk.blocks.sub_chunks:
       for x, y, z in zip( *numpy.where(chunk.blocks.get_sub_chunk(cy) == i))]
    as the sequence of the [(cy, (x, y, z))] they go through. *)
Definition occurrences (chunk : Chunk) (i : nat) : list (Z * (Z * Z * Z)) :=
  '(cy, a) ← blocks chunk; pos ← where_eq a i; [(cy, pos)].

(** ** Callbacks ([wrapper_types.py]) *)

Definition GetChunkCallback : Type := Z → Z → result (Chunk * list PaletteEntry).

(** [GetBlockCallback] is declared to return a [Block] and an optional
    [BlockEntity]; the resolver [get_block_at] gives as the block the
    second component of the first pair of a tuple entry as it is, which
    is not a [Block] for a pair [(None, (id, data))], so the type of what
    a resolver returns is [BlockValue]. *)
Definition GetBlockCallback : Type := Z * Z * Z → result (BlockValue * option BlockEntity).

Definition TranslateBlockCallbackReturn : Type :=
  option Block * option BlockEntity * list Entity * bool.

Definition TranslateEntityCallbackReturn : Type :=
  option Block * option BlockEntity * list Entity.

Definition TranslateBlockCallback : Type :=
  PaletteEntry → option GetBlockCallback → result TranslateBlockCallbackReturn.

Definition TranslateEntityCallback : Type :=
  Entity → result TranslateEntityCallbackReturn.

(** ** Calls to the callbacks *)

(** One call the translator makes to a function it was given: a biome rule
    of the version, the block-translate callback (with no resolver, or with
    the resolver bound to a position) or the entity-translate callback. *)
Inductive Call :=
  | BiomeToUniversal (biome : Z)
  | BiomeFromUniversal (biome : Z)
  | TranslateBlock (input_block : PaletteEntry) (bound_to : option (Z * Z * Z))
  | TranslateEntity (entity : Entity).

(** A computation of the translator: the calls it made, in order, and its
    outcome. *)
Definition Traced (A : Type) : Type := list Call * result A.

#[global] Instance Traced_ret : MRet Traced := λ A a, ([], Ok a).
#[global] Instance Traced_bind : MBind Traced := λ A B f m,
  match m with
  | (calls, Ok a) => let '(calls', r) := f a in (calls ++ calls', r)
  | (calls, Raise e) => (calls, Raise e)
  end.

(** A step that calls no callback. *)
Definition lift {A} (r : result A) : Traced A := ([], r).

(** The call [c] to a callback, which returned or raised [r]. *)
Definition invoke {A} (c : Call) (r : result A) : Traced A := ([c], r).

(** A [for] loop that updates its state. *)
Fixpoint foldM {A B} (f : B → A → Traced B) (b : B) (l : list A) : Traced B :=
  match l with
  | [] => mret b
  | a :: l => b' ← f b a; foldM f b' l
  end.

(** A [for] loop that calls no callback. *)
Fixpoint fold_result {A B} (f : B → A → result B) (b : B) (l : list A) : result B :=
  match l with
  | [] => Ok b
  | a :: l => b' ← f b a; fold_result f b' l
  end.

(** [enumerate(l)] *)
Definition enumerate {A} (l : list A) : list (nat * A) := imap (λ i a, (i, a)) l.

(** Truth value of a list. *)
Definition nonempty {A} (l : list A) : bool :=
  match l with [] => false | _ => true end.

(** ** The translation engine: [Translator._translate] *)

(** A value of [block_mappings]: the index [finished.get_add_block]
    returned (second pass) or the block itself (entity pass). *)
Inductive MappingValue :=
  | MIndex (new : nat)
  | MBlock (output_block : Block).

(** The local variables of [_translate]. *)
Record TranslateState := mkState {
  todo : list nat;
  output_block_entities : list BlockEntity;
  output_entities : list Entity;
  finished : BlockManager;
  palette_mappings : gmap nat nat;
  block_mappings : gmap (Z * Z * Z) MappingValue
}.

Definition initial_state : TranslateState := mkState [] [] [] [] ∅ ∅.

(** [unwrap_entry block]: the lines
    [if isinstance(block, tuple): block = block[0][1]] of [get_block_at];
    [block[0]] of an empty tuple raises [IndexError]. *)
Definition unwrap_entry (block : PaletteEntry) : result BlockValue :=
  match block with
  | PBlock b => Ok (VBlock b)
  | PTuple (item :: _) => Ok (pair_second item)
  | PTuple [] => Raise IndexError
  end.

Section Engine.
(** [amulet.entity_support] *)
Variable entity_support : bool.
Variable chunk : Chunk.
Variable palette : list PaletteEntry.
Variable get_chunk_callback : option GetChunkCallback.
Variable translate_block : TranslateBlockCallback.
Variable translate_entity : TranslateEntityCallback.

(** The body of the first loop, for the index [i] and the entry
    [input_block] of the palette. *)
Definition phase1_step (st : TranslateState) (ie : nat * PaletteEntry) : Traced TranslateState :=
  let '(i, input_block) := ie in
  '(output_block, output_block_entity, output_entity, extra) ←
    invoke (TranslateBlock input_block None) (translate_block input_block None);
  let st :=
    if extra && bool_decide (is_Some get_chunk_callback) then
      mkState (todo st ++ [i]) (output_block_entities st) (output_entities st)
        (finished st) (palette_mappings st) (block_mappings st)
    else
      match output_block with
      | Some output_block =>
          let '(new, finished') := get_add_block (finished st) output_block in
          mkState (todo st)
            (output_block_entities st ++
               match output_block_entity with
               | Some output_block_entity =>
                   (λ '(cy, (x, y, z)),
                      new_at_location output_block_entity
                        (x + cx chunk * 16) (y + cy * 16) (z + cz chunk * 16))%Z
                     <$> occurrences chunk i
               | None => []
               end)
            (output_entities st) finished'
            (<[i := new]> (palette_mappings st)) (block_mappings st)
      | None => st
      end in
  mret
    (if nonempty output_entity && entity_support then
       mkState (todo st) (output_block_entities st)
         (output_entities st ++
            ('(cy, (x, y, z)) ← occurrences chunk i;
             (λ entity,
                offset_location entity
                  (x + cx chunk * 16) (y + cy * 16) (z + cz chunk * 16))%Z
               <$> output_entity))
         (finished st) (palette_mappings st) (block_mappings st)
     else st).

(** [get_block_at], the closure of the second loop over [x], [y], [z]
    ([y] already absolute), [palette], [chunk] and [get_chunk_callback].
    Its local variables [cx] and [cz], the position of the chunk of the
    target relative to [chunk], are [rcx] and [rcz] here. *)
Definition get_block_at (x y z : Z) (pos : Z * Z * Z) : result (BlockValue * option BlockEntity) :=
  let '(dx, dy, dz) := pos in
  let dx := (dx + x)%Z in
  let dy := (dy + y)%Z in
  let dz := (dz + z)%Z in
  let abs_x := (dx + cx chunk * 16)%Z in
  let abs_y := dy in
  let abs_z := (dz + cz chunk * 16)%Z in
  let rcx := (dx `div` 16)%Z in
  let rcz := (dz `div` 16)%Z in
  if decide (rcx = 0 ∧ rcz = 0)%Z then
    i ← blocks_getitem (blocks chunk) dx dy dz;
    block ← palette_getitem palette i;
    block ← unwrap_entry block;
    Ok (block, block_entities_get (block_entities chunk) (abs_x, abs_y, abs_z))
  else
    callback ← match get_chunk_callback with
               | Some callback => Ok callback
               | None => Raise TypeError
               end;
    '(local_chunk, local_palette) ← callback rcx rcz;
    i ← blocks_getitem (blocks local_chunk) (dx `mod` 16)%Z dy (dz `mod` 16)%Z;
    block ← palette_getitem local_palette i;
    block ← unwrap_entry block;
    Ok (block, block_entities_get (block_entities local_chunk) (abs_x, abs_y, abs_z)).

(** The positions the second loop goes through: for each index of
    [todo], each section and each cell of the section that holds it. *)
Definition phase2_schedule (todo : list nat) : list (nat * (Z * (Z * Z * Z))) :=
  index ← todo; occ ← occurrences chunk index; [(index, occ)].

(** The body of the second loop. *)
Definition phase2_step (st : TranslateState) (job : nat * (Z * (Z * Z * Z))) : Traced TranslateState :=
  let '(index, (cy, (x, y, z))) := job in
  let y := (y + cy * 16)%Z in
  i ← lift (blocks_getitem (blocks chunk) x y z);
  input_block ← lift (palette_getitem palette i);
  '(output_block, output_block_entity, output_entity, _) ←
    invoke (TranslateBlock input_block (Some (x, y, z)))
      (translate_block input_block (Some (get_block_at x y z)));
  let st :=
    match output_block with
    | Some output_block =>
        let '(new, finished') := get_add_block (finished st) output_block in
        mkState (todo st)
          (output_block_entities st ++
             match output_block_entity with
             | Some output_block_entity =>
                 [new_at_location output_block_entity
                    (x + cx chunk * 16) y (z + cz chunk * 16)%Z]
             | None => []
             end)
          (output_entities st) finished'
          (palette_mappings st) (<[(x, y, z) := MIndex new]> (block_mappings st))
    | None => st
    end in
  mret
    (if nonempty output_entity && entity_support then
       mkState (todo st) (output_block_entities st)
         (output_entities st ++ ((λ entity, offset_location entity x y z) <$> output_entity))
         (finished st) (palette_mappings st) (block_mappings st)
     else st).

(** The body of the loop over [chunk.entities]. *)
Definition entity_step (st : TranslateState) (entity : Entity) : Traced TranslateState :=
  '(output_block, output_block_entity, output_entity) ←
    invoke (TranslateEntity entity) (translate_entity entity);
  let st :=
    match output_block with
    | Some output_block =>
        let '(bx, by_, bz) := floor_location entity in
        mkState (todo st)
          (output_block_entities st ++
             match output_block_entity with
             | Some output_block_entity =>
                 [new_at_location output_block_entity bx by_ bz]
             | None => []
             end)
          (output_entities st) (finished st)
          (palette_mappings st) (<[(bx, by_, bz) := MBlock output_block]> (block_mappings st))
    | None => st
    end in
  mret
    (mkState (todo st) (output_block_entities st)
       (output_entities st ++ ((λ e, set_location e (e_location entity)) <$> output_entity))
       (finished st) (palette_mappings st) (block_mappings st)).

(** The two passes of [_translate] over the blocks. *)
Definition block_passes : Traced TranslateState :=
  st ← foldM phase1_step initial_state (enumerate palette);
  foldM phase2_step st (phase2_schedule (todo st)).

(** [_translate] up to the point where the chunk is rewritten: the two
    passes over the blocks, then the entities. *)
Definition translate_passes : Traced TranslateState :=
  st ← block_passes;
  if entity_support then foldM entity_step st (entities chunk) else mret st.

(** The new array of a section:
    [new_blocks = numpy.zeros(old_blocks.shape, dtype=old_blocks.dtype)
     for old, new in palette_mappings.items():
         new_blocks[old_blocks == old] = new] *)
Definition rewrite_sub_chunk (palette_mappings : gmap nat nat) (old_blocks : SubChunk) : SubChunk :=
  map_fold (λ old new new_blocks, assign_where old_blocks new_blocks old new)
    (zeros_like old_blocks) palette_mappings.

(** [chunk.blocks[x, y, z] = new] for a value of [block_mappings]: the
    array holds integers, and a value that is not one cannot be stored. *)
Definition store_mapping (b : Blocks) (m : Z * Z * Z * MappingValue) : result Blocks :=
  let '((x, y, z), new) := m in
  match new with
  | MIndex new => blocks_setitem b x y z new
  | MBlock _ => _ ← blocks_getitem b x y z; Raise TypeError
  end.

(** The end of [_translate]: the sections are rewritten with
    [palette_mappings], then every entry of [block_mappings] is stored,
    and the block entities and entities of the chunk are replaced. *)
Definition commit (st : TranslateState) : result Chunk :=
  let rewritten :=
    (λ '(cy, old_blocks), (cy, rewrite_sub_chunk (palette_mappings st) old_blocks))
      <$> blocks chunk in
  b ← fold_result store_mapping rewritten (map_to_list (block_mappings st));
  Ok (mkChunk (cx chunk) (cz chunk) b
        (output_block_entities st) (output_entities st) (biomes chunk)).

Definition _translate (full_translate : bool) : Traced (Chunk * list PaletteEntry) :=
  if negb full_translate then mret (chunk, palette)
  else
    st ← translate_passes;
    chunk' ← lift (commit st);
    mret (chunk', PBlock <$> blocks_of (finished st)).
End Engine.

(** ** Versions and the direction adapters *)

(** What a block rule of a version returns as its first component: a
    [Block], an [Entity] or [None]. *)
Inductive RuleOutput :=
  | OBlock (b : Block)
  | OEntity (e : Entity)
  | ONone.

Definition BlockRule : Type :=
  Block → option GetBlockCallback → result (RuleOutput * option BlockEntity * bool).

(** A [PyMCTranslate.Version], as far as the translator uses it. *)
Record Version := mkVersion {
  block_to_universal : BlockRule;
  block_from_universal : BlockRule;
  biome_to_universal : Z → Z;
  biome_from_universal : Z → Z;
  block_entity_map : option (gmap string string);
  block_entity_map_inverse : gmap string string
}.

(** The accumulators [final_block], [final_block_entity], [final_entities]
    and [final_extra] of the closures [translate_block]. *)
Definition translate_layer (rule : BlockRule) (get_block_callback : option GetBlockCallback)
    (acc : TranslateBlockCallbackReturn) (db : nat * Block) : result TranslateBlockCallbackReturn :=
  let '(final_block, final_block_entity, final_entities, final_extra) := acc in
  let '(depth, block) := db in
  '(output_object, output_block_entity, extra) ← rule block get_block_callback;
  let '(final_block, final_block_entity, final_entities) :=
    match output_object with
    | OBlock output_object =>
        (Some match final_block with
              | None => output_object
              | Some final_block => block_add final_block output_object
              end,
         if decide (depth = 0) then output_block_entity else final_block_entity,
         final_entities)
    | OEntity output_object =>
        (final_block, final_block_entity, final_entities ++ [output_object])
    | ONone => (final_block, final_block_entity, final_entities)
    end in
  Ok (final_block, final_block_entity, final_entities, final_extra || extra).

(** The closure [translate_block] of [to_universal] and of
    [from_universal], which differ in the rule they call (and in what they
    log).  An entry that is not a [Block] has no [base_block]. *)
Definition translate_block_with (rule : BlockRule) : TranslateBlockCallback :=
  λ input_object get_block_callback,
    match input_object with
    | PBlock input_object =>
        fold_result (translate_layer rule get_block_callback)
          (None, None, [], false)
          (enumerate (base_block input_object :: extra_blocks input_object))
    | PTuple _ => Raise AttributeError
    end.

(** The closure [translate_entity] of both adapters. *)
Definition translate_entity_stub : TranslateEntityCallback :=
  λ input_object, Ok (None, None, []).

(** [Translator._biomes_to_universal] *)
Definition _biomes_to_universal (translator_version : Version) (biome_array : list Z) : Traced (list Z) :=
  let '(biome_palette, biome_compact_array) := np_unique biome_array in
  universal_biome_palette ←
    mapM (λ biome, invoke (BiomeToUniversal biome)
                     (Ok (biome_to_universal translator_version biome)))
      biome_palette;
  lift (take_indices universal_biome_palette biome_compact_array).

(** [Translator._biomes_from_universal] *)
Definition _biomes_from_universal (translator_version : Version) (biome_array : list Z) : Traced (list Z) :=
  let '(biome_palette, biome_compact_array) := np_unique biome_array in
  universal_biome_palette ←
    mapM (λ biome, invoke (BiomeFromUniversal biome)
                     (Ok (biome_from_universal translator_version biome)))
      biome_palette;
  lift (take_indices universal_biome_palette biome_compact_array).

(** [Translator._pack_palette] *)
Definition _pack_palette (version : Version) (palette : list PaletteEntry) : list PaletteEntry :=
  palette.

(** [Translator._unpack_palette] *)
Definition _unpack_palette (version : Version) (palette : list PaletteEntry) : list PaletteEntry :=
  palette.

(** The loop of [to_universal] over [chunk.block_entities]. *)
Definition name_block_entities_to_universal (version : Version) (l : list BlockEntity) : list BlockEntity :=
  match block_entity_map version with
  | Some names =>
      (λ block_entity,
         match be_namespace block_entity, names !! be_base_name block_entity with
         | None, Some name => set_namespaced_name block_entity name
         | _, _ => block_entity
         end) <$> l
  | None => l
  end.

(** The loop of [from_universal] over [chunk.block_entities]. *)
Definition name_block_entities_from_universal (version : Version) (l : list BlockEntity) : list BlockEntity :=
  match block_entity_map version with
  | Some _ =>
      (λ block_entity,
         match block_entity_map_inverse version !! be_namespaced_name block_entity with
         | Some name => set_namespaced_name block_entity name
         | None => block_entity
         end) <$> l
  | None => l
  end.

(** [Translator.to_universal], for the [version] that
    [translation_manager.get_version] found.  The messages of [log.debug]
    are left out. *)
Definition to_universal (entity_support : bool) (version : Version) (chunk : Chunk)
    (palette : list PaletteEntry) (get_chunk_callback : option GetChunkCallback)
    (full_translate : bool) : Traced (Chunk * list PaletteEntry) :=
  biomes' ← _biomes_to_universal version (biomes chunk);
  let chunk :=
    mkChunk (cx chunk) (cz chunk) (blocks chunk)
      (name_block_entities_to_universal version (block_entities chunk))
      (entities chunk) biomes' in
  _translate entity_support chunk palette get_chunk_callback
    (translate_block_with (block_to_universal version)) translate_entity_stub
    full_translate.

(** [Translator.from_universal] *)
Definition from_universal (entity_support : bool) (version : Version) (chunk : Chunk)
    (palette : list PaletteEntry) (get_chunk_callback : option GetChunkCallback)
    (full_translate : bool) : Traced (Chunk * list PaletteEntry) :=
  '(chunk, palette) ←
    _translate entity_support chunk palette get_chunk_callback
      (translate_block_with (block_from_universal version)) translate_entity_stub
      full_translate;
  let palette := _pack_palette version palette in
  biomes' ← _biomes_from_universal version (biomes chunk);
  mret
    (mkChunk (cx chunk) (cz chunk) (blocks chunk)
       (name_block_entities_from_universal version (block_entities chunk))
       (entities chunk) biomes',
     palette).

(** ** The replace operation ([amulet/operations/replace.py]) *)

Inductive LogRecord :=
  | LogError (message : string).

(** Modelled from the spec: the world a replace works on, as far as the
    operation touches it: [world.palette] and, for the chunks that
    [world.get_chunk_slices(selection)] yields, the cells of the views
    [chunk.blocks[slice]]. *)
Record World := mkWorld {
  world_palette : BlockManager;
  chunk_slices : list (list nat)
}.

(** [list(map(world.palette.get_add_block, blocks))] *)
Fixpoint get_add_blocks (manager : BlockManager) (l : list Block) : list nat * BlockManager :=
  match l with
  | [] => ([], manager)
  | b :: l =>
      let '(i, manager) := get_add_block manager b in
      let '(ids, manager) := get_add_blocks manager l in
      (i :: ids, manager)
  end.

(** The body of the loop over the chunks:
    [blocks = chunk.blocks[slice].copy()
     for original_id, replacement_id in zip(original_internal_ids, replacement_internal_ids):
         chunk.blocks[slice][blocks == original_id] = replacement_id] *)
Definition replace_in_slice (original_internal_ids replacement_internal_ids : list nat)
    (cells : list nat) : list nat :=
  let blocks := cells in
  foldl (λ cells '(original_id, replacement_id),
           zip_with (λ b c, if decide (b = original_id) then replacement_id else c)
             blocks cells)
    cells (zip original_internal_ids replacement_internal_ids).

(** [replace(world, selection, options)] for options whose
    ['original_blocks'] and ['replacement_blocks'] are lists of [Block]:
    for a list the two tests [not isinstance(..., list) and ...] are false.
    The result is the log and the world the call leaves. *)
Definition replace (world : World) (original_blocks replacement_blocks : list Block) : list LogRecord * World :=
  let '(log, replacement_blocks) :=
    if decide (length original_blocks ≠ length replacement_blocks) then
      if decide (length replacement_blocks = 1) then
        ([], mjoin (replicate (length original_blocks) replacement_blocks))
      else
        ([LogError "Replace operation must be given the same number of destination blocks as source blocks"],
         replacement_blocks)
    else ([], replacement_blocks) in
  let '(original_internal_ids, manager) := get_add_blocks (world_palette world) original_blocks in
  let '(replacement_internal_ids, manager) := get_add_blocks manager replacement_blocks in
  (log,
   mkWorld manager
     (replace_in_slice original_internal_ids replacement_internal_ids <$> chunk_slices world)).

(** ** Well-formed block arrays and the wording of the spec *)

(** The sections have distinct ids and are at most 16 cells high. *)
Definition wf_blocks (b : Blocks) : Prop :=
  NoDup b.*1 ∧
  Forall (λ s : Z * SubChunk, Forall (λ plane : list (list nat), length plane ≤ 16) s.2) b.

(** The cell [(x, y, z)] of the section [cy] holds [i]. *)
Definition holds (b : Blocks) (cy : Z) (x y z : nat) (i : nat) : Prop :=
  ∃ a, (cy, a) ∈ b ∧ array_lookup a x y z = Some i.


(** The state of the first pass after the entries [pre] of the palette:
    what [todo], [palette_mappings] and [finished] hold for each index. *)
Definition phase1_inv (get_chunk_callback : option GetChunkCallback)
    (translate_block : TranslateBlockCallback)
    (pre : list PaletteEntry) (st : TranslateState) : Prop :=
  NoDup (finished st) ∧ NoDup (todo st) ∧ block_mappings st = ∅ ∧
  (∀ i, is_Some (palette_mappings st !! i) ∨ i ∈ todo st → i < length pre) ∧
  (∀ i e, pre !! i = Some e →
     ∃ ob obe oe extra,
       translate_block e None = Ok (ob, obe, oe, extra) ∧
       if extra && bool_decide (is_Some get_chunk_callback) then
         (i ∈ todo st ∧ palette_mappings st !! i = None)
       else
         ((i ∉ todo st) ∧
          match ob with
          | Some b => ∃ k, palette_mappings st !! i = Some k ∧ finished st !! k = Some b
          | None => palette_mappings st !! i = None
          end)) ∧
  (∀ b, b ∈ finished st →
     ∃ e obe oe extra,
       e ∈ pre ∧ translate_block e None = Ok (Some b, obe, oe, extra) ∧
       (extra && bool_decide (is_Some get_chunk_callback)) = false).

(** The position a job of the second pass is about: [x] and [z] within
    the chunk, [y] absolute. *)
Definition job_position (job : nat * (Z * (Z * Z * Z))) : Z * Z * Z :=
  let '(_, (cy, (x, y, z))) := job in (x, y + cy * 16, z)%Z.

(** The state of the second pass after the jobs [pre], from the state
    [st1] of the first pass. *)
Definition phase2_inv (chunk : Chunk) (palette : list PaletteEntry)
    (get_chunk_callback : option GetChunkCallback)
    (translate_block : TranslateBlockCallback) (st1 : TranslateState)
    (pre : list (nat * (Z * (Z * Z * Z)))) (st : TranslateState) : Prop :=
  todo st = todo st1 ∧ palette_mappings st = palette_mappings st1 ∧
  NoDup (finished st) ∧ (∃ tail, finished st = finished st1 ++ tail) ∧
  (∀ p, is_Some (block_mappings st !! p) → ∃ job, job ∈ pre ∧ job_position job = p) ∧
  (∀ job, job ∈ pre →
     ∃ e ob obe oe extra,
       palette !! job.1 = Some e ∧
       (let '(x, y, z) := job_position job in
        translate_block e (Some (get_block_at chunk palette get_chunk_callback x y z)))
         = Ok (ob, obe, oe, extra) ∧
       match ob with
       | Some b =>
           ∃ k, block_mappings st !! job_position job = Some (MIndex k) ∧
                finished st !! k = Some b
       | None => block_mappings st !! job_position job = None
       end).

(** The block rules of [version] map the layer [l] to the layer [l'] and
    [l'] back to [l], each to one block, without asking for context. *)
Definition layers_inverse (version : Version) (l l' : Layer) : Prop :=
  (∃ be, block_to_universal version (mkBlock l []) None =
           Ok (OBlock (mkBlock l' []), be, false)) ∧
  (∃ be, block_from_universal version (mkBlock l' []) None =
           Ok (OBlock (mkBlock l []), be, false)).

#[global] Instance wf_blocks_dec (b : Blocks) : Decision (wf_blocks b).
Proof. unfold wf_blocks. apply _. Defined.

(** ** Tactics *)

(** Membership in a sequence that was extended by one element. *)
Ltac in_app_left := apply elem_of_app; by left.
Ltac in_app_last := apply elem_of_app; right; by left.

(** ** Sample data *)

Module Sample.
Definition block (name : string) : Block :=
  mkBlock (mkLayer "minecraft" name ∅) [].
Definition universal (name : string) : Block :=
  mkBlock (mkLayer "universal_minecraft" name ∅) [].

Definition stone := block "stone".
Definition water := block "water".
Definition dirt := block "dirt".
Definition sand := block "sand".
Definition clay := block "clay".

(** An array of shape (2, 3, 4) that holds [v] at [(1, 2, 3)] and 0
    elsewhere. *)
Definition array_with (v : nat) : SubChunk :=
  [replicate 3 (replicate 4 0);
   [replicate 4 0; replicate 4 0; [0; 0; 0; v]]].

Definition chest : BlockEntity := mkBlockEntity "minecraft:chest" (0, 0, 0)%Z "{}".
Definition item : Entity := mkEntity "minecraft:item" (0, 0, 0)%Q "{}".
Definition cart : Entity := mkEntity "minecraft:minecart" (1 # 2, 3 # 2, 5 # 2)%Q "{}".

(** The chunk at (2, -1) with the section 1 only, whose cell (1, 2, 3)
    holds the index 1. *)
Definition chunk : Chunk :=
  mkChunk 2 (-1) [(1%Z, array_with 1)] [] [] [1; 1; 4]%Z.

(** The same cells in the section 0, and an entity in the cell
    (0, 1, 2). *)
Definition chunk_with_entity : Chunk :=
  mkChunk 0 0 [(0%Z, array_with 1)] [] [cart] [].

Definition palette : list PaletteEntry := [PBlock stone; PBlock water].

Definition no_neighbours : GetChunkCallback := λ _ _, Raise KeyError.

(** Stone translates by itself; water needs its neighbours, and once it
    has the resolver it comes with a block entity and an entity. *)
Definition translate_block : TranslateBlockCallback :=
  λ input_block get_block_callback,
    match get_block_callback with
    | None => Ok (Some (universal "stone"), None, [], bool_decide (input_block = PBlock water))
    | Some _ => Ok (Some (universal "water"), Some chest, [item], false)
    end.

Definition translate_block_plain : TranslateBlockCallback :=
  λ input_block _, Ok (Some (universal "stone"), None, [], false).

(** An entity that becomes a block. *)
Definition translate_entity : TranslateEntityCallback :=
  λ entity, Ok (Some (universal "rail"), None, []).

Definition world : World := mkWorld [stone; water] [[0; 1; 0; 1]; [1; 1]].
(** Every block becomes a chest with its block entity. *)
Definition translate_block_chest : TranslateBlockCallback :=
  λ input_block _, Ok (Some (universal "chest"), Some chest, [], false).

(** Stone translates; water translates to nothing. *)
Definition translate_block_no_water : TranslateBlockCallback :=
  λ input_block _,
    Ok (if decide (input_block = PBlock water) then None else Some (universal "stone"),
        None, [], false).

(** A door with a layer of water. *)
Definition door : Block :=
  mkBlock (mkLayer "minecraft" "oak_door" ∅) [mkLayer "minecraft" "water" ∅].

Definition rename (namespace : string) : BlockRule :=
  λ block _,
    Ok (OBlock (mkBlock (mkLayer namespace (base_name (base block)) (properties (base block))) []),
        None, false).

(** A version whose block rules change the namespace only. *)
Definition version : Version :=
  mkVersion (rename "universal_minecraft") (rename "minecraft")
    (λ biome, biome + 100)%Z (λ biome, biome - 100)%Z None ∅.

Definition door_palette : list PaletteEntry := [PBlock stone; PBlock door].

(** A palette with the same block at two indices. *)
Definition twice : list PaletteEntry := [PBlock stone; PBlock stone].

Definition chunk_of (r : Traced (Chunk * list PaletteEntry)) : Chunk :=
  match r.2 with Ok (c, _) => c | Raise _ => chunk end.
Definition palette_of (r : Traced (Chunk * list PaletteEntry)) : list PaletteEntry :=
  match r.2 with Ok (_, p) => p | Raise _ => [] end.
Definition state_of (r : Traced TranslateState) : TranslateState :=
  match r.2 with Ok st => st | Raise _ => initial_state end.

Definition twice_outcome : Traced (Chunk * list PaletteEntry) :=
  _translate false chunk twice None translate_block_plain translate_entity_stub true.

Definition no_water_outcome : Traced (Chunk * list PaletteEntry) :=
  _translate false chunk palette None translate_block_no_water translate_entity_stub true.

Definition passes_outcome : Traced TranslateState :=
  block_passes true chunk palette (Some no_neighbours) translate_block.




End Sample.

(** ** The closures [translate_block] in the words of their loop *)

(** The outputs of a block rule that are blocks, merged in order: the
    first one starts the result, each later one is added to it. *)
Definition merge_blocks (outputs : list Block) : option Block :=
  foldl (λ acc output,
           Some match acc with
                | None => output
                | Some final_block => block_add final_block output
                end)
    None outputs.

Definition rule_block (r : RuleOutput * option BlockEntity * bool) : option Block :=
  match r.1.1 with OBlock b => Some b | _ => None end.

Definition rule_entity (r : RuleOutput * option BlockEntity * bool) : option Entity :=
  match r.1.1 with OEntity e => Some e | _ => None end.

(** What the closure returns when the rule gave [rs] for the layers, in
    order: the merged block, the block entity of the base layer when that
    layer gave a block, the entities, and whether a layer asked for
    context. *)
Definition combine_layers (rs : list (RuleOutput * option BlockEntity * bool)) :
    TranslateBlockCallbackReturn :=
  (merge_blocks (omap rule_block rs),
   match rs with
   | (OBlock _, output_block_entity, _) :: _ => output_block_entity
   | _ => None
   end,
   omap rule_entity rs,
   existsb snd rs).

(** ** Shapes and call sequences *)

(** [a.shape] for an array kept as nested lists: for each plane, the
    lengths of its rows. *)
Definition shape (a : SubChunk) : list (list nat) :=
  (λ plane : list (list nat), length <$> plane) <$> a.

(** The section ids of a block array, each with the shape of its array. *)
Definition section_shapes (b : Blocks) : list (Z * list (list nat)) :=
  (λ s : Z * SubChunk, (s.1, shape s.2)) <$> b.

(** The first pass leaves the entry to the second: its translation
    without context asks for its surroundings, and a chunk loader is
    there. *)
Definition is_deferred (get_chunk_callback : option GetChunkCallback)
    (translate_block : TranslateBlockCallback) (input_block : PaletteEntry) : bool :=
  match translate_block input_block None with
  | Ok (_, _, _, extra) => extra && bool_decide (is_Some get_chunk_callback)
  | Raise _ => false
  end.

(** ** The replacement of a cell *)

(** What a sequence of [(original_id, replacement_id)] pairs makes of a
    cell that held [c]: the replacement of the last pair whose original is
    [c], and [c] itself when there is none. *)
Definition substitute (pairs : list (nat * nat)) (c : nat) : nat :=
  match list_find (λ p : nat * nat, p.1 = c) (reverse pairs) with
  | Some (_, p) => p.2
  | None => c
  end.

(** ** More sample data *)

Module Cases.
(** A rule that makes a chest, with its block entity, of every layer. *)
Definition rule_chest : BlockRule :=
  λ block _, Ok (OBlock (Sample.universal "chest"), Some Sample.chest, false).

(** The translation of the sample chunk with a chunk loader: water is
    left to the second pass. *)
Definition deferred_outcome : Traced (Chunk * list PaletteEntry) :=
  _translate true Sample.chunk Sample.palette (Some Sample.no_neighbours)
    Sample.translate_block translate_entity_stub true.

(** The same for the chunk that has an entity, without entity support. *)
Definition no_entities_outcome : Traced (Chunk * list PaletteEntry) :=
  _translate false Sample.chunk_with_entity Sample.palette (Some Sample.no_neighbours)
    Sample.translate_block translate_entity_stub true.

(** The chunk that has an entity, with entity support and the entity
    callback of the adapters. *)
Definition entity_outcome : Traced (Chunk * list PaletteEntry) :=
  _translate true Sample.chunk_with_entity Sample.palette None
    Sample.translate_block_plain translate_entity_stub true.

(** A version that knows the block entity [Chest]. *)
Definition version : Version :=
  mkVersion (Sample.rename "universal_minecraft") (Sample.rename "minecraft")
    (λ biome, biome + 100)%Z (λ biome, biome - 100)%Z
    (Some {["Chest" := "universal_minecraft:chest"]})
    {["universal_minecraft:chest" := "Chest"]}.

Definition old_chest : BlockEntity := mkBlockEntity "Chest" (1, 2, 3)%Z "{}".
Definition furnace : BlockEntity := mkBlockEntity "minecraft:furnace" (4, 5, 6)%Z "{}".

Definition chunk : Chunk :=
  mkChunk 2 (-1) [(1%Z, Sample.array_with 1)] [old_chest; furnace] [Sample.cart] [1; 1; 4]%Z.

(** A palette whose second entry is not a block. *)
Definition bedrock_palette_pre : list PaletteEntry := [PBlock Sample.stone].
Definition bedrock_palette_suf : list PaletteEntry := [PBlock Sample.water].
End Cases.

Module Items.
(** A rule that makes an item entity of water and renames every other
    layer. *)
Definition rule_item : BlockRule :=
  λ block get_block_callback,
    if decide (base_name (base block) = "water") then Ok (OEntity Sample.item, None, false)
    else Sample.rename "universal_minecraft" block get_block_callback.

Definition version : Version :=
  mkVersion rule_item (Sample.rename "minecraft") (λ biome, biome) (λ biome, biome) None ∅.

Definition outcome : Traced (Chunk * list PaletteEntry) :=
  to_universal true version Sample.chunk Sample.palette None true.
End Items.

(** * Properties *)

(** ** The monads *)

Lemma traced_bind_ok {A B} (m : Traced A) (f : A → Traced B) calls b :
  m ≫= f = (calls, Ok b) →
  ∃ calls1 a calls2, m = (calls1, Ok a) ∧ f a = (calls2, Ok b) ∧ calls = calls1 ++ calls2.
Proof.
  destruct m as [calls1 [a|e]]; simpl; [|discriminate].
  destruct (f a) as [calls2 r] eqn:Hf. intros [= <- ->]. eauto 6.
Qed.

Lemma mapM_invoke {A B} (c : A → Call) (f : A → B) (l : list A) :
  mapM (λ a, invoke (c a) (Ok (f a))) l = (c <$> l, Ok (f <$> l)).
Proof.
  induction l as [|a l IH]; [done|].
  cbn [mapM]. rewrite IH. cbn. by rewrite app_nil_r.
Qed.

(** ** Biomes *)

Lemma np_unique_values_NoDup (a : list Z) : NoDup (np_unique a).1.
Proof.
  unfold np_unique; simpl.
  rewrite (merge_sort_Permutation Z.le). apply NoDup_remove_dups.
Qed.

Lemma np_unique_values_elem (a : list Z) (v : Z) : v ∈ (np_unique a).1 ↔ v ∈ a.
Proof.
  unfold np_unique; simpl.
  rewrite (merge_sort_Permutation Z.le). apply elem_of_remove_dups.
Qed.

Lemma take_indices_inverse (f : Z → Z) (values a : list Z) :
  (∀ v, v ∈ a → v ∈ values) →
  take_indices (f <$> values)
    ((λ v, default 0 (fst <$> list_find (λ u, u = v) values)) <$> a)
  = Ok (f <$> a).
Proof.
  unfold take_indices. induction a as [|v a IH]; intros Hin; [done|].
  cbn [fmap list_fmap mapM].
  destruct (list_find_elem_of (λ u, u = v) values v) as [[i u] Hfind];
    [apply Hin; left | done |].
  rewrite Hfind. simpl.
  apply list_find_Some in Hfind as (Hi & -> & _).
  rewrite list_lookup_fmap, Hi. simpl.
  rewrite IH by (intros; apply Hin; by right). done.
Qed.

Lemma biomes_spec (version : Version) (biome_array : list Z) :
  ∃ values : list Z,
    NoDup values ∧ (∀ v, v ∈ values ↔ v ∈ biome_array) ∧
    length values = length (remove_dups biome_array) ∧
    _biomes_to_universal version biome_array =
      (BiomeToUniversal <$> values, Ok (biome_to_universal version <$> biome_array)) ∧
    _biomes_from_universal version biome_array =
      (BiomeFromUniversal <$> values, Ok (biome_from_universal version <$> biome_array)).
Proof.
  exists (np_unique biome_array).1.
  split; [apply np_unique_values_NoDup|].
  split; [apply np_unique_values_elem|].
  split.
  { unfold np_unique; simpl. by rewrite (merge_sort_Permutation Z.le). }
  unfold _biomes_to_universal, _biomes_from_universal.
  pose proof (np_unique_values_elem biome_array) as Helem.
  unfold np_unique in *; simpl in *.
  rewrite !mapM_invoke. cbn.
  rewrite !take_indices_inverse by (intros; by apply Helem).
  by rewrite !app_nil_r.
Qed.

(** C3: the biome remappers return the array of the rule applied to every
    cell, and call the rule of the version once for each distinct value of
    the array: the calls are those of a duplicate-free list [values] that
    has exactly the values of the array. *)
Theorem C3_biomes_once_per_distinct_value (version : Version) (biome_array : list Z) :
  ∃ values : list Z,
    NoDup values ∧ (∀ v, v ∈ values ↔ v ∈ biome_array) ∧
    length values = length (remove_dups biome_array) ∧
    _biomes_to_universal version biome_array =
      (BiomeToUniversal <$> values, Ok (biome_to_universal version <$> biome_array)) ∧
    _biomes_from_universal version biome_array =
      (BiomeFromUniversal <$> values, Ok (biome_from_universal version <$> biome_array)).
Proof. apply biomes_spec. Qed.

(** ** The replace operation *)

(** C2: with two source blocks and three destination blocks the operation
    logs its error and goes on: the first two pairs are applied to the
    selected cells and the palette of the world grows by three blocks. *)
Theorem C2_replace_mismatch_still_mutates :
  replace Sample.world [Sample.stone; Sample.water] [Sample.dirt; Sample.sand; Sample.clay] =
    ([LogError "Replace operation must be given the same number of destination blocks as source blocks"],
     mkWorld [Sample.stone; Sample.water; Sample.dirt; Sample.sand; Sample.clay]
       [[2; 3; 2; 3]; [3; 3]]).
Proof. vm_compute. reflexivity. Qed.

(** ** The slips of the entity code *)

(** C4: the entity pass puts the block itself into [block_mappings], not
    an index of [finished], and the block is not added to [finished]; the
    store of that value into the array of indices then fails. *)
Theorem C4_entity_pass_records_block :
  (∃ calls st,
     translate_passes true Sample.chunk_with_entity Sample.palette None
       Sample.translate_block_plain Sample.translate_entity = (calls, Ok st) ∧
     block_mappings st !! (0, 1, 2)%Z = Some (MBlock (Sample.universal "rail")) ∧
     finished st = [Sample.universal "stone"]) ∧
  (_translate true Sample.chunk_with_entity Sample.palette None
     Sample.translate_block_plain Sample.translate_entity true).2 = Raise TypeError.
Proof.
  split; [|vm_compute; reflexivity].
  eexists _, _. split; [vm_compute; reflexivity|].
  split; vm_compute; reflexivity.
Qed.

(** C9: in the second pass the block entity of the cell (1, 2, 3) of the
    section 1 of the chunk (2, -1) is placed at (33, 18, -13), and the
    entity of the same cell at (1, 18, 3): the offsets 16 * cx and 16 * cz
    are not applied to it. *)
Theorem C9_phase2_entity_not_offset_by_chunk :
  ∃ calls chunk' palette',
    _translate true Sample.chunk Sample.palette (Some Sample.no_neighbours)
      Sample.translate_block translate_entity_stub true = (calls, Ok (chunk', palette')) ∧
    be_location <$> block_entities chunk' = [(33, 18, -13)%Z] ∧
    e_location <$> entities chunk' = [(1 # 1, 18 # 1, 3 # 1)%Q].
Proof.
  eexists _, _, _. split; [vm_compute; reflexivity|].
  split; vm_compute; reflexivity.
Qed.

(** ** The cells that hold an index *)

Lemma elem_of_join_imap {A B} (f : nat → A → list B) (l : list A) (e : B) :
  e ∈ mjoin (imap f l) ↔ ∃ k v, l !! k = Some v ∧ e ∈ f k v.
Proof.
  rewrite list_elem_of_join. split.
  - intros (l' & He & Hl'). apply elem_of_lookup_imap in Hl' as (k & v & -> & Hk). eauto.
  - intros (k & v & Hk & He). exists (f k v). split; [done|].
    by apply elem_of_lookup_imap_2.
Qed.

Lemma NoDup_join_imap {A B} (f : nat → A → list B) (l : list A) :
  (∀ k v, l !! k = Some v → NoDup (f k v)) →
  (∀ k1 v1 k2 v2 e,
     l !! k1 = Some v1 → l !! k2 = Some v2 → e ∈ f k1 v1 → e ∈ f k2 v2 → k1 = k2) →
  NoDup (mjoin (imap f l)).
Proof.
  revert f. induction l as [|a l IH]; intros f Hnd Hdisj; [constructor|].
  rewrite imap_cons. cbn [mjoin list_join]. apply NoDup_app. split_and!.
  - by apply (Hnd 0 a).
  - intros e He Hin. apply elem_of_join_imap in Hin as (k & v & Hk & Hin).
    by specialize (Hdisj 0 a (S k) v e eq_refl Hk He Hin).
  - apply IH.
    + intros k v Hk. by apply (Hnd (S k) v).
    + intros k1 v1 k2 v2 e H1 H2 He1 He2.
      by specialize (Hdisj (S k1) v1 (S k2) v2 e H1 H2 He1 He2) as [= ->].
Qed.

Lemma array_lookup_Some (a : SubChunk) (x y z v : nat) :
  array_lookup a x y z = Some v ↔
  ∃ plane row, a !! x = Some plane ∧ plane !! y = Some row ∧ row !! z = Some v.
Proof.
  unfold array_lookup. split.
  - destruct (a !! x) as [plane|] eqn:Hx; [simpl|done].
    destruct (plane !! y) as [row|] eqn:Hy; [simpl|done]. intros; eauto 10.
  - intros (plane & row & -> & Hy & Hz). simpl. by rewrite Hy.
Qed.

Lemma where_eq_elem (a : SubChunk) (i : nat) (pos : Z * Z * Z) :
  pos ∈ where_eq a i ↔
  ∃ x y z : nat, pos = (Z.of_nat x, Z.of_nat y, Z.of_nat z) ∧ array_lookup a x y z = Some i.
Proof.
  unfold where_eq. rewrite elem_of_join_imap. split.
  - intros (x & plane & Hx & H). apply elem_of_join_imap in H as (y & row & Hy & H).
    apply elem_of_join_imap in H as (z & v & Hz & H).
    destruct (decide (v = i)) as [->|]; [|by apply elem_of_nil in H].
    apply list_elem_of_singleton in H as ->.
    exists x, y, z. split; [done|]. apply array_lookup_Some. eauto.
  - intros (x & y & z & -> & H). apply array_lookup_Some in H as (plane & row & Hx & Hy & Hz).
    exists x, plane. split; [done|]. apply elem_of_join_imap.
    exists y, row. split; [done|]. apply elem_of_join_imap.
    exists z, i. split; [done|]. rewrite decide_True by done. by left.
Qed.

Lemma where_eq_NoDup (a : SubChunk) (i : nat) : NoDup (where_eq a i).
Proof.
  unfold where_eq. apply NoDup_join_imap.
  - intros x plane _. apply NoDup_join_imap.
    + intros y row _. apply NoDup_join_imap.
      * intros z v _. destruct (decide (v = i)); [apply NoDup_singleton | constructor].
      * intros z1 v1 z2 v2 e _ _ H1 H2.
        destruct (decide (v1 = i)); [|by apply elem_of_nil in H1].
        destruct (decide (v2 = i)); [|by apply elem_of_nil in H2].
        apply list_elem_of_singleton in H1, H2. simplify_eq. lia.
    + intros y1 row1 y2 row2 e _ _ H1 H2.
      apply elem_of_join_imap in H1 as (z1 & v1 & _ & H1).
      apply elem_of_join_imap in H2 as (z2 & v2 & _ & H2).
      destruct (decide (v1 = i)); [|by apply elem_of_nil in H1].
      destruct (decide (v2 = i)); [|by apply elem_of_nil in H2].
      apply list_elem_of_singleton in H1, H2. simplify_eq. lia.
  - intros x1 plane1 x2 plane2 e _ _ H1 H2.
    apply elem_of_join_imap in H1 as (y1 & row1 & _ & H1).
    apply elem_of_join_imap in H2 as (y2 & row2 & _ & H2).
    apply elem_of_join_imap in H1 as (z1 & v1 & _ & H1).
    apply elem_of_join_imap in H2 as (z2 & v2 & _ & H2).
    destruct (decide (v1 = i)); [|by apply elem_of_nil in H1].
    destruct (decide (v2 = i)); [|by apply elem_of_nil in H2].
    apply list_elem_of_singleton in H1, H2. simplify_eq. lia.
Qed.

Lemma NoDup_fst_functional {A B} (l : list (A * B)) (k : A) (v1 v2 : B) :
  NoDup l.*1 → (k, v1) ∈ l → (k, v2) ∈ l → v1 = v2.
Proof.
  induction l as [|[k' v'] l IH]; intros Hnd H1 H2; [by apply elem_of_nil in H1|].
  cbn in Hnd. apply NoDup_cons in Hnd as [Hk Hnd].
  assert (∀ v, (k', v) ∈ l → False) as Hfresh.
  { intros v Hv. apply Hk. apply list_elem_of_fmap. by exists (k', v). }
  apply elem_of_cons in H1 as [H1|H1], H2 as [H2|H2]; simplify_eq.
  - done.
  - by destruct (Hfresh v2).
  - by destruct (Hfresh v1).
  - by apply IH.
Qed.

Lemma occurrences_elem (chunk : Chunk) (i : nat) (cy : Z) (pos : Z * Z * Z) :
  (cy, pos) ∈ occurrences chunk i ↔
  ∃ x y z : nat, pos = (Z.of_nat x, Z.of_nat y, Z.of_nat z) ∧ holds (blocks chunk) cy x y z i.
Proof.
  unfold occurrences, holds. rewrite list_elem_of_bind. split.
  - intros ([cy' a] & H & Ha). apply list_elem_of_bind in H as (pos' & H & Hpos).
    apply list_elem_of_singleton in H as [= -> ->].
    apply where_eq_elem in Hpos as (x & y & z & -> & Hl). eauto 8.
  - intros (x & y & z & -> & a & Ha & Hl). exists (cy, a). split; [|done].
    apply list_elem_of_bind. eexists. split; [by apply list_elem_of_singleton|].
    apply where_eq_elem. eauto.
Qed.

Lemma occurrences_NoDup (chunk : Chunk) (i : nat) :
  NoDup (blocks chunk).*1 → NoDup (occurrences chunk i).
Proof.
  intros Hkeys. unfold occurrences. apply NoDup_bind.
  - intros [cy1 a1] [cy2 a2] [cy pos] H1 H2 Hin1 Hin2.
    apply list_elem_of_bind in Hin1 as (? & Hin1 & _).
    apply list_elem_of_bind in Hin2 as (? & Hin2 & _).
    apply list_elem_of_singleton in Hin1 as [= -> ->].
    apply list_elem_of_singleton in Hin2 as [= -> _].
    f_equal. by eapply NoDup_fst_functional.
  - intros [cy a] _. apply NoDup_bind.
    + intros p1 p2 e _ _ H1 H2.
      apply list_elem_of_singleton in H1, H2. congruence.
    + intros; apply NoDup_singleton.
    + apply where_eq_NoDup.
  - by apply NoDup_fmap_1 in Hkeys.
Qed.

Lemma holds_height_blocks (b : Blocks) (cy : Z) (x y z i : nat) :
  wf_blocks b → holds b cy x y z i → y < 16.
Proof.
  intros [_ Hwf] (a & Ha & Hl). apply array_lookup_Some in Hl as (plane & row & Hx & Hy & _).
  rewrite Forall_forall in Hwf. specialize (Hwf _ Ha). simpl in Hwf.
  rewrite Forall_forall in Hwf. apply list_elem_of_lookup_2 in Hx.
  specialize (Hwf _ Hx). apply lookup_lt_Some in Hy. lia.
Qed.

Lemma holds_height (chunk : Chunk) (cy : Z) (x y z i : nat) :
  wf_blocks (blocks chunk) → holds (blocks chunk) cy x y z i → y < 16.
Proof. apply holds_height_blocks. Qed.

(** The absolute position of the cell [(x, y, z)] of the section [cy]. *)
Lemma absolute_position_inj (chunk : Chunk) (i : nat) (o1 o2 : Z * (Z * Z * Z)) :
  wf_blocks (blocks chunk) →
  o1 ∈ occurrences chunk i → o2 ∈ occurrences chunk i →
  (let '(cy, (x, y, z)) := o1 in (x + cx chunk * 16, y + cy * 16, z + cz chunk * 16)%Z) =
  (let '(cy, (x, y, z)) := o2 in (x + cx chunk * 16, y + cy * 16, z + cz chunk * 16)%Z) →
  o1 = o2.
Proof.
  intros Hwf H1 H2. destruct o1 as [cy1 pos1], o2 as [cy2 pos2].
  apply occurrences_elem in H1 as (x1 & y1 & z1 & -> & H1).
  apply occurrences_elem in H2 as (x2 & y2 & z2 & -> & H2).
  apply holds_height in H1, H2; [|done..].
  intros [= Hx Hy Hz].
  assert (cy1 = cy2) as -> by lia.
  repeat f_equal; lia.
Qed.

(** ** Reading the block array *)

Lemma get_sub_chunk_elem (b : Blocks) (cy : Z) (a : SubChunk) :
  NoDup b.*1 → (cy, a) ∈ b → get_sub_chunk b cy = Ok a.
Proof.
  induction b as [|[cy' a'] b IH]; intros Hnd Hin; [by apply elem_of_nil in Hin|].
  cbn in *. apply NoDup_cons in Hnd as [Hk Hnd].
  apply elem_of_cons in Hin as [[= <- <-]|Hin]; [by rewrite decide_True|].
  rewrite decide_False; [by apply IH|].
  intros ->. apply Hk. apply list_elem_of_fmap. by exists (cy, a).
Qed.

Lemma get_sub_chunk_Ok (b : Blocks) (cy : Z) (a : SubChunk) :
  get_sub_chunk b cy = Ok a → (cy, a) ∈ b.
Proof.
  induction b as [|[cy' a'] b IH]; [done|]. cbn.
  destruct (decide (cy' = cy)) as [->|]; [intros [= ->]; left|right; auto].
Qed.

Lemma section_of_height (y : nat) (cy : Z) :
  y < 16 → ((Z.of_nat y + cy * 16) `div` 16 = cy ∧ (Z.of_nat y + cy * 16) `mod` 16 = Z.of_nat y)%Z.
Proof.
  intros Hy. split.
  - rewrite Z.div_add by lia. rewrite Z.div_small by lia. lia.
  - rewrite Z.mod_add by lia. apply Z.mod_small. lia.
Qed.

Lemma array_getitem_lookup (a : SubChunk) (x y z : nat) :
  array_getitem a (Z.of_nat x) (Z.of_nat y) (Z.of_nat z) =
    match array_lookup a x y z with Some v => Ok v | None => Raise IndexError end.
Proof.
  unfold array_getitem. rewrite decide_True by lia. by rewrite !Nat2Z.id.
Qed.

Lemma blocks_getitem_holds (b : Blocks) (cy : Z) (x y z i : nat) :
  wf_blocks b → holds b cy x y z i →
  blocks_getitem b (Z.of_nat x) (Z.of_nat y + cy * 16) (Z.of_nat z) = Ok i.
Proof.
  intros Hwf Hh. pose proof (holds_height_blocks b cy x y z i Hwf Hh) as Hy.
  destruct Hwf as [Hnd _]. destruct Hh as (a & Ha & Hl).
  unfold blocks_getitem. destruct (section_of_height y cy Hy) as [-> ->].
  rewrite (get_sub_chunk_elem b cy a) by done. cbn.
  by rewrite array_getitem_lookup, Hl.
Qed.

Lemma holds_functional (b : Blocks) (cy : Z) (x y z i j : nat) :
  NoDup b.*1 → holds b cy x y z i → holds b cy x y z j → i = j.
Proof.
  intros Hnd (a1 & Ha1 & H1) (a2 & Ha2 & H2).
  assert (a1 = a2) as -> by by eapply NoDup_fst_functional. congruence.
Qed.

(** ** The resolver *)




(** ** Rewriting the block array *)

Lemma zip_with_fmap_same {A B} (f : A → B → B) (g : A → B) (l : list A) :
  zip_with f l (g <$> l) = (λ a, f a (g a)) <$> l.
Proof. induction l as [|a l IH]; [done|]. cbn. by rewrite IH. Qed.

Lemma assign_where_map_cells (a : SubChunk) (g : nat → nat) (old new : nat) :
  assign_where a (map_cells g a) old new =
    map_cells (λ c, if decide (c = old) then new else g c) a.
Proof.
  unfold assign_where, map_cells.
  induction a as [|plane a IH]; [done|]. cbn. f_equal; [|done]. clear IH.
  induction plane as [|row plane IH]; [done|]. cbn. f_equal; [|done].
  apply zip_with_fmap_same.
Qed.

Lemma rewrite_sub_chunk_map_cells (pm : gmap nat nat) (a : SubChunk) :
  rewrite_sub_chunk pm a = map_cells (λ c, default 0 (pm !! c)) a.
Proof.
  unfold rewrite_sub_chunk.
  apply (map_fold_weak_ind (λ r m, r = map_cells (λ c, default 0 (m !! c)) a)).
  - unfold zeros_like. done.
  - intros old new m r Hnone ->. rewrite assign_where_map_cells.
    unfold map_cells. apply list_fmap_ext. intros _ plane _.
    apply list_fmap_ext. intros _ row _. apply list_fmap_ext. intros _ c _.
    destruct (decide (c = old)) as [->|Hne].
    + by rewrite lookup_insert_eq.
    + by rewrite lookup_insert_ne.
Qed.

Lemma array_lookup_map_cells (g : nat → nat) (a : SubChunk) (x y z : nat) :
  array_lookup (map_cells g a) x y z = g <$> array_lookup a x y z.
Proof.
  unfold array_lookup, map_cells. rewrite list_lookup_fmap.
  destruct (a !! x) as [plane|]; [cbn|done]. rewrite list_lookup_fmap.
  destruct (plane !! y) as [row|]; [cbn|done]. by rewrite list_lookup_fmap.
Qed.

Lemma array_setitem_spec (a a' : SubChunk) (x y z : Z) (v : nat) :
  array_setitem a x y z v = Ok a' →
  ∃ nx ny nz : nat,
    x = Z.of_nat nx ∧ y = Z.of_nat ny ∧ z = Z.of_nat nz ∧
    is_Some (array_lookup a nx ny nz) ∧
    (∀ x' y' z',
       array_lookup a' x' y' z' =
         if decide ((x', y', z') = (nx, ny, nz)) then Some v else array_lookup a x' y' z') ∧
    (Forall (λ plane : list (list nat), length plane ≤ 16) a →
     Forall (λ plane : list (list nat), length plane ≤ 16) a').
Proof.
  unfold array_setitem, array_getitem.
  destruct (decide (0 ≤ x ∧ 0 ≤ y ∧ 0 ≤ z)%Z) as [(Hx & Hy & Hz)|]; [|done].
  destruct (array_lookup a _ _ _) as [old|] eqn:Hold; [|done].
  cbn. intros [= <-].
  exists (Z.to_nat x), (Z.to_nat y), (Z.to_nat z).
  split_and!; [lia|lia|lia|done| |].
  - set (nx := Z.to_nat x) in *. set (ny := Z.to_nat y) in *. set (nz := Z.to_nat z) in *.
    apply array_lookup_Some in Hold as (plane & row & Hpx & Hpy & Hpz).
    intros x' y' z'. unfold array_lookup.
    destruct (decide (x' = nx)) as [->|Hnx].
    + rewrite list_lookup_alter_eq, Hpx. cbn.
      destruct (decide (y' = ny)) as [->|Hny].
      * rewrite list_lookup_alter_eq, Hpy. cbn.
        destruct (decide (z' = nz)) as [->|Hnz].
        -- rewrite decide_True by done. apply list_lookup_insert_eq.
           by apply lookup_lt_Some in Hpz.
        -- rewrite decide_False by congruence. by rewrite list_lookup_insert_ne.
      * rewrite decide_False by congruence. by rewrite list_lookup_alter_ne.
    + rewrite decide_False by congruence. by rewrite list_lookup_alter_ne.
  - intros Hlen. apply Forall_lookup. intros k plane Hk.
    destruct (decide (k = Z.to_nat x)) as [->|Hne].
    + rewrite list_lookup_alter_eq in Hk.
      destruct (a !! Z.to_nat x) as [plane0|] eqn:Hp; [|done]. cbn in Hk.
      injection Hk as <-. rewrite length_alter.
      by eapply (Forall_lookup_1 _ _ _ _ Hlen).
    + rewrite list_lookup_alter_ne in Hk by done.
      by eapply (Forall_lookup_1 _ _ _ _ Hlen).
Qed.

Lemma add_sub_chunk_elem (b : Blocks) (cy : Z) (a a' : SubChunk) :
  NoDup b.*1 → (cy, a) ∈ b →
  (add_sub_chunk b cy a').*1 = b.*1 ∧
  ∀ cy' a'', (cy', a'') ∈ add_sub_chunk b cy a' ↔
             (cy' = cy ∧ a'' = a') ∨ (cy' ≠ cy ∧ (cy', a'') ∈ b).
Proof.
  induction b as [|[cy0 a0] b IH]; intros Hnd Hin; [by apply elem_of_nil in Hin|].
  cbn in Hnd. apply NoDup_cons in Hnd as [Hk Hnd]. cbn.
  destruct (decide (cy0 = cy)) as [->|Hne].
  - split; [done|]. intros cy' a''. rewrite !elem_of_cons. split.
    + intros [[= -> ->]|Hin']; [by left|]. right. split; [|by right].
      intros ->. apply Hk. apply list_elem_of_fmap. by exists (cy, a'').
    + intros [[-> ->]|[Hne [[= -> ->]|Hin']]]; [by left|done|by right].
  - apply elem_of_cons in Hin as [[= -> ->]|Hin]; [done|].
    destruct (IH Hnd Hin) as [Hkeys Helem]. split; [cbn; by rewrite Hkeys|].
    intros cy' a''. rewrite !elem_of_cons, Helem. split.
    + intros [[= -> ->]|[[-> ->]|[Hne' Hin']]]; [right; split; [done|by left]|by left|].
      right. split; [done|by right].
    + intros [[-> ->]|[Hne' [[= -> ->]|Hin']]]; [right; by left|by left|].
      right. right. done.
Qed.

Lemma blocks_setitem_spec (b b' : Blocks) (x y z : Z) (v : nat) :
  wf_blocks b → blocks_setitem b x y z v = Ok b' →
  wf_blocks b' ∧
  ∃ (cy : Z) (nx ny nz : nat),
    x = Z.of_nat nx ∧ y = (Z.of_nat ny + cy * 16)%Z ∧ z = Z.of_nat nz ∧ ny < 16 ∧
    ∀ cy' x' y' z' v',
      holds b' cy' x' y' z' v' ↔
      if decide ((cy', x', y', z') = (cy, nx, ny, nz)) then v' = v
      else holds b cy' x' y' z' v'.
Proof.
  intros [Hnd Hlen] Hset. unfold blocks_setitem in Hset.
  destruct (get_sub_chunk b (y `div` 16)) as [a|] eqn:Ha; [cbn in Hset|done].
  destruct (array_setitem a x (y `mod` 16) z v) as [a'|] eqn:Ha'; [cbn in Hset|done].
  injection Hset as <-.
  apply get_sub_chunk_Ok in Ha.
  apply array_setitem_spec in Ha' as (nx & ny & nz & -> & Hy & -> & Hsome & Hlook & Hlen').
  destruct (add_sub_chunk_elem b (y `div` 16) a a' Hnd Ha) as [Hkeys Helem].
  pose proof (Z.mod_pos_bound y 16 ltac:(lia)) as Hbound.
  pose proof (Z.div_mod y 16 ltac:(lia)) as Hdm.
  split.
  - split; [by rewrite Hkeys|]. apply Forall_forall. intros [cy' a''] Hin. cbn.
    apply Helem in Hin as [[-> ->]|[_ Hin]].
    + apply Hlen'. rewrite Forall_forall in Hlen. by apply (Hlen _ Ha).
    + rewrite Forall_forall in Hlen. by apply (Hlen _ Hin).
  - exists (y `div` 16)%Z, nx, ny, nz. split_and!; [done|lia|done|lia|].
    intros cy' x' y' z' v'. unfold holds. split.
    + intros (a'' & Hin & Hl). apply Helem in Hin as [[-> ->]|[Hne Hin]].
      * rewrite Hlook in Hl. destruct (decide ((x', y', z') = (nx, ny, nz))) as [[= -> -> ->]|Hne].
        -- rewrite decide_True by done. congruence.
        -- rewrite decide_False by congruence. eauto.
      * rewrite decide_False by congruence. eauto.
    + destruct (decide ((cy', x', y', z') = _)) as [[= -> -> -> ->]|Hne].
      * intros ->. exists a'. split; [apply Helem; by left|].
        rewrite Hlook. by rewrite decide_True.
      * intros (a'' & Hin & Hl). destruct (decide (cy' = (y `div` 16)%Z)) as [->|Hcy].
        -- assert (a'' = a) as -> by by eapply NoDup_fst_functional.
           exists a'. split; [apply Helem; by left|].
           rewrite Hlook. rewrite decide_False by congruence. done.
        -- exists a''. split; [|done]. apply Helem. by right.
Qed.

(** Storing the per-position mappings: every one of them has to be an
    index, and each overwrites the one cell of its position. *)
Lemma fold_store_spec (l : list (Z * Z * Z * MappingValue)) (b b' : Blocks) :
  wf_blocks b → NoDup l.*1 →
  fold_result store_mapping b l = Ok b' →
  wf_blocks b' ∧
  (∀ p v, (p, v) ∈ l → ∃ k, v = MIndex k) ∧
  ∀ cy (x y z : nat) v0,
    holds b cy x y z v0 →
    (∀ k, ((Z.of_nat x, Z.of_nat y + cy * 16, Z.of_nat z)%Z, MIndex k) ∈ l →
          holds b' cy x y z k) ∧
    ((Z.of_nat x, Z.of_nat y + cy * 16, Z.of_nat z)%Z ∉ l.*1 → holds b' cy x y z v0).
Proof.
  revert b. induction l as [|[p v] l IH]; intros b Hwf Hnd Hfold.
  - cbn in Hfold. injection Hfold as <-. split_and!; [done| |].
    + intros p v Hin. by apply elem_of_nil in Hin.
    + intros cy x y z v0 Hh. split; [|done]. intros k Hin. by apply elem_of_nil in Hin.
  - cbn in Hnd. apply NoDup_cons in Hnd as [Hp Hnd].
    cbn [fold_result] in Hfold.
    destruct (store_mapping b (p, v)) as [b1|] eqn:Hstore; [cbn in Hfold|done].
    destruct p as [[px py] pz]. cbn in Hstore.
    destruct v as [k0|blk];
      [|by destruct (blocks_getitem b px py pz)].
    destruct (blocks_setitem_spec b b1 px py pz k0 Hwf Hstore)
      as (Hwf1 & cy0 & nx & ny & nz & -> & -> & -> & Hny & Hcell).
    destruct (IH b1 Hwf1 Hnd Hfold) as (Hwf' & Hvals & Hcells).
    split_and!; [done| |].
    + intros p v [[= -> ->]|Hin]%elem_of_cons; [by eexists|by eapply Hvals].
    + intros cy x y z v0 Hh.
      pose proof (holds_height_blocks b cy x y z v0 Hwf Hh) as Hy.
      destruct (decide ((cy, x, y, z) = (cy0, nx, ny, nz))) as [[= -> -> -> ->]|Hne].
      * assert (holds b1 cy0 nx ny nz k0) as Hh1
          by (apply Hcell; by rewrite decide_True).
        destruct (Hcells _ _ _ _ _ Hh1) as [_ Hkeep]. split.
        -- intros k [[= <-]|Hin]%elem_of_cons; [by apply Hkeep|].
           destruct Hp. apply list_elem_of_fmap. by eexists (_, _).
        -- intros Hnin. destruct Hnin. cbn. by left.
      * assert (holds b1 cy x y z v0) as Hh1
          by (apply Hcell; by rewrite decide_False).
        assert ((Z.of_nat x, Z.of_nat y + cy * 16, Z.of_nat z)%Z ≠
                (Z.of_nat nx, Z.of_nat ny + cy0 * 16, Z.of_nat nz)%Z) as Hpne.
        { intros [= Hx Hy' Hz]. apply Hne.
          assert (cy = cy0) as -> by lia.
          repeat f_equal; lia. }
        destruct (Hcells _ _ _ _ _ Hh1) as [Hidx Hkeep]. split.
        -- intros k [Heq|Hin]%elem_of_cons; [|by apply Hidx]. destruct Hpne. congruence.
        -- intros Hnin. apply Hkeep. intros Hin. apply Hnin. cbn. by right.
Qed.

Lemma holds_fmap (g : SubChunk → SubChunk) (b : Blocks) (cy : Z) (x y z v : nat) :
  holds ((λ '(cy, a), (cy, g a)) <$> b) cy x y z v ↔
  ∃ a, (cy, a) ∈ b ∧ array_lookup (g a) x y z = Some v.
Proof.
  unfold holds. split.
  - intros (a' & Hin & Hl). apply list_elem_of_fmap in Hin as ([cy' a] & [= -> ->] & Hin). eauto.
  - intros (a & Hin & Hl). exists (g a). split; [|done].
    apply list_elem_of_fmap. by exists (cy, a).
Qed.

Lemma wf_blocks_rewrite (pm : gmap nat nat) (b : Blocks) :
  wf_blocks b →
  wf_blocks ((λ '(cy, old_blocks), (cy, rewrite_sub_chunk pm old_blocks)) <$> b).
Proof.
  intros [Hnd Hlen]. split.
  - rewrite <- list_fmap_compose.
    rewrite (list_fmap_ext _ fst b); [done|]. by intros _ [cy a] _.
  - apply Forall_fmap. eapply Forall_impl; [exact Hlen|].
    intros [cy a] Ha. cbn in *. rewrite rewrite_sub_chunk_map_cells. unfold map_cells.
    apply Forall_fmap. eapply Forall_impl; [exact Ha|].
    intros plane Hp. cbn. by rewrite length_fmap.
Qed.

(** The chunk [_translate] leaves: the cell of a position that has a
    per-position mapping holds it, any other cell holds what
    [palette_mappings] has for its old index, or 0. *)
Lemma commit_spec (chunk chunk' : Chunk) (st : TranslateState) :
  wf_blocks (blocks chunk) → commit chunk st = Ok chunk' →
  wf_blocks (blocks chunk') ∧
  cx chunk' = cx chunk ∧ cz chunk' = cz chunk ∧
  block_entities chunk' = output_block_entities st ∧
  entities chunk' = output_entities st ∧
  (∀ p v, block_mappings st !! p = Some v → ∃ k, v = MIndex k) ∧
  ∀ cy (x y z : nat) c,
    holds (blocks chunk) cy x y z c →
    holds (blocks chunk') cy x y z
      match block_mappings st !! (Z.of_nat x, Z.of_nat y + cy * 16, Z.of_nat z)%Z with
      | Some (MIndex k) => k
      | _ => default 0 (palette_mappings st !! c)
      end.
Proof.
  intros Hwf Hcommit. unfold commit in Hcommit.
  destruct (fold_result _ _ _) as [b|] eqn:Hfold; [cbn in Hcommit|done].
  injection Hcommit as <-. cbn.
  apply fold_store_spec in Hfold as (Hwf' & Hvals & Hcells);
    [|by apply wf_blocks_rewrite|apply NoDup_fst_map_to_list].
  split_and!; [done..| |].
  - intros p v Hp. apply (Hvals p v). by apply elem_of_map_to_list.
  - intros cy x y z c (a & Ha & Hl).
    assert (holds ((λ '(cy, old_blocks), (cy, rewrite_sub_chunk (palette_mappings st) old_blocks))
                     <$> blocks chunk) cy x y z (default 0 (palette_mappings st !! c))) as Hh.
    { apply holds_fmap. exists a. split; [done|].
      by rewrite rewrite_sub_chunk_map_cells, array_lookup_map_cells, Hl. }
    destruct (Hcells _ _ _ _ _ Hh) as [Hidx Hkeep].
    destruct (block_mappings st !! _) as [v|] eqn:Hbm.
    + destruct (Hvals (Z.of_nat x, Z.of_nat y + cy * 16, Z.of_nat z)%Z v) as [k ->];
        [by apply elem_of_map_to_list|].
      apply Hidx. by apply elem_of_map_to_list.
    + apply Hkeep. intros Hin. apply list_elem_of_fmap in Hin as ([p v] & Heq & Hin).
      cbn in Heq. subst p. apply elem_of_map_to_list in Hin. congruence.
Qed.

(** ** The first pass *)

(** C7: when the translation of the index [i] is not deferred and yields a
    block with a block entity, the step of the first pass appends copies of
    that block entity: one at the absolute position
    [(x + 16 cx, y + 16 cy, z + 16 cz)] of every cell [(x, y, z)] of every
    section [cy] that holds [i], no two at the same position, and no
    other. *)
Theorem C7_block_entity_per_occurrence (entity_support : bool) (chunk : Chunk)
    (get_chunk_callback : option GetChunkCallback) (translate_block : TranslateBlockCallback)
    (st : TranslateState) (i : nat) (input_block : PaletteEntry)
    (output_block : Block) (output_block_entity : BlockEntity)
    (output_entity : list Entity) (extra : bool) :
  translate_block input_block None =
    Ok (Some output_block, Some output_block_entity, output_entity, extra) →
  extra && bool_decide (is_Some get_chunk_callback) = false →
  wf_blocks (blocks chunk) →
  ∃ st' created,
    phase1_step entity_support chunk get_chunk_callback translate_block st (i, input_block) =
      ([TranslateBlock input_block None], Ok st') ∧
    output_block_entities st' = output_block_entities st ++ created ∧
    NoDup (be_location <$> created) ∧
    ∀ e, e ∈ created ↔
      ∃ (cy : Z) (x y z : nat),
        holds (blocks chunk) cy x y z i ∧
        e = new_at_location output_block_entity
              (Z.of_nat x + cx chunk * 16) (Z.of_nat y + cy * 16) (Z.of_nat z + cz chunk * 16).
Proof.
  intros Htb Hnot Hwf.
  set (place := λ o : Z * (Z * Z * Z),
         let '(cy, (x, y, z)) := o in
         new_at_location output_block_entity
           (x + cx chunk * 16) (y + cy * 16) (z + cz chunk * 16)).
  eexists _, (place <$> occurrences chunk i).
  split; [|split; [|split]].
  - unfold phase1_step. rewrite Htb. cbn. rewrite Hnot. reflexivity.
  - destruct (get_add_block (finished st) output_block) as [new finished'].
    destruct (nonempty output_entity && entity_support); reflexivity.
  - rewrite <- list_fmap_compose. apply NoDup_fmap_2_strong.
    + intros o1 o2 H1 H2 Heq. apply (absolute_position_inj chunk i); [done..|].
      destruct o1 as [cy1 [[x1 y1] z1]], o2 as [cy2 [[x2 y2] z2]]. exact Heq.
    + apply occurrences_NoDup, Hwf.
  - intros e. rewrite list_elem_of_fmap. split.
    + intros ([cy pos] & -> & Ho). apply occurrences_elem in Ho as (x & y & z & -> & Ho).
      by exists cy, x, y, z.
    + intros (cy & x & y & z & Ho & ->).
      exists (cy, (Z.of_nat x, Z.of_nat y, Z.of_nat z)). split; [done|].
      apply occurrences_elem. eauto.
Qed.

(** ** The block palette manager *)

Lemma get_add_block_present (m : BlockManager) (b : Block) :
  b ∈ m →
  ∃ k, get_add_block m b = (k, m) ∧ m !! k = Some b ∧ ∀ j, j < k → m !! j ≠ Some b.
Proof.
  intros Hin. unfold get_add_block.
  destruct (list_find_elem_of (λ b', b' = b) m b Hin eq_refl) as [[k b'] Hfind].
  rewrite Hfind. apply list_find_Some in Hfind as (Hk & -> & Hfirst).
  exists k. split_and!; [done..|]. intros j Hj Hjb. by apply (Hfirst j b).
Qed.

Lemma get_add_block_absent (m : BlockManager) (b : Block) :
  b ∉ m → get_add_block m b = (length m, m ++ [b]).
Proof.
  intros Hnin. unfold get_add_block.
  destruct (list_find (λ b', b' = b) m) as [[k b']|] eqn:Hfind; [|done].
  apply list_find_Some in Hfind as (Hk & -> & _).
  destruct Hnin. by eapply list_elem_of_lookup_2.
Qed.

Lemma get_add_block_spec (m m' : BlockManager) (b : Block) (k : nat) :
  get_add_block m b = (k, m') →
  m' !! k = Some b ∧ (∃ tail, m' = m ++ tail) ∧ (NoDup m → NoDup m') ∧
  (∀ b', b' ∈ m' → b' ∈ m ∨ b' = b).
Proof.
  destruct (decide (b ∈ m)) as [Hin|Hnin].
  - destruct (get_add_block_present m b Hin) as (k' & -> & Hk & _).
    intros [= <- <-]. split_and!; [done| |done|auto].
    exists []. by rewrite app_nil_r.
  - rewrite get_add_block_absent by done. intros [= <- <-]. split_and!.
    + by apply list_lookup_middle.
    + by eexists.
    + intros Hnd. apply NoDup_app. split_and!; [done| |apply NoDup_singleton].
      intros b' Hb' ->%list_elem_of_singleton. done.
    + intros b' [Hb'|Hb'%list_elem_of_singleton]%elem_of_app; auto.
Qed.

(** ** Loops *)

Lemma foldM_cons_ok {A B} (f : B → A → Traced B) (b : B) (a : A) (l : list A) calls b' :
  foldM f b (a :: l) = (calls, Ok b') →
  ∃ calls1 b1 calls2,
    f b a = (calls1, Ok b1) ∧ foldM f b1 l = (calls2, Ok b') ∧ calls = calls1 ++ calls2.
Proof. cbn [foldM]. apply traced_bind_ok. Qed.

(** A loop whose steps all keep an invariant [P] of the part of the
    sequence gone through keeps it. *)
Lemma foldM_invariant {A B} (f : B → A → Traced B) (P : list A → B → list Call → Prop)
    (l : list A) (b : B) calls b' :
  P [] b [] →
  (∀ pre a b calls b1 calls1,
     P pre b calls → f b a = (calls1, Ok b1) → (∃ suf, l = pre ++ a :: suf) →
     P (pre ++ [a]) b1 (calls ++ calls1)) →
  foldM f b l = (calls, Ok b') →
  P l b' calls.
Proof.
  intros H0 Hstep.
  assert (∀ suf pre b0 calls0 calls1,
    l = pre ++ suf → P pre b0 calls0 → foldM f b0 suf = (calls1, Ok b') →
    P l b' (calls0 ++ calls1)) as Hgen.
  { induction suf as [|a suf IH]; intros pre b0 calls0 calls1 Hl HP Hfold.
    - cbn in Hfold. injection Hfold as <- <-. rewrite !app_nil_r in *. by subst.
    - apply foldM_cons_ok in Hfold as (c1 & b1 & c2 & Hf & Hfold & ->).
      rewrite app_assoc. eapply (IH (pre ++ [a])); [by rewrite <- app_assoc| |done].
      eapply Hstep; eauto. }
  intros Hfold. apply (Hgen l [] b [] calls); done.
Qed.

Lemma enumerate_lookup {A} (l : list A) (k : nat) :
  enumerate l !! k = (λ a, (k, a)) <$> l !! k.
Proof. unfold enumerate. apply list_lookup_imap. Qed.

Lemma enumerate_snd {A} (l : list A) : (enumerate l).*2 = l.
Proof.
  apply list_eq. intros k. rewrite list_lookup_fmap, enumerate_lookup.
  by destruct (l !! k).
Qed.

Lemma enumerate_split {A} (l : list A) pre (i : nat) (a : A) suf :
  enumerate l = pre ++ (i, a) :: suf → i = length pre ∧ l = pre.*2 ++ a :: suf.*2.
Proof.
  intros H. split.
  - assert (enumerate l !! length pre = Some (i, a)) as Hl
      by (rewrite H; apply list_lookup_middle; done).
    rewrite enumerate_lookup in Hl. destruct (l !! length pre); by simplify_eq/=.
  - rewrite <- (enumerate_snd l), H, fmap_app. reflexivity.
Qed.

Section Passes.
Context (entity_support : bool) (chunk : Chunk) (palette : list PaletteEntry).
Context (get_chunk_callback : option GetChunkCallback).
Context (translate_block : TranslateBlockCallback).
Context (translate_entity : TranslateEntityCallback).

(** What a step of the first pass does to [todo], [finished] and the two
    mappings. *)
Lemma phase1_step_fields (st st' : TranslateState) (i : nat) (e : PaletteEntry) calls :
  phase1_step entity_support chunk get_chunk_callback translate_block st (i, e) = (calls, Ok st') →
  ∃ ob obe oe extra,
    translate_block e None = Ok (ob, obe, oe, extra) ∧
    calls = [TranslateBlock e None] ∧
    block_mappings st' = block_mappings st ∧
    if extra && bool_decide (is_Some get_chunk_callback) then
      todo st' = todo st ++ [i] ∧ finished st' = finished st ∧
      palette_mappings st' = palette_mappings st
    else
      todo st' = todo st ∧
      match ob with
      | Some b =>
          finished st' = (get_add_block (finished st) b).2 ∧
          palette_mappings st' = <[i := (get_add_block (finished st) b).1]> (palette_mappings st)
      | None => finished st' = finished st ∧ palette_mappings st' = palette_mappings st
      end.
Proof.
  unfold phase1_step.
  destruct (translate_block e None) as [[[[ob obe] oe] extra]|] eqn:Htb; [|done].
  cbn. intros [= <- <-]. exists ob, obe, oe, extra. split_and!; [done..| |].
  - destruct (extra && _); [by destruct (nonempty oe && entity_support)|].
    destruct ob as [b|]; [|by destruct (nonempty oe && entity_support)].
    destruct (get_add_block (finished st) b). by destruct (nonempty oe && entity_support).
  - destruct (extra && _); [by destruct (nonempty oe && entity_support)|].
    destruct ob as [b|]; [|by destruct (nonempty oe && entity_support)].
    destruct (get_add_block (finished st) b). by destruct (nonempty oe && entity_support).
Qed.

Lemma phase1_step_ok (st : TranslateState) (i : nat) (e : PaletteEntry) r :
  translate_block e None = Ok r →
  ∃ st', phase1_step entity_support chunk get_chunk_callback translate_block st (i, e) =
           ([TranslateBlock e None], Ok st').
Proof.
  intros Htb. unfold phase1_step. rewrite Htb. destruct r as [[[ob obe] oe] extra].
  cbn. eauto.
Qed.

Lemma phase1_step_inv (pre : list PaletteEntry) (st st' : TranslateState) (e : PaletteEntry) calls :
  phase1_inv get_chunk_callback translate_block pre st →
  phase1_step entity_support chunk get_chunk_callback translate_block st (length pre, e) =
    (calls, Ok st') →
  phase1_inv get_chunk_callback translate_block (pre ++ [e]) st'.
Proof.
  intros (Hfin & Htodo & Hbm & Hdom & Hpre & Himg) Hstep.
  apply phase1_step_fields in Hstep as (ob & obe & oe & extra & Htb & _ & Hbm' & Hcase).
  unfold phase1_inv. rewrite length_app. cbn [length].
  assert (∀ j e', (pre ++ [e]) !! j = Some e' →
            pre !! j = Some e' ∧ j < length pre ∨ j = length pre ∧ e' = e) as Hsplit.
  { intros j e' Hj. apply lookup_app_Some in Hj as [Hj|[Hge Hj]].
    - left. split; [done|]. by apply lookup_lt_Some in Hj.
    - right. apply list_lookup_singleton_Some in Hj as [? ->]. split; [lia|done]. }
  destruct (extra && bool_decide (is_Some get_chunk_callback)) eqn:Hdef.
  - destruct Hcase as (-> & -> & ->). split_and!; [done| |congruence| | |].
    + apply NoDup_app. split_and!; [done| |apply NoDup_singleton].
      intros j Hj ->%list_elem_of_singleton.
      specialize (Hdom (length pre) (or_intror Hj)). lia.
    + intros j [Hj|[Hj| ->%list_elem_of_singleton]%elem_of_app]; [| |lia].
      * specialize (Hdom j (or_introl Hj)). lia.
      * specialize (Hdom j (or_intror Hj)). lia.
    + intros j e' Hj. apply Hsplit in Hj as [[Hj Hlt]|[-> ->]].
      * destruct (Hpre j e' Hj) as (ob' & obe' & oe' & extra' & Htb' & Hc).
        exists ob', obe', oe', extra'. split; [done|].
        destruct (extra' && _).
        -- destruct Hc. split; [in_app_left|done].
        -- destruct Hc as [Hnin Hc]. split; [|done].
           intros [?| ->%list_elem_of_singleton]%elem_of_app; [done|lia].
      * exists ob, obe, oe, extra. split; [done|]. rewrite Hdef. split; [in_app_last|].
        destruct (palette_mappings st !! length pre) eqn:Hl; [|done].
        specialize (Hdom (length pre) (or_introl (mk_is_Some _ _ Hl))). lia.
    + intros b Hb. destruct (Himg b Hb) as (e' & obe' & oe' & extra' & He' & H').
      exists e', obe', oe', extra'. split; [in_app_left|done].
  - destruct Hcase as [-> Hcase]. destruct ob as [b|].
    + destruct (get_add_block (finished st) b) as [k fin'] eqn:Hadd.
      destruct Hcase as [-> ->]. cbn [fst snd].
      apply get_add_block_spec in Hadd as (Hk & [tail ->] & Hnd & Hsub).
      split_and!; [by apply Hnd|done|congruence| | |].
      * intros j [Hj|Hj].
        -- destruct (decide (j = length pre)) as [->|Hne]; [lia|].
           rewrite lookup_insert_ne in Hj by done. specialize (Hdom j (or_introl Hj)). lia.
        -- specialize (Hdom j (or_intror Hj)). lia.
      * intros j e' Hj. apply Hsplit in Hj as [[Hj Hlt]|[-> ->]].
        -- destruct (Hpre j e' Hj) as (ob' & obe' & oe' & extra' & Htb' & Hc).
           exists ob', obe', oe', extra'. split; [done|].
           rewrite lookup_insert_ne by lia.
           destruct (extra' && _); [done|]. destruct Hc as [Hnin Hc]. split; [done|].
           destruct ob' as [b'|]; [|done]. destruct Hc as (k' & Hk' & Hfk').
           exists k'. split; [done|]. by apply lookup_app_l_Some.
        -- exists (Some b), obe, oe, extra. split; [done|]. rewrite Hdef. split.
           ++ intros Hj. specialize (Hdom (length pre) (or_intror Hj)). lia.
           ++ exists k. by rewrite lookup_insert_eq.
      * intros b' Hb'. destruct (Hsub b' Hb') as [Hold| ->].
        -- destruct (Himg b' Hold) as (e' & obe' & oe' & extra' & He' & H').
           exists e', obe', oe', extra'. split; [in_app_left|done].
        -- exists e, obe, oe, extra. split; [in_app_last|done].
    + destruct Hcase as [-> ->]. split_and!; [done|done|congruence| | |].
      * intros j Hj. specialize (Hdom j Hj). lia.
      * intros j e' Hj. apply Hsplit in Hj as [[Hj Hlt]|[-> ->]].
        -- by apply Hpre.
        -- exists None, obe, oe, extra. split; [done|]. rewrite Hdef. split.
           ++ intros Hj. specialize (Hdom (length pre) (or_intror Hj)). lia.
           ++ destruct (palette_mappings st !! length pre) eqn:Hl; [|done].
              specialize (Hdom (length pre) (or_introl (mk_is_Some _ _ Hl))). lia.
      * intros b Hb. destruct (Himg b Hb) as (e' & obe' & oe' & extra' & He' & H').
        exists e', obe', oe', extra'. split; [in_app_left|done].
Qed.

Lemma phase1_inv_initial :
  phase1_inv get_chunk_callback translate_block [] initial_state.
Proof.
  unfold phase1_inv, initial_state. cbn. split_and!; [constructor|constructor|done|..].
  - intros i [[k Hk]|Hi]; [by rewrite lookup_empty in Hk|by apply elem_of_nil in Hi].
  - intros i e Hi. by rewrite lookup_nil in Hi.
  - intros b Hb. by apply elem_of_nil in Hb.
Qed.

(** The first pass calls the callback once for each entry of the palette,
    with no resolver, and leaves a state that satisfies [phase1_inv] for
    the whole palette. *)
Lemma phase1_spec (st : TranslateState) calls :
  foldM (phase1_step entity_support chunk get_chunk_callback translate_block)
    initial_state (enumerate palette) = (calls, Ok st) →
  phase1_inv get_chunk_callback translate_block palette st ∧
  calls = (λ e, TranslateBlock e None) <$> palette.
Proof.
  intros Hfold.
  apply (foldM_invariant _
    (λ pre st calls,
       phase1_inv get_chunk_callback translate_block pre.*2 st ∧
       calls = (λ e, TranslateBlock e None) <$> pre.*2)) in Hfold.
  - by rewrite enumerate_snd in Hfold.
  - split; [apply phase1_inv_initial|done].
  - intros pre [i e] st0 calls0 st1 calls1 [Hinv ->] Hstep [suf Hsuf].
    apply enumerate_split in Hsuf as [-> _].
    rewrite !fmap_app. cbn. split.
    + eapply phase1_step_inv; [done|]. by rewrite length_fmap.
    + apply phase1_step_fields in Hstep as (? & ? & ? & ? & _ & -> & _). done.
Qed.

(** *** The second pass *)

Lemma phase2_schedule_elem (todo : list nat) (job : nat * (Z * (Z * Z * Z))) :
  job ∈ phase2_schedule chunk todo ↔ job.1 ∈ todo ∧ job.2 ∈ occurrences chunk job.1.
Proof.
  unfold phase2_schedule. rewrite list_elem_of_bind. destruct job as [index occ]. cbn. split.
  - intros (index' & H & Hin). apply list_elem_of_bind in H as (occ' & H & Hocc).
    apply list_elem_of_singleton in H as [= -> ->]. done.
  - intros [Hin Hocc]. exists index. split; [|done].
    apply list_elem_of_bind. exists occ. split; [by apply list_elem_of_singleton|done].
Qed.

Lemma phase2_schedule_holds (todo : list nat) (job : nat * (Z * (Z * Z * Z))) :
  job ∈ phase2_schedule chunk todo →
  ∃ x y z : nat,
    job.2.2 = (Z.of_nat x, Z.of_nat y, Z.of_nat z) ∧ holds (blocks chunk) job.2.1 x y z job.1.
Proof.
  intros [_ Hocc]%phase2_schedule_elem. destruct job as [index [cy pos]].
  by apply occurrences_elem in Hocc.
Qed.

Lemma phase2_schedule_NoDup (todo : list nat) :
  wf_blocks (blocks chunk) → NoDup todo →
  NoDup (job_position <$> phase2_schedule chunk todo).
Proof.
  intros Hwf Htodo. apply NoDup_fmap_2_strong.
  - intros job1 job2 H1 H2 Hpos.
    destruct (phase2_schedule_holds _ _ H1) as (x1 & y1 & z1 & Hp1 & Hh1).
    destruct (phase2_schedule_holds _ _ H2) as (x2 & y2 & z2 & Hp2 & Hh2).
    destruct job1 as [i1 [cy1 pos1]], job2 as [i2 [cy2 pos2]]. cbn in *. subst.
    pose proof (holds_height_blocks _ _ _ _ _ _ Hwf Hh1).
    pose proof (holds_height_blocks _ _ _ _ _ _ Hwf Hh2).
    injection Hpos as Hx Hy Hz.
    assert (cy1 = cy2) as -> by lia.
    assert (x1 = x2) as -> by lia. assert (y1 = y2) as -> by lia.
    assert (z1 = z2) as -> by lia.
    f_equal. eapply holds_functional; [apply Hwf|done..].
  - unfold phase2_schedule. apply NoDup_bind; [|intros index _|done].
    + intros i1 i2 job _ _ H1 H2.
      apply list_elem_of_bind in H1 as (? & ->%list_elem_of_singleton & _).
      apply list_elem_of_bind in H2 as (? & [= -> _]%list_elem_of_singleton & _). done.
    + apply NoDup_bind; [|intros; apply NoDup_singleton|apply occurrences_NoDup, Hwf].
      intros o1 o2 job _ _ ->%list_elem_of_singleton [= ->]%list_elem_of_singleton. done.
Qed.

(** What a step of the second pass does. *)
Lemma phase2_step_fields (st st' : TranslateState) (index : nat) (cy x y z : Z) calls :
  phase2_step entity_support chunk palette get_chunk_callback translate_block st
    (index, (cy, (x, y, z))) = (calls, Ok st') →
  ∃ c e ob obe oe extra,
    blocks_getitem (blocks chunk) x (y + cy * 16) z = Ok c ∧
    palette !! c = Some e ∧
    translate_block e
      (Some (get_block_at chunk palette get_chunk_callback x (y + cy * 16) z)) =
      Ok (ob, obe, oe, extra) ∧
    calls = [TranslateBlock e (Some (x, y + cy * 16, z)%Z)] ∧
    todo st' = todo st ∧ palette_mappings st' = palette_mappings st ∧
    match ob with
    | Some b =>
        finished st' = (get_add_block (finished st) b).2 ∧
        block_mappings st' =
          <[(x, y + cy * 16, z)%Z := MIndex (get_add_block (finished st) b).1]>
            (block_mappings st)
    | None => finished st' = finished st ∧ block_mappings st' = block_mappings st
    end.
Proof.
  unfold phase2_step.
  destruct (blocks_getitem (blocks chunk) x (y + cy * 16) z) as [c|] eqn:Hc;
    cbn -[get_block_at]; [|intros ?; simplify_eq].
  unfold palette_getitem. destruct (palette !! c) as [e|] eqn:He;
    cbn -[get_block_at]; [|intros ?; simplify_eq].
  destruct (translate_block e _) as [[[[ob obe] oe] extra]|] eqn:Htb;
    cbn -[get_block_at]; [|intros ?; simplify_eq].
  intros [= <- <-]. exists c, e, ob, obe, oe, extra.
  split_and!; [done..| | |].
  - destruct ob as [b|]; [destruct (get_add_block (finished st) b)|];
      by destruct (nonempty oe && entity_support).
  - destruct ob as [b|]; [destruct (get_add_block (finished st) b)|];
      by destruct (nonempty oe && entity_support).
  - destruct ob as [b|]; [destruct (get_add_block (finished st) b)|];
      by destruct (nonempty oe && entity_support).
Qed.

Lemma phase2_step_inv (st1 st st' : TranslateState)
    (pre suf : list (nat * (Z * (Z * Z * Z)))) (job : nat * (Z * (Z * Z * Z))) calls :
  wf_blocks (blocks chunk) → NoDup (todo st1) →
  phase2_schedule chunk (todo st1) = pre ++ job :: suf →
  phase2_inv chunk palette get_chunk_callback translate_block st1 pre st →
  phase2_step entity_support chunk palette get_chunk_callback translate_block st job =
    (calls, Ok st') →
  phase2_inv chunk palette get_chunk_callback translate_block st1 (pre ++ [job]) st' ∧
  calls = [TranslateBlock (default (PTuple []) (palette !! job.1)) (Some (job_position job))].
Proof.
  intros Hwf Htodo Hsched (Ht & Hpm & Hfin & [tail Htail] & Hkeys & Hjobs) Hstep.
  assert (job ∈ phase2_schedule chunk (todo st1)) as Hjob by (rewrite Hsched; in_app_last).
  assert (∀ job', job' ∈ pre → job_position job' ≠ job_position job) as Hfresh.
  { pose proof (phase2_schedule_NoDup (todo st1) Hwf Htodo) as Hnd.
    rewrite Hsched, fmap_app, fmap_cons in Hnd.
    apply NoDup_app in Hnd as (_ & Hnd & _). intros job' Hin Heq.
    apply (Hnd (job_position job')); [by apply list_elem_of_fmap_2|]. rewrite Heq. by left. }
  destruct (phase2_schedule_holds _ _ Hjob) as (nx & ny & nz & Hpos & Hholds).
  destruct job as [index [cy [[x y] z]]]. cbn in Hpos, Hholds. injection Hpos as -> -> ->.
  apply phase2_step_fields in Hstep
    as (c & e & ob & obe & oe & extra & Hc & He & Htb & -> & Ht' & Hpm' & Hcase).
  rewrite (blocks_getitem_holds _ _ _ _ _ _ Hwf Hholds) in Hc. injection Hc as <-.
  cbn [fst job_position]. rewrite He. split; [|done].
  assert (block_mappings st !! (Z.of_nat nx, Z.of_nat ny + cy * 16, Z.of_nat nz)%Z = None) as Hnone.
  { destruct (block_mappings st !! _) eqn:Hl; [|done].
    destruct (Hkeys _ (mk_is_Some _ _ Hl)) as (job' & Hin & Heq). by destruct (Hfresh job' Hin). }
  unfold phase2_inv. destruct ob as [b|].
  - destruct (get_add_block (finished st) b) as [k fin'] eqn:Hadd.
    destruct Hcase as [Hf' Hbm']. cbn [fst snd] in *.
    apply get_add_block_spec in Hadd as (Hk & [tail' ->] & Hnd & _).
    rewrite Hf', Hbm'. split_and!; [congruence|congruence|by apply Hnd| | |].
    + exists (tail ++ tail'). by rewrite Htail, app_assoc.
    + intros p Hp. destruct (decide (p = (Z.of_nat nx, Z.of_nat ny + cy * 16, Z.of_nat nz)%Z)) as [->|Hne].
      * eexists. split; [apply elem_of_app; right; by left|done].
      * rewrite lookup_insert_ne in Hp by done.
        destruct (Hkeys p Hp) as (job' & Hin & Heq). exists job'. split; [in_app_left|done].
    + intros job' [Hin| ->%list_elem_of_singleton]%elem_of_app.
      * destruct (Hjobs job' Hin) as (e' & ob' & obe' & oe' & extra' & He' & Htb' & Hc').
        exists e', ob', obe', oe', extra'. split_and!; [done..|].
        rewrite lookup_insert_ne by (intros Heq; by destruct (Hfresh job' Hin)).
        destruct ob' as [b'|]; [|done]. destruct Hc' as (k' & Hk' & Hfk').
        exists k'. split; [done|]. by apply lookup_app_l_Some.
      * exists e, (Some b), obe, oe, extra. split_and!; [done..|].
        exists k. cbn [job_position]. by rewrite lookup_insert_eq.
  - destruct Hcase as [Hf' Hbm']. rewrite Hf', Hbm'.
    split_and!; [congruence|congruence|done|by exists tail| |].
    + intros p Hp. destruct (Hkeys p Hp) as (job' & Hin & Heq).
      exists job'. split; [in_app_left|done].
    + intros job' [Hin| ->%list_elem_of_singleton]%elem_of_app; [by apply Hjobs|].
      exists e, None, obe, oe, extra. by split_and!.
Qed.

(** The second pass calls the callback once for each job of its schedule,
    with the resolver bound to the position of the job. *)
Lemma phase2_spec (st1 st2 : TranslateState) calls :
  wf_blocks (blocks chunk) → NoDup (todo st1) → NoDup (finished st1) →
  block_mappings st1 = ∅ →
  foldM (phase2_step entity_support chunk palette get_chunk_callback translate_block)
    st1 (phase2_schedule chunk (todo st1)) = (calls, Ok st2) →
  phase2_inv chunk palette get_chunk_callback translate_block st1
    (phase2_schedule chunk (todo st1)) st2 ∧
  calls =
    (λ job, TranslateBlock (default (PTuple []) (palette !! job.1)) (Some (job_position job)))
      <$> phase2_schedule chunk (todo st1).
Proof.
  intros Hwf Htodo Hfin Hbm Hfold.
  apply (foldM_invariant _
    (λ pre st calls,
       phase2_inv chunk palette get_chunk_callback translate_block st1 pre st ∧
       calls =
         (λ job, TranslateBlock (default (PTuple []) (palette !! job.1))
                   (Some (job_position job))) <$> pre)) in Hfold; [done| |].
  - split; [|done]. unfold phase2_inv. split_and!; [done|done|done| | |].
    + exists []. by rewrite app_nil_r.
    + intros p [v Hp]. by rewrite Hbm, lookup_empty in Hp.
    + intros job Hjob. by apply elem_of_nil in Hjob.
  - intros pre job st0 calls0 st' calls1 [Hinv ->] Hstep [suf Hsuf].
    destruct (phase2_step_inv st1 st0 st' pre suf job calls1) as [Hinv' ->]; [done..|].
    split; [done|]. by rewrite fmap_app.
Qed.

(** *** The entity pass *)

Lemma entity_step_fields (st st' : TranslateState) (entity : Entity) calls :
  entity_step translate_entity st entity = (calls, Ok st') →
  ∃ ob obe oe,
    translate_entity entity = Ok (ob, obe, oe) ∧
    calls = [TranslateEntity entity] ∧
    todo st' = todo st ∧ palette_mappings st' = palette_mappings st ∧
    finished st' = finished st ∧
    match ob with
    | Some b => block_mappings st' = <[floor_location entity := MBlock b]> (block_mappings st)
    | None => block_mappings st' = block_mappings st
    end.
Proof.
  unfold entity_step.
  destruct (translate_entity entity) as [[[ob obe] oe]|] eqn:Hte; cbn;
    [|intros ?; simplify_eq].
  intros [= <- <-]. exists ob, obe, oe. split_and!; [done..| | | |].
  - destruct ob; [by destruct (floor_location entity) as [[??]?]|done].
  - destruct ob; [by destruct (floor_location entity) as [[??]?]|done].
  - destruct ob; [by destruct (floor_location entity) as [[??]?]|done].
  - destruct ob; [by destruct (floor_location entity) as [[??]?]|done].
Qed.

(** The entity pass leaves [todo], [palette_mappings] and [finished] as
    they are, and a per-position mapping it records is a block. *)
Lemma entity_pass_spec (l : list Entity) (st st' : TranslateState) calls :
  foldM (entity_step translate_entity) st l = (calls, Ok st') →
  todo st' = todo st ∧ palette_mappings st' = palette_mappings st ∧
  finished st' = finished st ∧
  calls = TranslateEntity <$> l ∧
  ∀ p, block_mappings st' !! p = block_mappings st !! p ∨
       ∃ b, block_mappings st' !! p = Some (MBlock b).
Proof.
  revert st calls. induction l as [|entity l IH]; intros st calls Hfold.
  - cbn in Hfold. injection Hfold as <- <-. split_and!; auto.
  - apply foldM_cons_ok in Hfold as (c1 & st1 & c2 & Hstep & Hfold & ->).
    apply entity_step_fields in Hstep as (ob & obe & oe & _ & -> & Ht & Hpm & Hfin & Hbm).
    destruct (IH _ _ Hfold) as (Ht' & Hpm' & Hfin' & -> & Hbm').
    split_and!; [congruence..|done|].
    intros p. destruct (Hbm' p) as [Heq|?]; [|by right]. rewrite Heq.
    destruct ob as [b|]; rewrite Hbm; [|by left].
    destruct (decide (floor_location entity = p)) as [->|Hne].
    + right. exists b. by rewrite lookup_insert_eq.
    + left. by rewrite lookup_insert_ne.
Qed.

(** *** The whole translation *)

(** A per-position mapping of the second pass is at a cell whose index was
    deferred. *)
Lemma phase2_keys_deferred (st1 st2 : TranslateState) (cy : Z) (x y z c : nat) :
  wf_blocks (blocks chunk) →
  phase2_inv chunk palette get_chunk_callback translate_block st1
    (phase2_schedule chunk (todo st1)) st2 →
  holds (blocks chunk) cy x y z c →
  is_Some (block_mappings st2 !! (Z.of_nat x, Z.of_nat y + cy * 16, Z.of_nat z)%Z) →
  c ∈ todo st1.
Proof.
  intros Hwf (_ & _ & _ & _ & Hkeys & _) Hh Hsome.
  destruct (Hkeys _ Hsome) as (job & Hjob & Hpos).
  pose proof Hjob as [Htodo _]%phase2_schedule_elem.
  destruct (phase2_schedule_holds _ _ Hjob) as (x' & y' & z' & Hp & Hh').
  destruct job as [index [cy' pos]]. cbn in *. subst pos. cbn in Hpos.
  pose proof (holds_height_blocks _ _ _ _ _ _ Hwf Hh).
  pose proof (holds_height_blocks _ _ _ _ _ _ Hwf Hh').
  injection Hpos as Hx Hy Hz.
  assert (cy' = cy) as -> by lia.
  assert (x' = x) as -> by lia. assert (y' = y) as -> by lia. assert (z' = z) as -> by lia.
  by rewrite (holds_functional _ _ _ _ _ _ _ (proj1 Hwf) Hh Hh').
Qed.

(** What a full [_translate] that returns leaves: the states of the two
    passes, the palette of [finished], and in each cell either the
    per-position mapping of the second pass or the palette-wide mapping of
    the first, or 0. *)
Lemma translate_spec (chunk' : Chunk) (palette' : list PaletteEntry) calls :
  wf_blocks (blocks chunk) →
  _translate entity_support chunk palette get_chunk_callback translate_block
    translate_entity true = (calls, Ok (chunk', palette')) →
  ∃ st1 st2,
    phase1_inv get_chunk_callback translate_block palette st1 ∧
    phase2_inv chunk palette get_chunk_callback translate_block st1
      (phase2_schedule chunk (todo st1)) st2 ∧
    palette' = PBlock <$> finished st2 ∧
    wf_blocks (blocks chunk') ∧
    ∀ cy (x y z : nat) c,
      holds (blocks chunk) cy x y z c →
      holds (blocks chunk') cy x y z
        match block_mappings st2 !! (Z.of_nat x, Z.of_nat y + cy * 16, Z.of_nat z)%Z with
        | Some (MIndex k) => k
        | _ => default 0 (palette_mappings st1 !! c)
        end.
Proof.
  intros Hwf Htr. unfold _translate in Htr. cbn [negb] in Htr.
  apply traced_bind_ok in Htr as (c1 & st & c2 & Hpasses & Htr & ->).
  apply traced_bind_ok in Htr as (c3 & chunk0 & c4 & Hcommit & Hret & ->).
  cbn in Hret. injection Hret as <- <- <-.
  unfold lift in Hcommit. injection Hcommit as <- Hcommit.
  unfold translate_passes in Hpasses.
  apply traced_bind_ok in Hpasses as (c5 & st2 & c6 & Hblocks & Hentities & ->).
  unfold block_passes in Hblocks.
  apply traced_bind_ok in Hblocks as (c7 & st1 & c8 & Hp1 & Hp2 & ->).
  apply phase1_spec in Hp1 as [Hinv1 _].
  pose proof Hinv1 as (Hfin1 & Htodo1 & Hbm1 & _).
  apply phase2_spec in Hp2 as [Hinv2 _]; [|done..].
  pose proof Hinv2 as (_ & Hpm2 & _).
  apply commit_spec in Hcommit as (Hwf' & _ & _ & _ & _ & Hvals & Hcells); [|done].
  assert (todo st = todo st2 ∧ palette_mappings st = palette_mappings st2 ∧
          finished st = finished st2 ∧
          ∀ p, block_mappings st !! p = block_mappings st2 !! p) as (Ht & Hpm & Hfin & Hbm).
  { destruct entity_support.
    - apply entity_pass_spec in Hentities as (? & ? & ? & _ & Hbm).
      split_and!; [done..|]. intros p. destruct (Hbm p) as [Heq|[b Hb]]; [done|].
      destruct (Hvals _ _ Hb) as [k Hk]. done.
    - cbn in Hentities. by injection Hentities as _ <-. }
  exists st1, st2. split_and!; [done|done|by rewrite Hfin|done|].
  intros cy x y z c Hh. specialize (Hcells cy x y z c Hh).
  by rewrite Hbm, Hpm, Hpm2 in Hcells.
Qed.

End Passes.

(** ** The dedup of the palette and the cells left at 0 *)

(** C6: two equal entries of the palette at the indices [i] and [j], both
    translated without context to the block [b], give one entry [b] of the
    returned palette, at an index [k], and every cell that held [i] or [j]
    holds [k]; [get_add_block] returns the index of a block that is
    present and leaves the manager as it is, and appends a block that is
    not, at the index that is the length of the manager. *)
Theorem C6_palette_dedup (entity_support : bool) (chunk chunk' : Chunk)
    (palette palette' : list PaletteEntry) (get_chunk_callback : option GetChunkCallback)
    (translate_block : TranslateBlockCallback) (translate_entity : TranslateEntityCallback)
    calls (i j : nat) (e : PaletteEntry) (b : Block) obe oe (extra : bool) :
  wf_blocks (blocks chunk) →
  _translate entity_support chunk palette get_chunk_callback translate_block
    translate_entity true = (calls, Ok (chunk', palette')) →
  i ≠ j → palette !! i = Some e → palette !! j = Some e →
  translate_block e None = Ok (Some b, obe, oe, extra) →
  (extra && bool_decide (is_Some get_chunk_callback)) = false →
  (∃ k,
     palette' !! k = Some (PBlock b) ∧
     (∀ k', palette' !! k' = Some (PBlock b) → k' = k) ∧
     ∀ cy (x y z : nat) c,
       holds (blocks chunk) cy x y z c → c = i ∨ c = j →
       holds (blocks chunk') cy x y z k) ∧
  (∀ (m : BlockManager) (b' : Block),
     (b' ∈ m → ∃ k0, get_add_block m b' = (k0, m) ∧ m !! k0 = Some b') ∧
     (b' ∉ m → get_add_block m b' = (length m, m ++ [b']))).
Proof.
  intros Hwf Htr Hij Hi Hj Htb Hdef. split.
  - apply translate_spec in Htr as (st1 & st2 & Hinv1 & Hinv2 & -> & _ & Hcells); [|done].
    pose proof Hinv1 as (Hnd1 & _ & _ & _ & Hpre & _).
    pose proof Hinv2 as (_ & _ & Hnd2 & [tail Htail] & _).
    assert (∀ c, c = i ∨ c = j →
              (c ∉ todo st1) ∧
              ∃ k, palette_mappings st1 !! c = Some k ∧ finished st1 !! k = Some b) as Hmap.
    { intros c Hc. assert (palette !! c = Some e) as Hpc by (by destruct Hc as [->| ->]).
      destruct (Hpre c e Hpc) as (ob' & obe' & oe' & extra' & Htb' & Hcase).
      rewrite Htb in Htb'. injection Htb' as <- <- <- <-. by rewrite Hdef in Hcase. }
    destruct (Hmap i (or_introl eq_refl)) as (_ & k & Hki & Hfk).
    exists k. split_and!.
    + rewrite list_lookup_fmap, Htail. by rewrite (lookup_app_l_Some _ _ _ _ Hfk).
    + intros k' Hk'. rewrite list_lookup_fmap in Hk'.
      destruct (finished st2 !! k') as [b'|] eqn:Hb'; [|done]. injection Hk' as ->.
      eapply NoDup_lookup; [exact Hnd2|done|].
      rewrite Htail. by apply lookup_app_l_Some.
    + intros cy x y z c Hh Hc. specialize (Hcells cy x y z c Hh).
      destruct (Hmap c Hc) as (Hntodo & k' & Hkc & Hfk').
      assert (k' = k) as -> by (eapply (NoDup_lookup (finished st1)); [exact Hnd1|exact Hfk'|exact Hfk]).
      destruct (block_mappings st2 !! _) as [v|] eqn:Hbm.
      * destruct Hntodo. eapply phase2_keys_deferred; [done..|by rewrite Hbm].
      * by rewrite Hkc in Hcells.
  - intros m b'. split.
    + intros Hin. destruct (get_add_block_present m b' Hin) as (k0 & ? & ? & _). eauto.
    + apply get_add_block_absent.
Qed.

(** C10: the new array of a section is the array of zeros in which the old
    indices that have a palette-wide mapping are substituted; a cell whose
    old index has no palette-wide mapping and whose position has no
    per-position mapping holds 0 after the commit; so does, after a full
    translation, every cell whose index was translated without context to
    no block. *)
Theorem C10_unmapped_cells_hold_zero (entity_support : bool) (chunk : Chunk)
    (palette : list PaletteEntry) (get_chunk_callback : option GetChunkCallback)
    (translate_block : TranslateBlockCallback) (translate_entity : TranslateEntityCallback) :
  wf_blocks (blocks chunk) →
  (∀ (pm : gmap nat nat) (old_blocks : SubChunk),
     rewrite_sub_chunk pm old_blocks = map_cells (λ c, default 0 (pm !! c)) old_blocks) ∧
  (∀ (st : TranslateState) (chunk' : Chunk) cy (x y z : nat) c,
     commit chunk st = Ok chunk' →
     holds (blocks chunk) cy x y z c →
     palette_mappings st !! c = None →
     block_mappings st !! (Z.of_nat x, Z.of_nat y + cy * 16, Z.of_nat z)%Z = None →
     holds (blocks chunk') cy x y z 0) ∧
  (∀ calls (chunk' : Chunk) (palette' : list PaletteEntry) cy (x y z : nat) c e obe oe extra,
     _translate entity_support chunk palette get_chunk_callback translate_block
       translate_entity true = (calls, Ok (chunk', palette')) →
     holds (blocks chunk) cy x y z c →
     palette !! c = Some e →
     translate_block e None = Ok (None, obe, oe, extra) →
     (extra && bool_decide (is_Some get_chunk_callback)) = false →
     holds (blocks chunk') cy x y z 0).
Proof.
  intros Hwf. split_and!.
  - apply rewrite_sub_chunk_map_cells.
  - intros st chunk' cy x y z c Hcommit Hh Hpm Hbm.
    apply commit_spec in Hcommit as (_ & _ & _ & _ & _ & _ & Hcells); [|done].
    specialize (Hcells cy x y z c Hh). by rewrite Hbm, Hpm in Hcells.
  - intros calls chunk' palette' cy x y z c e obe oe extra Htr Hh Hc Htb Hdef.
    apply translate_spec in Htr as (st1 & st2 & Hinv1 & Hinv2 & _ & _ & Hcells); [|done].
    pose proof Hinv1 as (_ & _ & _ & _ & Hpre & _).
    destruct (Hpre c e Hc) as (ob' & obe' & oe' & extra' & Htb' & Hcase).
    rewrite Htb in Htb'. injection Htb' as <- <- <- <-. rewrite Hdef in Hcase.
    destruct Hcase as [Hntodo Hpm]. specialize (Hcells cy x y z c Hh).
    destruct (block_mappings st2 !! _) as [v|] eqn:Hbm.
    + destruct Hntodo. eapply phase2_keys_deferred; [done..|by rewrite Hbm].
    + by rewrite Hpm in Hcells.
Qed.

(** ** Deferral *)

(** C5: the two passes call the callback once for each entry of the
    palette with no resolver, and then once for each position that holds a
    deferred index, with the resolver bound to that position ([jobs] has no
    two calls for one position).  An index whose translation without
    context asks for context is deferred when a chunk loader was given: it
    gets no palette-wide mapping, and each position that holds it gets as
    per-position mapping the index in [finished] of the block the call with
    the resolver returns, when it returns one.  With no chunk loader the
    index is not deferred and its palette-wide mapping is that of the
    block of the first call. *)
Theorem C5_deferral (entity_support : bool) (chunk : Chunk) (palette : list PaletteEntry)
    (get_chunk_callback : option GetChunkCallback) (translate_block : TranslateBlockCallback)
    calls (st : TranslateState) :
  wf_blocks (blocks chunk) →
  block_passes entity_support chunk palette get_chunk_callback translate_block = (calls, Ok st) →
  ∃ jobs : list (PaletteEntry * (Z * Z * Z)),
    calls = ((λ e, TranslateBlock e None) <$> palette) ++
            ((λ '(e, p), TranslateBlock e (Some p)) <$> jobs) ∧
    NoDup jobs.*2 ∧
    (∀ e p, (e, p) ∈ jobs ↔
       ∃ i cy (x y z : nat),
         palette !! i = Some e ∧ i ∈ todo st ∧ holds (blocks chunk) cy x y z i ∧
         p = (Z.of_nat x, Z.of_nat y + cy * 16, Z.of_nat z)%Z) ∧
    ∀ i e ob obe oe,
      palette !! i = Some e →
      translate_block e None = Ok (ob, obe, oe, true) →
      match get_chunk_callback with
      | Some _ =>
          i ∈ todo st ∧ palette_mappings st !! i = None ∧
          ∀ cy (x y z : nat),
            holds (blocks chunk) cy x y z i →
            ∃ ob' obe' oe' extra',
              translate_block e
                (Some (get_block_at chunk palette get_chunk_callback
                         (Z.of_nat x) (Z.of_nat y + cy * 16) (Z.of_nat z))) =
                Ok (ob', obe', oe', extra') ∧
              match ob' with
              | Some b =>
                  ∃ k, block_mappings st !!
                         (Z.of_nat x, Z.of_nat y + cy * 16, Z.of_nat z)%Z = Some (MIndex k) ∧
                       finished st !! k = Some b
              | None =>
                  block_mappings st !!
                    (Z.of_nat x, Z.of_nat y + cy * 16, Z.of_nat z)%Z = None
              end
      | None =>
          (i ∉ todo st) ∧
          match ob with
          | Some b => ∃ k, palette_mappings st !! i = Some k ∧ finished st !! k = Some b
          | None => palette_mappings st !! i = None
          end
      end.
Proof.
  intros Hwf Hpasses. unfold block_passes in Hpasses.
  apply traced_bind_ok in Hpasses as (c1 & st1 & c2 & Hp1 & Hp2 & ->).
  apply phase1_spec in Hp1 as [Hinv1 ->].
  pose proof Hinv1 as (Hfin1 & Htodo1 & Hbm1 & Hdom & Hpre & _).
  apply phase2_spec in Hp2 as [Hinv2 ->]; [|done..].
  pose proof Hinv2 as (Ht2 & Hpm2 & _ & [tail Htail] & _ & Hjobs).
  set (entry_of := λ job : nat * (Z * (Z * Z * Z)), default (PTuple []) (palette !! job.1)).
  exists ((λ job, (entry_of job, job_position job)) <$> phase2_schedule chunk (todo st1)).
  split_and!.
  - f_equal. rewrite <- list_fmap_compose. done.
  - rewrite <- list_fmap_compose. by apply phase2_schedule_NoDup.
  - intros e p. rewrite list_elem_of_fmap. split.
    + intros (job & [= -> ->] & Hjob).
      pose proof Hjob as [Hin _]%phase2_schedule_elem.
      destruct (phase2_schedule_holds _ _ _ Hjob) as (x & y & z & Hpos & Hh).
      destruct job as [index [cy pos]]. cbn in *. subst pos.
      exists index, cy, x, y, z. split_and!; [|congruence|done|done].
      unfold entry_of. cbn.
      destruct (lookup_lt_is_Some_2 palette index) as [e He]; [|by rewrite He].
      apply Hdom. by right.
    + intros (i & cy & x & y & z & He & Hi & Hh & ->).
      exists (i, (cy, (Z.of_nat x, Z.of_nat y, Z.of_nat z))). split.
      * unfold entry_of. cbn. by rewrite He.
      * apply phase2_schedule_elem. cbn. split; [congruence|].
        apply occurrences_elem. eauto.
  - intros i e ob obe oe Hi Htb.
    destruct (Hpre i e Hi) as (ob' & obe' & oe' & extra' & Htb' & Hcase).
    rewrite Htb in Htb'. injection Htb' as <- <- <- <-. cbn [andb] in Hcase.
    destruct get_chunk_callback as [callback|] eqn:Hcb.
    + rewrite bool_decide_eq_true_2 in Hcase by done. destruct Hcase as [Hin Hnone].
      split_and!; [congruence|congruence|].
      intros cy x y z Hh.
      destruct (Hjobs (i, (cy, (Z.of_nat x, Z.of_nat y, Z.of_nat z))))
        as (e' & ob' & obe' & oe' & extra' & He' & Htb' & Hc').
      { apply phase2_schedule_elem. cbn. split; [done|]. apply occurrences_elem. eauto. }
      cbn in He', Htb', Hc'. rewrite Hi in He'. injection He' as <-. eauto 10.
    + rewrite bool_decide_eq_false_2 in Hcase by (by intros [? ?]).
      destruct Hcase as [Hnin Hc]. split; [congruence|].
      destruct ob as [b|]; [|congruence].
      destruct Hc as (k & Hk & Hfk). exists k. split; [congruence|].
      rewrite Htail. by apply lookup_app_l_Some.
Qed.

(** ** Translations without context *)

Lemma foldM_total {A B} (f : B → A → Traced B) (l : list A) (b : B) :
  (∀ b a, a ∈ l → ∃ calls b', f b a = (calls, Ok b')) →
  ∃ calls b', foldM f b l = (calls, Ok b').
Proof.
  revert b. induction l as [|a l IH]; intros b Hf; [by eexists _, _|].
  destruct (Hf b a) as (c1 & b1 & Hstep); [by left|].
  destruct (IH b1) as (c2 & b2 & Hrest); [intros; apply Hf; by right|].
  exists (c1 ++ c2), b2. cbn [foldM]. rewrite Hstep. cbn. by rewrite Hrest.
Qed.

Lemma entity_pass_no_blocks (translate_entity : TranslateEntityCallback)
    (l : list Entity) (st : TranslateState) :
  (∀ entity, ∃ obe oe, translate_entity entity = Ok (None, obe, oe)) →
  ∃ calls st',
    foldM (entity_step translate_entity) st l = (calls, Ok st') ∧
    finished st' = finished st ∧ palette_mappings st' = palette_mappings st ∧
    block_mappings st' = block_mappings st.
Proof.
  intros Hte. revert st. induction l as [|entity l IH]; intros st; [by eexists _, _|].
  destruct (Hte entity) as (obe & oe & Hent).
  set (st1 := mkState (todo st) (output_block_entities st)
                (output_entities st ++ ((λ e, set_location e (e_location entity)) <$> oe))
                (finished st) (palette_mappings st) (block_mappings st)).
  destruct (IH st1) as (c2 & st' & Hrest & ? & ? & ?).
  exists ([TranslateEntity entity] ++ c2), st'. split; [|done].
  assert (entity_step translate_entity st entity = ([TranslateEntity entity], Ok st1)) as Hstep.
  { unfold entity_step. rewrite Hent. reflexivity. }
  cbn [foldM]. rewrite Hstep. cbn. by rewrite Hrest.
Qed.

(** A full translation whose callback gives, without asking for context, a
    block for every entry of the palette, and whose entities give no
    block, returns; the array of every section is the old one renumbered
    by a function [g], and the new palette has at [g c] the block the
    callback gives for the entry [c] of the old one. *)
Lemma context_free_translate (entity_support : bool) (chunk : Chunk)
    (palette : list PaletteEntry) (get_chunk_callback : option GetChunkCallback)
    (translate_block : TranslateBlockCallback) (translate_entity : TranslateEntityCallback) :
  (∀ e, e ∈ palette → ∃ b obe oe, translate_block e None = Ok (Some b, obe, oe, false)) →
  (∀ entity, ∃ obe oe, translate_entity entity = Ok (None, obe, oe)) →
  ∃ calls chunk' (fin : list Block) (g : nat → nat),
    _translate entity_support chunk palette get_chunk_callback translate_block
      translate_entity true = (calls, Ok (chunk', PBlock <$> fin)) ∧
    blocks chunk' = (λ '(cy, a), (cy, map_cells g a)) <$> blocks chunk ∧
    biomes chunk' = biomes chunk ∧
    (∀ c e, palette !! c = Some e →
       ∃ b obe oe, translate_block e None = Ok (Some b, obe, oe, false) ∧ fin !! g c = Some b) ∧
    (∀ b, b ∈ fin →
       ∃ e obe oe, e ∈ palette ∧ translate_block e None = Ok (Some b, obe, oe, false)).
Proof.
  intros Htb Hte.
  destruct (foldM_total
              (phase1_step entity_support chunk get_chunk_callback translate_block)
              (enumerate palette) initial_state) as (c1 & st1 & Hp1).
  { intros st [i e] Hin.
    assert (e ∈ palette) as He.
    { apply list_elem_of_lookup in Hin as [k Hk]. rewrite enumerate_lookup in Hk.
      destruct (palette !! k) as [e'|] eqn:Hl; [|done]. injection Hk as <- <-.
      by eapply list_elem_of_lookup_2. }
    destruct (Htb e He) as (b & obe & oe & Hr).
    destruct (phase1_step_ok entity_support chunk get_chunk_callback translate_block
                st i e _ Hr) as [st' Hst']. eauto. }
  pose proof (phase1_spec _ _ _ _ _ _ _ Hp1) as [Hinv1 _].
  destruct Hinv1 as (Hnd1 & _ & Hbm1 & Hdom & Hpre & Himg).
  assert (todo st1 = []) as Htodo.
  { apply elem_of_nil_inv. intros i Hi.
    destruct (lookup_lt_is_Some_2 palette i) as [e He]; [apply Hdom; by right|].
    destruct (Hpre i e He) as (ob & obe & oe & extra & Hr & Hcase).
    destruct (Htb e) as (b & obe' & oe' & Hr'); [by eapply list_elem_of_lookup_2|].
    rewrite Hr' in Hr. injection Hr as <- <- <- <-. cbn in Hcase. by destruct Hcase. }
  destruct (entity_pass_no_blocks translate_entity (entities chunk) st1 Hte)
    as (c3 & st3 & Hp3 & Hfin3 & Hpm3 & Hbm3).
  set (st := if entity_support then st3 else st1).
  assert (finished st = finished st1 ∧ palette_mappings st = palette_mappings st1 ∧
          block_mappings st = ∅) as (Hfin & Hpm & Hbm).
  { unfold st. destruct entity_support; [|done]. split_and!; congruence. }
  set (g := λ c, default 0 (palette_mappings st1 !! c)).
  exists (c1 ++ (if entity_support then c3 else [])),
    (mkChunk (cx chunk) (cz chunk)
       ((λ '(cy, a), (cy, map_cells g a)) <$> blocks chunk)
       (output_block_entities st) (output_entities st) (biomes chunk)),
    (finished st1), g.
  split_and!; [|done|done| |].
  - unfold _translate, translate_passes, block_passes. cbn [negb].
    rewrite Hp1. cbn [mbind Traced_bind]. rewrite Htodo. cbn [phase2_schedule mbind list_bind foldM mret Traced_ret].
    assert (commit chunk st = Ok (mkChunk (cx chunk) (cz chunk)
       ((λ '(cy, a), (cy, map_cells g a)) <$> blocks chunk)
       (output_block_entities st) (output_entities st) (biomes chunk))) as Hcommit.
    { unfold commit. rewrite Hbm, map_to_list_empty. cbn. do 2 f_equal.
      apply list_fmap_ext. intros _ [cy a] _. f_equal.
      rewrite rewrite_sub_chunk_map_cells, Hpm. done. }
    unfold st in *. destruct entity_support.
    + cbn [mbind Traced_bind]. rewrite Hp3. cbn [mbind Traced_bind]. rewrite Hcommit.
      cbn. rewrite !app_nil_r. by rewrite Hfin3.
    + cbn [mbind Traced_bind mret Traced_ret]. rewrite Hcommit. cbn. by rewrite !app_nil_r.
  - intros c e Hc. destruct (Hpre c e Hc) as (ob & obe & oe & extra & Hr & Hcase).
    destruct (Htb e) as (b & obe' & oe' & Hr'); [by eapply list_elem_of_lookup_2|].
    rewrite Hr' in Hr. injection Hr as <- <- <- <-. cbn in Hcase.
    destruct Hcase as (_ & k & Hk & Hfk). exists b, obe', oe'. split; [done|].
    unfold g. by rewrite Hk.
  - intros b Hb. destruct (Himg b Hb) as (e & obe & oe & extra & He & Hr & _).
    destruct (Htb e He) as (b' & obe' & oe' & Hr').
    rewrite Hr' in Hr. injection Hr as <- <- <- <-. eauto.
Qed.

(** ** The round trip *)

Lemma Forall2_choice {A B} (P : A → B → Prop) (l : list A) :
  (∀ a, a ∈ l → ∃ b, P a b) → ∃ l', Forall2 P l l'.
Proof.
  induction l as [|a l IH]; intros H; [by exists []|].
  destruct (H a) as [b Hb]; [by left|].
  destruct IH as [l' Hl']; [intros; apply H; by right|].
  exists (b :: l'). by constructor.
Qed.

Lemma translate_extra_layers (rule : BlockRule) (ls ls' : list Layer) (h : nat → nat)
    (l0 : Layer) (done_ : list Layer) (obe : option BlockEntity) :
  (∀ i, h i ≠ 0) →
  Forall2 (λ l l', ∃ be, rule (mkBlock l []) None = Ok (OBlock (mkBlock l' []), be, false))
    ls ls' →
  fold_result (translate_layer rule None) (Some (mkBlock l0 done_), obe, [], false)
    (imap (λ i a, (h i, a)) ((λ l, mkBlock l []) <$> ls)) =
  Ok (Some (mkBlock l0 (done_ ++ ls')), obe, [], false).
Proof.
  intros Hh Hall. revert h Hh done_.
  induction Hall as [|l l' ls ls' [be Hr] Hall IH]; intros h Hh done_.
  - cbn. by rewrite app_nil_r.
  - rewrite fmap_cons, imap_cons. cbn [fold_result].
    assert (translate_layer rule None (Some (mkBlock l0 done_), obe, [], false)
              (h 0, mkBlock l []) =
            Ok (Some (mkBlock l0 (done_ ++ [l'])), obe, [], false)) as ->.
    { unfold translate_layer. rewrite Hr. cbn. rewrite decide_False by apply Hh. done. }
    cbn [mbind result_bind].
    rewrite (IH (h ∘ S)) by (intros; apply Hh).
    by rewrite <- app_assoc.
Qed.

Lemma translate_block_with_layers (rule : BlockRule) (b b' : Block) :
  Forall2 (λ l l', ∃ be, rule (mkBlock l []) None = Ok (OBlock (mkBlock l' []), be, false))
    (base b :: extras b) (base b' :: extras b') →
  ∃ obe, translate_block_with rule (PBlock b) None = Ok (Some b', obe, [], false).
Proof.
  intros Hall. apply Forall2_cons in Hall as [[be Hr] Hall].
  exists be. unfold translate_block_with, enumerate, extra_blocks, base_block.
  rewrite imap_cons. cbn [fold_result].
  assert (translate_layer rule None (None, None, [], false) (0, mkBlock (base b) []) =
          Ok (Some (mkBlock (base b') []), be, [], false)) as ->.
  { unfold translate_layer. rewrite Hr. done. }
  cbn [mbind result_bind].
  pose proof (translate_extra_layers rule (extras b) (extras b') S (base b') [] be
                ltac:(done) Hall) as Hrest.
  destruct b' as [l0' ls']. exact Hrest.
Qed.

Lemma map_cells_compose (g1 g2 : nat → nat) (a : SubChunk) :
  map_cells g2 (map_cells g1 a) = map_cells (g2 ∘ g1) a.
Proof.
  unfold map_cells. rewrite <- list_fmap_compose. apply list_fmap_ext. intros _ plane _.
  cbn. rewrite <- list_fmap_compose. apply list_fmap_ext. intros _ row _.
  cbn. by rewrite <- list_fmap_compose.
Qed.

(** What the hypothesis of the round trip gives for an entry of the
    palette: the two closures [translate_block] take it to a block and
    back. *)
Lemma inverse_entry (version : Version) (e : PaletteEntry) :
  (∃ b, e = PBlock b ∧ ∀ l, l ∈ base b :: extras b → ∃ l', layers_inverse version l l') →
  ∃ b b' obe obe',
    e = PBlock b ∧
    translate_block_with (block_to_universal version) e None = Ok (Some b', obe, [], false) ∧
    translate_block_with (block_from_universal version) (PBlock b') None =
      Ok (Some b, obe', [], false).
Proof.
  intros (b & -> & Hl). apply Forall2_choice in Hl as [ls' Hall].
  destruct ls' as [|l0' ls']; [by apply Forall2_nil_inv_r in Hall|].
  set (b' := mkBlock l0' ls').
  destruct (translate_block_with_layers (block_to_universal version) b b') as [obe Hto].
  { eapply Forall2_impl; [exact Hall|]. by intros l l' [? _]. }
  destruct (translate_block_with_layers (block_from_universal version) b' b) as [obe' Hfrom].
  { apply Forall2_flip. eapply Forall2_impl; [exact Hall|]. by intros l l' [_ ?]. }
  by exists b, b', obe, obe'.
Qed.

(** C1: when every layer of every block of the palette is mapped by the
    rules of the version to one layer and back, without context,
    [to_universal] and then [from_universal] return, and give back the
    block array up to a renumbering [g] of the palette indices: every
    section holds [g c] where it held [c], and the entry [g c] of the
    final palette is the entry [c] of the first one. *)
Theorem C1_round_trip (entity_support : bool) (version : Version) (chunk : Chunk)
    (palette : list PaletteEntry) (callback1 callback2 : option GetChunkCallback) :
  (∀ e, e ∈ palette →
     ∃ b, e = PBlock b ∧ ∀ l, l ∈ base b :: extras b → ∃ l', layers_inverse version l l') →
  ∃ calls1 chunk1 palette1 calls2 chunk2 palette2 (g : nat → nat),
    to_universal entity_support version chunk palette callback1 true =
      (calls1, Ok (chunk1, palette1)) ∧
    from_universal entity_support version chunk1 palette1 callback2 true =
      (calls2, Ok (chunk2, palette2)) ∧
    blocks chunk2 = (λ '(cy, a), (cy, map_cells g a)) <$> blocks chunk ∧
    ∀ c e, palette !! c = Some e → palette2 !! g c = Some e.
Proof.
  intros Hinv.
  assert (∀ entity, ∃ obe oe, translate_entity_stub entity = Ok (None, obe, oe)) as Hstub
    by (intros; by eexists _, _).
  destruct (biomes_spec version (biomes chunk)) as (values1 & _ & _ & _ & Hb1 & _).
  set (chunk0 := mkChunk (cx chunk) (cz chunk) (blocks chunk)
                   (name_block_entities_to_universal version (block_entities chunk))
                   (entities chunk) (biome_to_universal version <$> biomes chunk)).
  destruct (context_free_translate entity_support chunk0 palette callback1
              (translate_block_with (block_to_universal version)) translate_entity_stub)
    as (c1 & chunk1 & fin1 & g1 & Htr1 & Hblocks1 & Hbiomes1 & Hpal1 & Himg1); [|done|].
  { intros e He. destruct (inverse_entry version e (Hinv e He))
      as (b & b' & obe & obe' & -> & Hto & _). eauto. }
  assert (∀ e b', e ∈ palette →
            (∃ obe oe, translate_block_with (block_to_universal version) e None =
                         Ok (Some b', obe, oe, false)) →
            ∃ obe', e = PBlock (mkBlock (base match e with PBlock b => b | _ => b' end)
                                  (extras match e with PBlock b => b | _ => b' end)) ∧
                    translate_block_with (block_from_universal version) (PBlock b') None =
                      Ok (Some match e with PBlock b => b | _ => b' end, obe', [], false))
    as Hback.
  { intros e b' He (obe & oe & Hto).
    destruct (inverse_entry version e (Hinv e He))
      as (b & b'' & obe1 & obe2 & -> & Hto' & Hfrom).
    rewrite Hto in Hto'. injection Hto' as -> _ _. exists obe2. split; [by destruct b|done]. }
  destruct (biomes_spec version (biomes chunk1)) as (values2 & _ & _ & _ & _ & Hb2).
  destruct (context_free_translate entity_support chunk1 (PBlock <$> fin1) callback2
              (translate_block_with (block_from_universal version)) translate_entity_stub)
    as (c2 & chunk2 & fin2 & g2 & Htr2 & Hblocks2 & Hbiomes2 & Hpal2 & _); [|done|].
  { intros e1 He1. apply list_elem_of_fmap in He1 as (b' & -> & Hb').
    destruct (Himg1 b' Hb') as (e & obe & oe & He & Hto).
    destruct (Hback e b' He) as (obe' & _ & Hfrom); [eauto|]. eauto. }
  eexists _, chunk1, (PBlock <$> fin1), _, _, (PBlock <$> fin2), (g2 ∘ g1).
  split_and!.
  - unfold to_universal. rewrite Hb1. cbn [mbind Traced_bind]. fold chunk0.
    rewrite Htr1. reflexivity.
  - unfold from_universal. rewrite Htr2. cbn [mbind Traced_bind]. rewrite Hbiomes2, Hb2.
    cbn [mbind Traced_bind mret Traced_ret]. reflexivity.
  - cbn. rewrite Hblocks2, Hblocks1. unfold chunk0. cbn.
    rewrite <- list_fmap_compose. apply list_fmap_ext. intros _ [cy a] _. cbn.
    by rewrite map_cells_compose.
  - intros c e Hc.
    destruct (Hpal1 c e Hc) as (b' & obe & oe & Hto & Hf1).
    destruct (Hback e b') as (obe' & He & Hfrom); [by eapply list_elem_of_lookup_2|eauto|].
    destruct (Hpal2 (g1 c) (PBlock b')) as (b'' & obe2 & oe2 & Hfrom' & Hf2).
    { by rewrite list_lookup_fmap, Hf1. }
    rewrite Hfrom in Hfrom'. injection Hfrom' as <- _ _.
    unfold _pack_palette. rewrite list_lookup_fmap. cbn. rewrite Hf2. cbn.
    rewrite He. by destruct e as [[]|].
Qed.

(** ** The theorems at the sample data *)

Lemma C7_block_entity_per_occurrence_witness :
  ∃ st' created,
    phase1_step true Sample.chunk None Sample.translate_block_chest initial_state
      (1, PBlock Sample.water) = ([TranslateBlock (PBlock Sample.water) None], Ok st') ∧
    output_block_entities st' = output_block_entities initial_state ++ created ∧
    NoDup (be_location <$> created) ∧
    ∀ e, e ∈ created ↔
      ∃ (cy : Z) (x y z : nat),
        holds (blocks Sample.chunk) cy x y z 1 ∧
        e = new_at_location Sample.chest
              (Z.of_nat x + cx Sample.chunk * 16) (Z.of_nat y + cy * 16)
              (Z.of_nat z + cz Sample.chunk * 16).
Proof.
  apply (C7_block_entity_per_occurrence true Sample.chunk None Sample.translate_block_chest
           initial_state 1 (PBlock Sample.water) (Sample.universal "chest") Sample.chest
           [] false).
  - reflexivity.
  - reflexivity.
  - apply (bool_decide_unpack _). vm_compute. exact I.
Defined.

Lemma C6_palette_dedup_witness :
  (∃ k,
     Sample.palette_of Sample.twice_outcome !! k = Some (PBlock (Sample.universal "stone")) ∧
     (∀ k', Sample.palette_of Sample.twice_outcome !! k' =
              Some (PBlock (Sample.universal "stone")) → k' = k) ∧
     ∀ cy (x y z : nat) c,
       holds (blocks Sample.chunk) cy x y z c → c = 0 ∨ c = 1 →
       holds (blocks (Sample.chunk_of Sample.twice_outcome)) cy x y z k) ∧
  (∀ (m : BlockManager) (b' : Block),
     (b' ∈ m → ∃ k0, get_add_block m b' = (k0, m) ∧ m !! k0 = Some b') ∧
     (b' ∉ m → get_add_block m b' = (length m, m ++ [b']))).
Proof.
  apply (C6_palette_dedup false Sample.chunk (Sample.chunk_of Sample.twice_outcome)
           Sample.twice (Sample.palette_of Sample.twice_outcome) None
           Sample.translate_block_plain translate_entity_stub
           Sample.twice_outcome.1 0 1 (PBlock Sample.stone) (Sample.universal "stone")
           None [] false).
  - apply (bool_decide_unpack _). vm_compute. exact I.
  - vm_compute. reflexivity.
  - lia.
  - reflexivity.
  - reflexivity.
  - reflexivity.
  - reflexivity.
Defined.

Lemma C10_unmapped_cells_hold_zero_witness :
  wf_blocks (blocks Sample.chunk) ∧
  holds (blocks Sample.chunk) 1 1 2 3 1 ∧
  holds (blocks (Sample.chunk_of Sample.no_water_outcome)) 1 1 2 3 0.
Proof.
  assert (wf_blocks (blocks Sample.chunk)) as Hwf
    by (apply (bool_decide_unpack _); vm_compute; exact I).
  assert (holds (blocks Sample.chunk) 1 1 2 3 1) as Hholds
    by (exists (Sample.array_with 1); split; [left|reflexivity]).
  split; [exact Hwf|]. split; [exact Hholds|].
  destruct (C10_unmapped_cells_hold_zero false Sample.chunk Sample.palette None
              Sample.translate_block_no_water translate_entity_stub Hwf) as (_ & _ & Hzero).
  apply (Hzero Sample.no_water_outcome.1 (Sample.chunk_of Sample.no_water_outcome)
           (Sample.palette_of Sample.no_water_outcome) 1%Z 1 2 3 1 (PBlock Sample.water)
           None [] false).
  - vm_compute. reflexivity.
  - exact Hholds.
  - reflexivity.
  - reflexivity.
  - reflexivity.
Defined.

Lemma C5_deferral_witness :
  ∃ jobs : list (PaletteEntry * (Z * Z * Z)),
    Sample.passes_outcome.1 =
      ((λ e, TranslateBlock e None) <$> Sample.palette) ++
      ((λ '(e, p), TranslateBlock e (Some p)) <$> jobs) ∧
    NoDup jobs.*2 ∧
    (∀ e p, (e, p) ∈ jobs ↔
       ∃ i cy (x y z : nat),
         Sample.palette !! i = Some e ∧ i ∈ todo (Sample.state_of Sample.passes_outcome) ∧
         holds (blocks Sample.chunk) cy x y z i ∧
         p = (Z.of_nat x, Z.of_nat y + cy * 16, Z.of_nat z)%Z) ∧
    ∀ i e ob obe oe,
      Sample.palette !! i = Some e →
      Sample.translate_block e None = Ok (ob, obe, oe, true) →
      i ∈ todo (Sample.state_of Sample.passes_outcome) ∧
      palette_mappings (Sample.state_of Sample.passes_outcome) !! i = None ∧
      ∀ cy (x y z : nat),
        holds (blocks Sample.chunk) cy x y z i →
        ∃ ob' obe' oe' extra',
          Sample.translate_block e
            (Some (get_block_at Sample.chunk Sample.palette (Some Sample.no_neighbours)
                     (Z.of_nat x) (Z.of_nat y + cy * 16) (Z.of_nat z))) =
            Ok (ob', obe', oe', extra') ∧
          match ob' with
          | Some b =>
              ∃ k, block_mappings (Sample.state_of Sample.passes_outcome) !!
                     (Z.of_nat x, Z.of_nat y + cy * 16, Z.of_nat z)%Z = Some (MIndex k) ∧
                   finished (Sample.state_of Sample.passes_outcome) !! k = Some b
          | None =>
              block_mappings (Sample.state_of Sample.passes_outcome) !!
                (Z.of_nat x, Z.of_nat y + cy * 16, Z.of_nat z)%Z = None
          end.
Proof.
  apply (C5_deferral true Sample.chunk Sample.palette (Some Sample.no_neighbours)
           Sample.translate_block Sample.passes_outcome.1
           (Sample.state_of Sample.passes_outcome)).
  - apply (bool_decide_unpack _). vm_compute. exact I.
  - vm_compute. reflexivity.
Defined.

Lemma C1_round_trip_witness :
  ∃ calls1 chunk1 palette1 calls2 chunk2 palette2 (g : nat → nat),
    to_universal true Sample.version Sample.chunk Sample.door_palette None true =
      (calls1, Ok (chunk1, palette1)) ∧
    from_universal true Sample.version chunk1 palette1 None true =
      (calls2, Ok (chunk2, palette2)) ∧
    blocks chunk2 = (λ '(cy, a), (cy, map_cells g a)) <$> blocks Sample.chunk ∧
    ∀ c e, Sample.door_palette !! c = Some e → palette2 !! g c = Some e.
Proof.
  apply (C1_round_trip true Sample.version Sample.chunk Sample.door_palette None None).
  intros e He.
  apply elem_of_cons in He as [->|He];
    [|apply elem_of_cons in He as [->|He]; [|by apply elem_of_nil in He]].
  - exists Sample.stone. split; [reflexivity|]. intros l Hl.
    apply elem_of_cons in Hl as [->|Hl]; [|by apply elem_of_nil in Hl].
    eexists. split; eexists; reflexivity.
  - exists Sample.door. split; [reflexivity|]. intros l Hl.
    apply elem_of_cons in Hl as [->|Hl];
      [|apply elem_of_cons in Hl as [->|Hl]; [|by apply elem_of_nil in Hl]].
    + eexists. split; eexists; reflexivity.
    + eexists. split; eexists; reflexivity.
Defined.


(** * More properties of the code *)

(** ** The closures [translate_block] *)

Lemma merge_blocks_snoc (outputs : list Block) (output : Block) :
  merge_blocks (outputs ++ [output]) =
    Some match merge_blocks outputs with
         | None => output
         | Some final_block => block_add final_block output
         end.
Proof. unfold merge_blocks. by rewrite foldl_app. Qed.

Lemma translate_layers_combine (rule : BlockRule) (get_block_callback : option GetBlockCallback)
    (l : list Block) (done_ : list (RuleOutput * option BlockEntity * bool)) :
  fold_result (translate_layer rule get_block_callback) (combine_layers done_)
    (imap (λ i block, (length done_ + i, block)) l) =
  rs ← mapM (λ block, rule block get_block_callback) l; Ok (combine_layers (done_ ++ rs)).
Proof.
  revert done_. induction l as [|block l IH]; intros done_.
  - cbn. by rewrite app_nil_r.
  - rewrite imap_cons. cbn [fold_result mapM].
    destruct (rule block get_block_callback) as [[[output obe] extra]|e] eqn:Hr.
    2:{ cbn. unfold translate_layer, combine_layers. by rewrite Hr. }
    assert (translate_layer rule get_block_callback (combine_layers done_)
              (length done_ + 0, block) =
            Ok (combine_layers (done_ ++ [(output, obe, extra)]))) as ->.
    { unfold translate_layer, combine_layers. rewrite Hr. cbn [mbind result_bind].
      rewrite !omap_app, existsb_app. cbn [omap list_omap existsb snd].
      f_equal. destruct output as [b|ent|]; cbn.
      - rewrite merge_blocks_snoc, app_nil_r, orb_false_r.
        destruct done_ as [|[[o1 be1] x1] done_]; [done|].
        rewrite decide_False by (cbn; lia). done.
      - rewrite !app_nil_r, orb_false_r. by destruct done_ as [|[[[]]]].
      - rewrite !app_nil_r, orb_false_r. by destruct done_ as [|[[[]]]]. }
    cbn [mbind result_bind].
    rewrite (imap_ext _ (λ i block, (length (done_ ++ [(output, obe, extra)]) + i, block)));
      [|intros; cbn; rewrite length_app; cbn; f_equal; lia].
    rewrite IH. destruct (mapM _ l) as [rs|e]; cbn; [|done].
    by rewrite <- app_assoc.
Qed.

(** X1: the closure [translate_block] applies the rule to the base layer
    and to each extra layer, in order, and returns the combination of what
    the rule gave: the blocks merged in order, the block entity of the
    base layer, the entities in order, and whether some layer asked for
    context.  When the rule raises for a layer, the closure raises the
    same as the first layer that does. *)
Theorem translate_block_with_combines (rule : BlockRule)
    (get_block_callback : option GetBlockCallback) (input_object : Block) :
  translate_block_with rule (PBlock input_object) get_block_callback =
    rs ← mapM (λ block, rule block get_block_callback)
            (base_block input_object :: extra_blocks input_object);
    Ok (combine_layers rs).
Proof.
  unfold translate_block_with, enumerate.
  apply (translate_layers_combine rule get_block_callback _ []).
Qed.

(** X2: when the closure returns, its block entity is the one the rule gave
    for the base layer, if the rule gave a block for that layer, and none
    otherwise: an extra layer never contributes the block entity. *)
Theorem translate_block_entity_of_base (rule : BlockRule)
    (get_block_callback : option GetBlockCallback) (input_object : Block)
    final_block final_block_entity final_entities final_extra :
  translate_block_with rule (PBlock input_object) get_block_callback =
    Ok (final_block, final_block_entity, final_entities, final_extra) →
  ∃ output output_block_entity extra,
    rule (base_block input_object) get_block_callback =
      Ok (output, output_block_entity, extra) ∧
    final_block_entity =
      match output with OBlock _ => output_block_entity | _ => None end.
Proof.
  unfold translate_block_with, enumerate.
  rewrite (translate_layers_combine rule get_block_callback _ []). cbn [mapM app].
  destruct (rule (base_block input_object) get_block_callback)
    as [[[output obe] extra]|e]; [|done].
  cbn [mbind result_bind].
  destruct (mapM _ (extra_blocks input_object)) as [rs|e]; [|done].
  cbn. intros [= _ <- _ _]. exists output, obe, extra. split; [done|].
  by destruct output.
Qed.

(** ** What a full translation keeps and what it replaces *)

Lemma phase2_finished (entity_support : bool) (chunk : Chunk) (palette : list PaletteEntry)
    (get_chunk_callback : option GetChunkCallback) (translate_block : TranslateBlockCallback)
    (jobs : list (nat * (Z * (Z * Z * Z)))) (st st' : TranslateState) calls :
  foldM (phase2_step entity_support chunk palette get_chunk_callback translate_block) st jobs =
    (calls, Ok st') →
  NoDup (finished st) → NoDup (finished st').
Proof.
  revert st calls. induction jobs as [|[index [cy [[x y] z]]] jobs IH]; intros st calls Hfold Hnd.
  - cbn in Hfold. by injection Hfold as _ <-.
  - apply foldM_cons_ok in Hfold as (c1 & st1 & c2 & Hstep & Hfold & _).
    apply (IH _ _ Hfold).
    apply phase2_step_fields in Hstep as (c & e & ob & obe & oe & extra & _ & _ & _ & _ & _ & _ & Hcase).
    destruct ob as [b|]; destruct Hcase as [-> _]; [|done].
    destruct (get_add_block (finished st) b) as [k fin'] eqn:Hadd.
    apply get_add_block_spec in Hadd as (_ & _ & Hnd' & _). by apply Hnd'.
Qed.

Lemma translate_returns (entity_support : bool) (chunk chunk' : Chunk)
    (palette palette' : list PaletteEntry) (get_chunk_callback : option GetChunkCallback)
    (translate_block : TranslateBlockCallback) (translate_entity : TranslateEntityCallback) calls :
  _translate entity_support chunk palette get_chunk_callback translate_block
    translate_entity true = (calls, Ok (chunk', palette')) →
  ∃ st1 st2 st calls1 calls2 calls3,
    foldM (phase1_step entity_support chunk get_chunk_callback translate_block)
      initial_state (enumerate palette) = (calls1, Ok st1) ∧
    foldM (phase2_step entity_support chunk palette get_chunk_callback translate_block)
      st1 (phase2_schedule chunk (todo st1)) = (calls2, Ok st2) ∧
    (if entity_support then foldM (entity_step translate_entity) st2 (entities chunk)
     else mret st2) = (calls3, Ok st) ∧
    commit chunk st = Ok chunk' ∧
    palette' = PBlock <$> finished st ∧
    calls = calls1 ++ calls2 ++ calls3.
Proof.
  intros Htr. unfold _translate in Htr. cbn [negb] in Htr.
  apply traced_bind_ok in Htr as (c1 & st & c2 & Hpasses & Htr & ->).
  apply traced_bind_ok in Htr as (c3 & chunk0 & c4 & Hcommit & Hret & ->).
  cbn in Hret. injection Hret as <- <- <-.
  unfold lift in Hcommit. injection Hcommit as <- Hcommit.
  unfold translate_passes in Hpasses.
  apply traced_bind_ok in Hpasses as (c5 & st2 & c6 & Hblocks & Hentities & ->).
  unfold block_passes in Hblocks.
  apply traced_bind_ok in Hblocks as (c7 & st1 & c8 & Hp1 & Hp2 & ->).
  exists st1, st2, st, c7, c8, c6. split_and!; [done..|].
  by rewrite !app_nil_r, <- app_assoc.
Qed.

(** X3: the palette a full translation returns has no two equal entries, and
    all its entries are blocks. *)
Theorem translate_palette_NoDup (entity_support : bool) (chunk chunk' : Chunk)
    (palette palette' : list PaletteEntry) (get_chunk_callback : option GetChunkCallback)
    (translate_block : TranslateBlockCallback) (translate_entity : TranslateEntityCallback) calls :
  _translate entity_support chunk palette get_chunk_callback translate_block
    translate_entity true = (calls, Ok (chunk', palette')) →
  NoDup palette' ∧ ∀ e, e ∈ palette' → ∃ b, e = PBlock b.
Proof.
  intros Htr.
  apply translate_returns in Htr
    as (st1 & st2 & st & c1 & c2 & c3 & Hp1 & Hp2 & Hp3 & _ & -> & _).
  apply phase1_spec in Hp1 as [(Hnd1 & _) _].
  apply phase2_finished in Hp2; [|done].
  assert (finished st = finished st2) as ->.
  { destruct entity_support.
    - by apply entity_pass_spec in Hp3 as (_ & _ & ? & _).
    - cbn in Hp3. by injection Hp3 as _ <-. }
  split.
  - apply NoDup_fmap_2; [|done]. by intros b1 b2 [= ->].
  - intros e (b & -> & _)%list_elem_of_fmap. by exists b.
Qed.

(** *** The shape of the block array *)

Lemma fmap_alter_same {A B} (h : A → B) (g : A → A) (i : nat) (l : list A) :
  (∀ a, h (g a) = h a) → h <$> alter g i l = h <$> l.
Proof.
  intros Hg. revert i. induction l as [|a l IH]; intros [|i]; cbn; [done..| |].
  - by rewrite Hg.
  - f_equal. apply IH.
Qed.

Lemma array_setitem_shape (a a' : SubChunk) (x y z : Z) (v : nat) :
  array_setitem a x y z v = Ok a' → shape a' = shape a.
Proof.
  unfold array_setitem. destruct (array_getitem a x y z); [cbn|done].
  intros [= <-]. unfold shape. apply fmap_alter_same. intros plane.
  apply fmap_alter_same. intros row. apply length_insert.
Qed.

Lemma add_sub_chunk_shapes (b : Blocks) (cy : Z) (a a' : SubChunk) :
  get_sub_chunk b cy = Ok a → shape a' = shape a →
  section_shapes (add_sub_chunk b cy a') = section_shapes b.
Proof.
  intros Hget Hshape. induction b as [|[cy' a0] b IH]; [done|].
  cbn [get_sub_chunk add_sub_chunk] in *. destruct (decide (cy' = cy)) as [->|Hne].
  - injection Hget as ->. unfold section_shapes. rewrite !fmap_cons. cbn [fst snd].
    by rewrite Hshape.
  - unfold section_shapes in *. rewrite !fmap_cons. by rewrite IH.
Qed.

Lemma blocks_setitem_shapes (b b' : Blocks) (x y z : Z) (v : nat) :
  blocks_setitem b x y z v = Ok b' → section_shapes b' = section_shapes b.
Proof.
  unfold blocks_setitem.
  destruct (get_sub_chunk b (y `div` 16)) as [a|] eqn:Ha; [cbn|done].
  destruct (array_setitem a x (y `mod` 16) z v) as [a'|] eqn:Ha'; [cbn|done].
  intros [= <-]. eapply add_sub_chunk_shapes; [done|]. by eapply array_setitem_shape.
Qed.

Lemma fold_store_shapes (l : list (Z * Z * Z * MappingValue)) (b b' : Blocks) :
  fold_result store_mapping b l = Ok b' → section_shapes b' = section_shapes b.
Proof.
  revert b. induction l as [|[[[x y] z] v] l IH]; intros b Hfold.
  - cbn in Hfold. by injection Hfold as <-.
  - cbn [fold_result] in Hfold.
    destruct (store_mapping b (x, y, z, v)) as [b1|] eqn:Hstore; [cbn in Hfold|done].
    rewrite (IH _ Hfold). cbn in Hstore. destruct v as [k|blk].
    + by eapply blocks_setitem_shapes.
    + by destruct (blocks_getitem b x y z).
Qed.

Lemma shape_map_cells (g : nat → nat) (a : SubChunk) : shape (map_cells g a) = shape a.
Proof.
  unfold shape, map_cells. rewrite <- list_fmap_compose. apply list_fmap_ext.
  intros _ plane _. cbn. rewrite <- list_fmap_compose. apply list_fmap_ext.
  intros _ row _. cbn. apply length_fmap.
Qed.

(** X4: a full translation that returns leaves the chunk where it is, with
    its biomes, its sections and the shape of the array of each section:
    only the contents of the cells, the block entities and the entities
    are replaced. *)
Theorem translate_keeps_shape (entity_support : bool) (chunk chunk' : Chunk)
    (palette palette' : list PaletteEntry) (get_chunk_callback : option GetChunkCallback)
    (translate_block : TranslateBlockCallback) (translate_entity : TranslateEntityCallback) calls :
  _translate entity_support chunk palette get_chunk_callback translate_block
    translate_entity true = (calls, Ok (chunk', palette')) →
  cx chunk' = cx chunk ∧ cz chunk' = cz chunk ∧ biomes chunk' = biomes chunk ∧
  section_shapes (blocks chunk') = section_shapes (blocks chunk).
Proof.
  intros Htr.
  apply translate_returns in Htr
    as (st1 & st2 & st & c1 & c2 & c3 & _ & _ & _ & Hcommit & _ & _).
  unfold commit in Hcommit.
  destruct (fold_result _ _ _) as [b|] eqn:Hfold; [cbn in Hcommit|done].
  injection Hcommit as <-. cbn [cx cz biomes blocks]. split_and!; [done..|].
  rewrite (fold_store_shapes _ _ _ Hfold). unfold section_shapes.
  rewrite <- list_fmap_compose. apply list_fmap_ext. intros _ [cy a] _. cbn.
  by rewrite rewrite_sub_chunk_map_cells, shape_map_cells.
Qed.

(** *** The cells of the returned chunk *)

(** X5: after a full translation a cell that held the index [c] of the entry
    [e] holds the index, in the returned palette, of the block the
    callback gave for [e]: called without resolver when the entry was not
    deferred, and with the resolver bound to the position of the cell when
    it was.  When the callback gave no block the cell holds 0. *)
Theorem translate_cell (entity_support : bool) (chunk chunk' : Chunk)
    (palette palette' : list PaletteEntry) (get_chunk_callback : option GetChunkCallback)
    (translate_block : TranslateBlockCallback) (translate_entity : TranslateEntityCallback)
    calls cy (x y z c : nat) (e : PaletteEntry) :
  wf_blocks (blocks chunk) →
  _translate entity_support chunk palette get_chunk_callback translate_block
    translate_entity true = (calls, Ok (chunk', palette')) →
  holds (blocks chunk) cy x y z c →
  palette !! c = Some e →
  ∃ ob obe oe extra k,
    translate_block e
      (if is_deferred get_chunk_callback translate_block e then
         Some (get_block_at chunk palette get_chunk_callback
                 (Z.of_nat x) (Z.of_nat y + cy * 16) (Z.of_nat z))
       else None) = Ok (ob, obe, oe, extra) ∧
    holds (blocks chunk') cy x y z k ∧
    match ob with
    | Some b => palette' !! k = Some (PBlock b)
    | None => k = 0
    end.
Proof.
  intros Hwf Htr Hh Hc.
  apply translate_spec in Htr as (st1 & st2 & Hinv1 & Hinv2 & -> & _ & Hcells); [|done].
  pose proof Hinv1 as (_ & _ & _ & _ & Hpre & _).
  pose proof Hinv2 as (Ht2 & _ & _ & [tail Htail] & _ & Hjobs).
  specialize (Hcells cy x y z c Hh).
  destruct (Hpre c e Hc) as (ob & obe & oe & extra & Htb & Hcase).
  unfold is_deferred. rewrite Htb.
  destruct (extra && bool_decide (is_Some get_chunk_callback)) eqn:Hdef.
  - destruct Hcase as [Hin Hnone].
    destruct (Hjobs (c, (cy, (Z.of_nat x, Z.of_nat y, Z.of_nat z))))
      as (e' & ob' & obe' & oe' & extra' & He' & Htb' & Hc').
    { apply phase2_schedule_elem. cbn. split; [done|]. apply occurrences_elem. eauto. }
    cbn in He', Htb', Hc'. rewrite Hc in He'. injection He' as <-.
    destruct ob' as [b|].
    + destruct Hc' as (k & Hk & Hfk). rewrite Hk in Hcells.
      exists (Some b), obe', oe', extra', k. split_and!; [done|done|].
      by rewrite list_lookup_fmap, Hfk.
    + rewrite Hc', Hnone in Hcells. by exists None, obe', oe', extra', 0.
  - destruct Hcase as [Hnin Hcase].
    destruct (block_mappings st2 !! _) as [v|] eqn:Hbm.
    { destruct Hnin. eapply phase2_keys_deferred; [done..|by rewrite Hbm]. }
    destruct ob as [b|].
    + destruct Hcase as (k & Hk & Hfk). rewrite Hk in Hcells.
      exists (Some b), obe, oe, extra, k. split_and!; [done|done|].
      rewrite list_lookup_fmap, Htail. by rewrite (lookup_app_l_Some _ _ _ _ Hfk).
    + rewrite Hcase in Hcells. by exists None, obe, oe, extra, 0.
Qed.

(** X6: after a full translation every cell of the chunk holds an index of the
    returned palette; when that palette is empty every cell holds 0. *)
Theorem translate_indices_valid (entity_support : bool) (chunk chunk' : Chunk)
    (palette palette' : list PaletteEntry) (get_chunk_callback : option GetChunkCallback)
    (translate_block : TranslateBlockCallback) (translate_entity : TranslateEntityCallback)
    calls cy (x y z c : nat) :
  wf_blocks (blocks chunk) →
  _translate entity_support chunk palette get_chunk_callback translate_block
    translate_entity true = (calls, Ok (chunk', palette')) →
  holds (blocks chunk) cy x y z c →
  ∃ k, holds (blocks chunk') cy x y z k ∧ (k < length palette' ∨ (k = 0 ∧ palette' = [])).
Proof.
  intros Hwf Htr Hh.
  apply translate_spec in Htr as (st1 & st2 & Hinv1 & Hinv2 & -> & _ & Hcells); [|done].
  pose proof Hinv1 as (_ & _ & _ & Hdom & Hpre & _).
  pose proof Hinv2 as (_ & _ & _ & [tail Htail] & Hkeys & Hjobs).
  specialize (Hcells cy x y z c Hh).
  assert (∀ k b, finished st2 !! k = Some b →
            k < length (PBlock <$> finished st2) ∨ (k = 0 ∧ PBlock <$> finished st2 = []))
    as Hvalid.
  { intros k b Hk. left. rewrite length_fmap. by eapply lookup_lt_Some. }
  assert (0 < length (PBlock <$> finished st2) ∨ (0 = 0 ∧ PBlock <$> finished st2 = []))
    as Hzero.
  { destruct (finished st2); [by right|left; cbn; lia]. }
  destruct (block_mappings st2 !! _) as [[k|blk]|] eqn:Hbm.
  - exists k. split; [done|].
    destruct (Hkeys _ (mk_is_Some _ _ Hbm)) as (job & Hjob & Hpos).
    destruct (Hjobs job Hjob) as (e & ob & obe & oe & extra & _ & _ & Hob).
    rewrite Hpos, Hbm in Hob. destruct ob as [b|]; [|done].
    destruct Hob as (k' & [= <-] & Hfk). by eapply Hvalid.
  - destruct (palette_mappings st1 !! c) as [k|] eqn:Hpm; [|by exists 0].
    exists k. split; [done|].
    destruct (lookup_lt_is_Some_2 palette c) as [e He]; [apply Hdom; left; by rewrite Hpm|].
    destruct (Hpre c e He) as (ob & obe & oe & extra & _ & Hcase).
    destruct (extra && _); [destruct Hcase; congruence|].
    destruct Hcase as [_ Hcase]. destruct ob as [b|]; [|congruence].
    destruct Hcase as (k' & Hk' & Hfk). rewrite Hpm in Hk'. injection Hk' as <-.
    apply (Hvalid k b). rewrite Htail. by apply lookup_app_l_Some.
  - destruct (palette_mappings st1 !! c) as [k|] eqn:Hpm; [|by exists 0].
    exists k. split; [done|].
    destruct (lookup_lt_is_Some_2 palette c) as [e He]; [apply Hdom; left; by rewrite Hpm|].
    destruct (Hpre c e He) as (ob & obe & oe & extra & _ & Hcase).
    destruct (extra && _); [destruct Hcase; congruence|].
    destruct Hcase as [_ Hcase]. destruct ob as [b|]; [|congruence].
    destruct Hcase as (k' & Hk' & Hfk). rewrite Hpm in Hk'. injection Hk' as <-.
    apply (Hvalid k b). rewrite Htail. by apply lookup_app_l_Some.
Qed.

(** *** The calls and the entities *)

Lemma phase2_calls (entity_support : bool) (chunk : Chunk) (palette : list PaletteEntry)
    (get_chunk_callback : option GetChunkCallback) (translate_block : TranslateBlockCallback)
    (jobs : list (nat * (Z * (Z * Z * Z)))) (st st' : TranslateState) calls :
  foldM (phase2_step entity_support chunk palette get_chunk_callback translate_block) st jobs =
    (calls, Ok st') →
  Forall (λ c, ∃ e p, c = TranslateBlock e (Some p)) calls.
Proof.
  revert st calls. induction jobs as [|[index [cy [[x y] z]]] jobs IH]; intros st calls Hfold.
  - cbn in Hfold. injection Hfold as <- _. constructor.
  - apply foldM_cons_ok in Hfold as (c1 & st1 & c2 & Hstep & Hfold & ->).
    apply phase2_step_fields in Hstep as (c & e & ob & obe & oe & extra & _ & _ & _ & -> & _).
    constructor; [by eexists _, _|]. by eapply IH.
Qed.

(** X7: a full translation that returns has called the block callback once
    for every entry of the palette, in order and without resolver, then
    with a resolver only, and then, when entities are supported, the
    entity callback once for every entity of the chunk, in order; when
    they are not, the entity callback is not called. *)
Theorem translate_calls_order (entity_support : bool) (chunk chunk' : Chunk)
    (palette palette' : list PaletteEntry) (get_chunk_callback : option GetChunkCallback)
    (translate_block : TranslateBlockCallback) (translate_entity : TranslateEntityCallback) calls :
  _translate entity_support chunk palette get_chunk_callback translate_block
    translate_entity true = (calls, Ok (chunk', palette')) →
  ∃ calls2,
    calls = ((λ e, TranslateBlock e None) <$> palette) ++ calls2 ++
            (if entity_support then TranslateEntity <$> entities chunk else []) ∧
    Forall (λ c, ∃ e p, c = TranslateBlock e (Some p)) calls2.
Proof.
  intros Htr.
  apply translate_returns in Htr
    as (st1 & st2 & st & c1 & c2 & c3 & Hp1 & Hp2 & Hp3 & _ & _ & ->).
  apply phase1_spec in Hp1 as [_ ->].
  apply phase2_calls in Hp2.
  exists c2. split; [|done]. do 2 f_equal. destruct entity_support.
  - by apply entity_pass_spec in Hp3 as (_ & _ & _ & -> & _).
  - cbn in Hp3. by injection Hp3 as <- _.
Qed.

Lemma phase1_step_entities_off (chunk : Chunk) (get_chunk_callback : option GetChunkCallback)
    (translate_block : TranslateBlockCallback) (st st' : TranslateState)
    (ie : nat * PaletteEntry) calls :
  phase1_step false chunk get_chunk_callback translate_block st ie = (calls, Ok st') →
  output_entities st' = output_entities st.
Proof.
  destruct ie as [i e]. unfold phase1_step.
  destruct (translate_block e None) as [[[[ob obe] oe] extra]|]; [|done].
  cbn. rewrite andb_false_r. intros [= _ <-].
  destruct (extra && _); [done|]. destruct ob as [b|]; [|done].
  by destruct (get_add_block (finished st) b).
Qed.

Lemma phase2_step_entities_off (chunk : Chunk) (palette : list PaletteEntry)
    (get_chunk_callback : option GetChunkCallback)
    (translate_block : TranslateBlockCallback) (st st' : TranslateState)
    (job : nat * (Z * (Z * Z * Z))) calls :
  phase2_step false chunk palette get_chunk_callback translate_block st job = (calls, Ok st') →
  output_entities st' = output_entities st.
Proof.
  destruct job as [index [cy [[x y] z]]]. unfold phase2_step.
  destruct (blocks_getitem (blocks chunk) x (y + cy * 16) z) as [c|];
    cbn -[get_block_at]; [|intros ?; simplify_eq].
  unfold palette_getitem. destruct (palette !! c) as [e|];
    cbn -[get_block_at]; [|intros ?; simplify_eq].
  destruct (translate_block e _) as [[[[ob obe] oe] extra]|];
    cbn -[get_block_at]; [|intros ?; simplify_eq].
  rewrite andb_false_r. intros [= _ <-]. destruct ob as [b|]; [|done].
  by destruct (get_add_block (finished st) b).
Qed.

Lemma foldM_preserves {A B C} (f : B → A → Traced B) (h : B → C) (l : list A) (b b' : B) calls :
  (∀ b a calls b', f b a = (calls, Ok b') → h b' = h b) →
  foldM f b l = (calls, Ok b') → h b' = h b.
Proof.
  intros Hf. revert b calls. induction l as [|a l IH]; intros b calls Hfold.
  - cbn in Hfold. by injection Hfold as _ <-.
  - apply foldM_cons_ok in Hfold as (c1 & b1 & c2 & Hstep & Hfold & _).
    rewrite (IH _ _ Hfold). by eapply Hf.
Qed.

(** X8: without entity support a full translation returns a chunk that has
    no entities, whatever entities the chunk had and whatever entities the
    block callback gave. *)
Theorem translate_without_entity_support (chunk chunk' : Chunk)
    (palette palette' : list PaletteEntry) (get_chunk_callback : option GetChunkCallback)
    (translate_block : TranslateBlockCallback) (translate_entity : TranslateEntityCallback) calls :
  _translate false chunk palette get_chunk_callback translate_block
    translate_entity true = (calls, Ok (chunk', palette')) →
  entities chunk' = [].
Proof.
  intros Htr.
  apply translate_returns in Htr
    as (st1 & st2 & st & c1 & c2 & c3 & Hp1 & Hp2 & Hp3 & Hcommit & _ & _).
  apply (foldM_preserves _ output_entities) in Hp1;
    [|intros; by eapply phase1_step_entities_off].
  apply (foldM_preserves _ output_entities) in Hp2;
    [|intros; by eapply phase2_step_entities_off].
  cbn in Hp3. injection Hp3 as _ <-.
  unfold commit in Hcommit.
  destruct (fold_result _ _ _) as [b|]; [cbn in Hcommit|done].
  injection Hcommit as <-. cbn. by rewrite Hp2, Hp1.
Qed.

(** ** The adapters without a full translation *)

Lemma biomes_run (version : Version) (biome_array : list Z) :
  _biomes_to_universal version biome_array =
    (BiomeToUniversal <$> (np_unique biome_array).1,
     Ok (biome_to_universal version <$> biome_array)) ∧
  _biomes_from_universal version biome_array =
    (BiomeFromUniversal <$> (np_unique biome_array).1,
     Ok (biome_from_universal version <$> biome_array)).
Proof.
  unfold _biomes_to_universal, _biomes_from_universal.
  pose proof (np_unique_values_elem biome_array) as Helem.
  unfold np_unique in *; simpl in *.
  rewrite !mapM_invoke. cbn.
  rewrite !take_indices_inverse by (intros; by apply Helem).
  by rewrite !app_nil_r.
Qed.

(** X13: with [full_translate] off the two adapters call neither the block
    rules nor the entity callback and leave the block array, the palette
    and the entities as they are; they still call the biome rule for each
    distinct biome, map the biome array through it and rename the block
    entities. *)
Theorem adapters_without_full_translate (entity_support : bool) (version : Version)
    (chunk : Chunk) (palette : list PaletteEntry)
    (get_chunk_callback : option GetChunkCallback) :
  to_universal entity_support version chunk palette get_chunk_callback false =
    (BiomeToUniversal <$> (np_unique (biomes chunk)).1,
     Ok (mkChunk (cx chunk) (cz chunk) (blocks chunk)
           (name_block_entities_to_universal version (block_entities chunk))
           (entities chunk) (biome_to_universal version <$> biomes chunk),
         palette)) ∧
  from_universal entity_support version chunk palette get_chunk_callback false =
    (BiomeFromUniversal <$> (np_unique (biomes chunk)).1,
     Ok (mkChunk (cx chunk) (cz chunk) (blocks chunk)
           (name_block_entities_from_universal version (block_entities chunk))
           (entities chunk) (biome_from_universal version <$> biomes chunk),
         palette)).
Proof.
  destruct (biomes_run version (biomes chunk)) as [Hto Hfrom].
  unfold to_universal, from_universal, _translate, _pack_palette. cbn [negb].
  rewrite Hto. cbn [mbind Traced_bind mret Traced_ret].
  rewrite Hfrom. cbn [mbind Traced_bind mret Traced_ret].
  by rewrite !app_nil_r.
Qed.

Lemma name_block_entities_round_trip (version : Version) (l : list BlockEntity) :
  (∀ be names name, be ∈ l →
     block_entity_map version = Some names →
     be_namespace be = None → names !! be_base_name be = Some name →
     block_entity_map_inverse version !! name = Some (be_namespaced_name be)) →
  (∀ be names, be ∈ l →
     block_entity_map version = Some names →
     be_namespace be ≠ None ∨ names !! be_base_name be = None →
     block_entity_map_inverse version !! be_namespaced_name be = None) →
  name_block_entities_from_universal version (name_block_entities_to_universal version l) = l.
Proof.
  intros Hback Hkeep.
  unfold name_block_entities_from_universal, name_block_entities_to_universal.
  destruct (block_entity_map version) as [names|] eqn:Hmap; [|done].
  rewrite <- list_fmap_compose. rewrite <- (list_fmap_id l) at 2.
  apply list_fmap_ext. intros _ be Hbe%list_elem_of_lookup_2. cbn.
  destruct (be_namespace be) as [ns|] eqn:Hns.
  { rewrite (Hkeep be names Hbe eq_refl); [done|]. left. by rewrite Hns. }
  destruct (names !! be_base_name be) as [name|] eqn:Hname.
  - cbn. rewrite (Hback be names name Hbe eq_refl Hns Hname). by destruct be.
  - rewrite (Hkeep be names Hbe eq_refl); [done|]. by right.
Qed.

(** X14: with [full_translate] off, [to_universal] and then [from_universal]
    give the chunk and the palette back, when the biome rule back undoes
    the biome rule on the biomes of the chunk, the inverse name map takes
    the name of every renamed block entity back, and has no entry for the
    name of a block entity that was not renamed. *)
Theorem adapters_round_trip_without_full_translate (entity_support : bool) (version : Version)
    (chunk : Chunk) (palette : list PaletteEntry)
    (callback1 callback2 : option GetChunkCallback) :
  (∀ biome, biome ∈ biomes chunk →
     biome_from_universal version (biome_to_universal version biome) = biome) →
  (∀ be names name, be ∈ block_entities chunk →
     block_entity_map version = Some names →
     be_namespace be = None → names !! be_base_name be = Some name →
     block_entity_map_inverse version !! name = Some (be_namespaced_name be)) →
  (∀ be names, be ∈ block_entities chunk →
     block_entity_map version = Some names →
     be_namespace be ≠ None ∨ names !! be_base_name be = None →
     block_entity_map_inverse version !! be_namespaced_name be = None) →
  ∃ calls1 chunk1 palette1 calls2,
    to_universal entity_support version chunk palette callback1 false =
      (calls1, Ok (chunk1, palette1)) ∧
    from_universal entity_support version chunk1 palette1 callback2 false =
      (calls2, Ok (chunk, palette)).
Proof.
  intros Hbiomes Hback Hkeep.
  destruct (biomes_run version (biomes chunk)) as [Hto _].
  destruct (biomes_run version (biome_to_universal version <$> biomes chunk)) as [_ Hfrom].
  eexists _, _, _, _. split.
  - unfold to_universal, _translate. cbn [negb].
    rewrite Hto. cbn [mbind Traced_bind mret Traced_ret]. reflexivity.
  - unfold from_universal, _translate, _pack_palette. cbn [negb].
    cbn [mbind Traced_bind mret Traced_ret biomes cx cz blocks block_entities entities].
    rewrite Hfrom. cbn [mbind Traced_bind mret Traced_ret].
    rewrite name_block_entities_round_trip by done.
    assert (biome_from_universal version <$> (biome_to_universal version <$> biomes chunk) =
            biomes chunk) as ->.
    { rewrite <- list_fmap_compose. rewrite <- (list_fmap_id (biomes chunk)) at 2.
      apply list_fmap_ext. intros _ biome Hb%list_elem_of_lookup_2. cbn.
      by apply Hbiomes. }
    by destruct chunk.
Qed.

(** ** The replace operation *)

Lemma substitute_fold (pairs : list (nat * nat)) (c v0 : nat) :
  foldl (λ v '(original_id, replacement_id),
           if decide (c = original_id) then replacement_id else v) v0 pairs =
  match list_find (λ p : nat * nat, p.1 = c) (reverse pairs) with
  | Some (_, p) => p.2
  | None => v0
  end.
Proof.
  induction pairs as [|[o r] pairs IH] using rev_ind; [done|].
  rewrite foldl_app, reverse_snoc. cbn [foldl list_find].
  destruct (decide (c = o)) as [->|Hne].
  - by rewrite decide_True.
  - rewrite decide_False by (cbn; congruence). rewrite IH.
    by destruct (list_find _ (reverse pairs)) as [[i p]|].
Qed.

Lemma replace_fold_pointwise (blocks : list nat) (pairs : list (nat * nat)) (g : nat → nat) :
  foldl (λ cells '(original_id, replacement_id),
           zip_with (λ b c, if decide (b = original_id) then replacement_id else c)
             blocks cells)
    (g <$> blocks) pairs =
  (λ c, foldl (λ v '(original_id, replacement_id),
                 if decide (c = original_id) then replacement_id else v) (g c) pairs)
    <$> blocks.
Proof.
  revert g. induction pairs as [|[o r] pairs IH]; intros g; [done|].
  cbn [foldl]. rewrite zip_with_fmap_same.
  by rewrite (IH (λ a, if decide (a = o) then r else g a)).
Qed.

Lemma replace_in_slice_pointwise (original_internal_ids replacement_internal_ids cells : list nat) :
  replace_in_slice original_internal_ids replacement_internal_ids cells =
    substitute (zip original_internal_ids replacement_internal_ids) <$> cells.
Proof.
  unfold replace_in_slice.
  pose proof (replace_fold_pointwise cells
                (zip original_internal_ids replacement_internal_ids) id) as H.
  rewrite list_fmap_id in H. rewrite H.
  apply list_fmap_ext. intros _ c _. apply substitute_fold.
Qed.

(** X16: the loop over the pairs of ids replaces all at once: the new value of
    a cell depends on the value the cell had before the loop only, and is
    the replacement of the last pair whose original is that value.  A
    replacement is never replaced again by a later pair. *)
Theorem replace_in_slice_substitutes
    (original_internal_ids replacement_internal_ids cells : list nat) :
  replace_in_slice original_internal_ids replacement_internal_ids cells =
    substitute (zip original_internal_ids replacement_internal_ids) <$> cells.
Proof. apply replace_in_slice_pointwise. Qed.

Lemma get_add_blocks_spec (l : list Block) (m m' : BlockManager) (ids : list nat) :
  get_add_blocks m l = (ids, m') →
  (∃ tail, m' = m ++ tail) ∧ (NoDup m → NoDup m') ∧
  Forall2 (λ i b, m' !! i = Some b) ids l ∧
  (∀ b, b ∈ m' → b ∈ m ∨ b ∈ l).
Proof.
  revert m m' ids. induction l as [|b l IH]; intros m m' ids Hget.
  - cbn in Hget. injection Hget as <- <-. split_and!; [|done|constructor|auto].
    exists []. by rewrite app_nil_r.
  - cbn [get_add_blocks] in Hget.
    destruct (get_add_block m b) as [i m1] eqn:Hadd.
    destruct (get_add_blocks m1 l) as [ids' m2] eqn:Hrest.
    injection Hget as <- <-.
    apply get_add_block_spec in Hadd as (Hi & [t1 ->] & Hnd1 & Hsub1).
    apply IH in Hrest as ([t2 ->] & Hnd2 & Hall & Hsub2).
    split_and!.
    + exists (t1 ++ t2). by rewrite app_assoc.
    + auto.
    + constructor; [by apply lookup_app_l_Some|done].
    + intros b' Hb'. destruct (Hsub2 b' Hb') as [Hb1|Hl]; [|right; by right].
      destruct (Hsub1 b' Hb1) as [?| ->]; [by left|right; by left].
Qed.

(** What the substitution of the ids does to the blocks, for a palette
    without duplicates. *)
Lemma replace_ids (m m1 m2 : BlockManager) (originals reps : list Block)
    (oids rids : list nat) (c : nat) :
  get_add_blocks m originals = (oids, m1) →
  get_add_blocks m1 reps = (rids, m2) →
  NoDup m → NoDup originals → length originals = length reps →
  (∀ i b, originals !! i = Some b → m2 !! c = Some b →
     ∃ b', reps !! i = Some b' ∧ m2 !! substitute (zip oids rids) c = Some b') ∧
  ((∀ b, m2 !! c = Some b → b ∉ originals) → substitute (zip oids rids) c = c).
Proof.
  intros H1 H2 Hnd Hndo Hlen.
  apply get_add_blocks_spec in H1 as (_ & Hnd1 & Hall1 & _).
  apply get_add_blocks_spec in H2 as ([t2 ->] & Hnd2 & Hall2 & _).
  specialize (Hnd2 (Hnd1 Hnd)).
  assert (Forall2 (λ i b, (m1 ++ t2) !! i = Some b) oids originals) as Hall1'.
  { eapply Forall2_impl; [exact Hall1|]. intros i b Hi. by apply lookup_app_l_Some. }
  pose proof (Forall2_length _ _ _ Hall1) as Hlen1.
  pose proof (Forall2_length _ _ _ Hall2) as Hlen2.
  unfold substitute.
  destruct (list_find _ (reverse (zip oids rids))) as [[j [o r]]|] eqn:Hfind.
  - apply list_find_Some in Hfind as (Hj & Ho & _). cbn in Ho. subst o.
    apply list_elem_of_lookup_2 in Hj. rewrite elem_of_reverse in Hj.
    apply list_elem_of_lookup in Hj as [i' Hi'].
    apply lookup_zip_with_Some in Hi' as (o & r' & [= <- <-] & Hoi & Hri).
    destruct (Forall2_lookup_l _ _ _ _ _ Hall1' Hoi) as (b1 & Hb1 & Hc1).
    split.
    + intros i b Hi Hc. assert (b1 = b) as -> by congruence.
      assert (i' = i) as -> by (eapply NoDup_lookup; [exact Hndo|done..]).
      destruct (Forall2_lookup_l _ _ _ _ _ Hall2 Hri) as (b' & Hb' & Hr). eauto.
    + intros Hnot. destruct (Hnot b1 Hc1). by eapply list_elem_of_lookup_2.
  - split; [|done]. intros i b Hi Hc.
    destruct (Forall2_lookup_r _ _ _ _ _ Hall1' Hi) as (o & Hoi & Ho).
    assert (o = c) as -> by (eapply NoDup_lookup; [exact Hnd2|done..]).
    destruct (lookup_lt_is_Some_2 rids i) as [r Hri].
    { apply lookup_lt_Some in Hi. lia. }
    apply list_find_None in Hfind. rewrite Forall_forall in Hfind.
    destruct (Hfind (c, r)); [|done].
    apply elem_of_reverse. apply (list_elem_of_lookup_2 _ i).
    apply lookup_zip_with_Some. eauto.
Qed.

(** X17: with as many replacement blocks as original blocks, distinct original
    blocks and a palette without duplicates, the operation logs nothing,
    keeps the length of every slice, and makes of a cell that held the
    [i]-th original block a cell that holds the [i]-th replacement block;
    a cell whose block is not an original block is left as it is.  The
    blocks are read through the palette the operation leaves. *)
Theorem replace_cells (world : World) (original_blocks replacement_blocks : list Block) :
  NoDup (world_palette world) → NoDup original_blocks →
  length original_blocks = length replacement_blocks →
  (replace world original_blocks replacement_blocks).1 = [] ∧
  ∀ s cells,
    chunk_slices world !! s = Some cells →
    ∃ cells',
      chunk_slices (replace world original_blocks replacement_blocks).2 !! s = Some cells' ∧
      length cells' = length cells ∧
      ∀ j c, cells !! j = Some c →
        ∃ c',
          cells' !! j = Some c' ∧
          (∀ i b, original_blocks !! i = Some b →
             world_palette (replace world original_blocks replacement_blocks).2 !! c = Some b →
             ∃ b', replacement_blocks !! i = Some b' ∧
                   world_palette (replace world original_blocks replacement_blocks).2 !! c' =
                     Some b') ∧
          ((∀ b, world_palette (replace world original_blocks replacement_blocks).2 !! c =
                   Some b → b ∉ original_blocks) → c' = c).
Proof.
  intros Hnd Hndo Hlen. unfold replace.
  rewrite decide_False by (intros Hne; by apply Hne).
  destruct (get_add_blocks (world_palette world) original_blocks) as [oids m1] eqn:H1.
  destruct (get_add_blocks m1 replacement_blocks) as [rids m2] eqn:H2.
  cbn [fst snd chunk_slices world_palette]. split; [done|].
  intros s cells Hs. exists (replace_in_slice oids rids cells). split_and!.
  - by rewrite list_lookup_fmap, Hs.
  - by rewrite replace_in_slice_pointwise, length_fmap.
  - intros j c Hj. exists (substitute (zip oids rids) c). split.
    + by rewrite replace_in_slice_pointwise, list_lookup_fmap, Hj.
    + by eapply replace_ids.
Qed.

Lemma join_replicate_singleton {A} (n : nat) (a : A) :
  mjoin (replicate n [a]) = replicate n a.
Proof. induction n as [|n IH]; [done|]. cbn. f_equal. exact IH. Qed.

(** X18: with one replacement block, distinct original blocks and a palette
    without duplicates, the operation logs nothing and makes of every cell
    that held an original block a cell that holds the replacement block; a
    cell whose block is not an original block is left as it is. *)
Theorem replace_single_replacement (world : World) (original_blocks : list Block)
    (replacement : Block) :
  NoDup (world_palette world) → NoDup original_blocks →
  (replace world original_blocks [replacement]).1 = [] ∧
  ∀ s cells,
    chunk_slices world !! s = Some cells →
    ∃ cells',
      chunk_slices (replace world original_blocks [replacement]).2 !! s = Some cells' ∧
      length cells' = length cells ∧
      ∀ j c, cells !! j = Some c →
        ∃ c',
          cells' !! j = Some c' ∧
          (∀ b, b ∈ original_blocks →
             world_palette (replace world original_blocks [replacement]).2 !! c = Some b →
             world_palette (replace world original_blocks [replacement]).2 !! c' =
               Some replacement) ∧
          ((∀ b, world_palette (replace world original_blocks [replacement]).2 !! c =
                   Some b → b ∉ original_blocks) → c' = c).
Proof.
  intros Hnd Hndo. unfold replace.
  set (reps := replicate (length original_blocks) replacement).
  assert (∃ log,
    (if decide (length original_blocks ≠ length [replacement]) then
       if decide (length [replacement] = 1) then
         ([] : list LogRecord,
          mjoin (replicate (length original_blocks) [replacement]))
       else
         ([LogError "Replace operation must be given the same number of destination blocks as source blocks"],
          [replacement])
     else ([], [replacement])) = (log, reps) ∧ log = []) as (log & -> & ->).
  { exists []. split; [|done]. unfold reps.
    destruct (decide (length original_blocks ≠ length [replacement])) as [Hne|Heq].
    - rewrite decide_True by done. by rewrite join_replicate_singleton.
    - apply dec_stable in Heq. rewrite Heq. done. }
  destruct (get_add_blocks (world_palette world) original_blocks) as [oids m1] eqn:H1.
  destruct (get_add_blocks m1 reps) as [rids m2] eqn:H2.
  cbn [fst snd chunk_slices world_palette]. split; [done|].
  intros s cells Hs. exists (replace_in_slice oids rids cells). split_and!.
  - by rewrite list_lookup_fmap, Hs.
  - by rewrite replace_in_slice_pointwise, length_fmap.
  - intros j c Hj. exists (substitute (zip oids rids) c). split.
    + by rewrite replace_in_slice_pointwise, list_lookup_fmap, Hj.
    + destruct (replace_ids _ _ _ _ _ _ _ c H1 H2 Hnd Hndo) as [Hrep Hkeep].
      { unfold reps. by rewrite length_replicate. }
      split; [|done]. intros b [i Hi]%list_elem_of_lookup Hc.
      destruct (Hrep i b Hi Hc) as (b' & Hb' & Hc').
      unfold reps in Hb'. apply lookup_replicate in Hb' as [-> _]. done.
Qed.

(** X19: the operation only appends to the palette of the world, whether it
    logs an error or not: the palette it leaves starts with the old one,
    has no duplicates when the old one has none, holds every original
    block, and holds no block that was not in the old palette or among the
    blocks given.  The slices keep their lengths. *)
Theorem replace_palette (world : World) (original_blocks replacement_blocks : list Block) :
  (∃ tail, world_palette (replace world original_blocks replacement_blocks).2 =
             world_palette world ++ tail) ∧
  (NoDup (world_palette world) →
   NoDup (world_palette (replace world original_blocks replacement_blocks).2)) ∧
  (∀ b, b ∈ original_blocks →
     b ∈ world_palette (replace world original_blocks replacement_blocks).2) ∧
  (∀ b, b ∈ world_palette (replace world original_blocks replacement_blocks).2 →
     b ∈ world_palette world ∨ b ∈ original_blocks ∨ b ∈ replacement_blocks) ∧
  length <$> chunk_slices (replace world original_blocks replacement_blocks).2 =
    length <$> chunk_slices world.
Proof.
  unfold replace.
  destruct (if decide (length original_blocks ≠ length replacement_blocks) then _ else _)
    as [log reps] eqn:Hreps.
  assert (∀ b, b ∈ reps → b ∈ replacement_blocks) as Hsub.
  { destruct (decide (length original_blocks ≠ length replacement_blocks)).
    - destruct (decide (length replacement_blocks = 1)); injection Hreps as <- <-; [|done].
      intros b Hb. apply list_elem_of_join in Hb as (l & Hb & Hl).
      by apply elem_of_replicate in Hl as [-> _].
    - by injection Hreps as <- <-. }
  destruct (get_add_blocks (world_palette world) original_blocks) as [oids m1] eqn:H1.
  destruct (get_add_blocks m1 reps) as [rids m2] eqn:H2.
  cbn [fst snd chunk_slices world_palette].
  apply get_add_blocks_spec in H1 as ([t1 ->] & Hnd1 & Hall1 & Hsub1).
  apply get_add_blocks_spec in H2 as ([t2 ->] & Hnd2 & Hall2 & Hsub2).
  split_and!.
  - exists (t1 ++ t2). by rewrite app_assoc.
  - auto.
  - intros b [i Hi]%list_elem_of_lookup.
    destruct (Forall2_lookup_r _ _ _ _ _ Hall1 Hi) as (o & _ & Ho).
    apply elem_of_app. left. by eapply list_elem_of_lookup_2.
  - intros b Hb. destruct (Hsub2 b Hb) as [Hb1|Hr]; [|auto].
    destruct (Hsub1 b Hb1); auto.
  - rewrite <- list_fmap_compose. apply list_fmap_ext. intros _ cells _. cbn.
    by rewrite replace_in_slice_pointwise, length_fmap.
Qed.

(** ** When a full translation returns *)

Lemma blocks_setitem_ok (b : Blocks) (cy : Z) (x y z c v : nat) :
  wf_blocks b → holds b cy x y z c →
  ∃ b', blocks_setitem b (Z.of_nat x) (Z.of_nat y + cy * 16) (Z.of_nat z) v = Ok b'.
Proof.
  intros Hwf Hh. pose proof (blocks_getitem_holds b cy x y z c Hwf Hh) as Hget.
  unfold blocks_getitem in Hget. unfold blocks_setitem, array_setitem.
  destruct (get_sub_chunk b _) as [a|]; [cbn in *|done].
  rewrite Hget. cbn. eauto.
Qed.

Lemma fold_store_ok (l : list (Z * Z * Z * MappingValue)) (b : Blocks) :
  wf_blocks b →
  (∀ p v, (p, v) ∈ l →
     ∃ k cy (x y z c : nat),
       v = MIndex k ∧ holds b cy x y z c ∧
       p = (Z.of_nat x, Z.of_nat y + cy * 16, Z.of_nat z)%Z) →
  ∃ b', fold_result store_mapping b l = Ok b'.
Proof.
  revert b. induction l as [|[p v] l IH]; intros b Hwf Hl; [by eexists|].
  destruct (Hl p v) as (k & cy & x & y & z & c & -> & Hh & ->); [by left|].
  destruct (blocks_setitem_ok b cy x y z c k Hwf Hh) as [b1 Hset].
  cbn [fold_result store_mapping]. rewrite Hset. cbn [mbind result_bind].
  destruct (blocks_setitem_spec _ _ _ _ _ _ Hwf Hset)
    as (Hwf1 & cy0 & nx & ny & nz & _ & _ & _ & _ & Hcell).
  apply IH; [done|]. intros p' v' Hin.
  destruct (Hl p' v') as (k' & cy' & x' & y' & z' & c' & -> & Hh' & ->); [by right|].
  destruct (decide ((cy', x', y', z') = (cy0, nx, ny, nz))) as [Heq|Hne].
  - exists k', cy', x', y', z', k. split_and!; [done| |done].
    apply Hcell. by rewrite decide_True.
  - exists k', cy', x', y', z', c'. split_and!; [done| |done].
    apply Hcell. by rewrite decide_False.
Qed.

Lemma phase2_step_ok (entity_support : bool) (chunk : Chunk) (palette : list PaletteEntry)
    (get_chunk_callback : option GetChunkCallback) (translate_block : TranslateBlockCallback)
    (st : TranslateState) (index : nat) (cy x y z : Z) (c : nat) (e : PaletteEntry) r :
  blocks_getitem (blocks chunk) x (y + cy * 16) z = Ok c →
  palette !! c = Some e →
  translate_block e (Some (get_block_at chunk palette get_chunk_callback x (y + cy * 16) z)) =
    Ok r →
  ∃ calls st',
    phase2_step entity_support chunk palette get_chunk_callback translate_block st
      (index, (cy, (x, y, z))) = (calls, Ok st').
Proof.
  intros Hc He Htb. unfold phase2_step. rewrite Hc. cbn -[get_block_at].
  unfold palette_getitem. rewrite He. cbn -[get_block_at]. rewrite Htb.
  destruct r as [[[ob obe] oe] extra]. cbn -[get_block_at]. eauto.
Qed.

Lemma entity_pass_gives_no_block (translate_entity : TranslateEntityCallback)
    (l : list Entity) (st : TranslateState) :
  (∀ entity, entity ∈ l → ∃ obe oe, translate_entity entity = Ok (None, obe, oe)) →
  ∃ calls st',
    foldM (entity_step translate_entity) st l = (calls, Ok st') ∧
    finished st' = finished st ∧ palette_mappings st' = palette_mappings st ∧
    block_mappings st' = block_mappings st ∧
    output_block_entities st' = output_block_entities st.
Proof.
  revert st. induction l as [|entity l IH]; intros st Hte; [by eexists _, _|].
  destruct (Hte entity) as (obe & oe & Hent); [by left|].
  set (st1 := mkState (todo st) (output_block_entities st)
                (output_entities st ++ ((λ e, set_location e (e_location entity)) <$> oe))
                (finished st) (palette_mappings st) (block_mappings st)).
  destruct (IH st1) as (c2 & st' & Hrest & ? & ? & ? & ?); [intros; apply Hte; by right|].
  exists ([TranslateEntity entity] ++ c2), st'. split; [|done].
  assert (entity_step translate_entity st entity = ([TranslateEntity entity], Ok st1)) as Hstep.
  { unfold entity_step. rewrite Hent. reflexivity. }
  cbn [foldM]. rewrite Hstep. cbn. by rewrite Hrest.
Qed.

(** X9: a full translation returns, when the sections of the chunk have
    distinct ids and are at most 16 cells high, the block callback does
    not raise for the entries of the palette, and the entity callback
    gives no block for the entities of the chunk. *)
Theorem translate_total (entity_support : bool) (chunk : Chunk)
    (palette : list PaletteEntry) (get_chunk_callback : option GetChunkCallback)
    (translate_block : TranslateBlockCallback) (translate_entity : TranslateEntityCallback) :
  wf_blocks (blocks chunk) →
  (∀ e r, e ∈ palette → ∃ res, translate_block e r = Ok res) →
  (∀ entity, entity ∈ entities chunk →
     ∃ obe oe, translate_entity entity = Ok (None, obe, oe)) →
  ∃ calls chunk' palette',
    _translate entity_support chunk palette get_chunk_callback translate_block
      translate_entity true = (calls, Ok (chunk', palette')).
Proof.
  intros Hwf Htb Hte.
  destruct (foldM_total
              (phase1_step entity_support chunk get_chunk_callback translate_block)
              (enumerate palette) initial_state) as (c1 & st1 & Hp1).
  { intros st [i e] Hin.
    assert (e ∈ palette) as He.
    { apply list_elem_of_lookup in Hin as [k Hk]. rewrite enumerate_lookup in Hk.
      destruct (palette !! k) as [e'|] eqn:Hl; [|done]. injection Hk as <- <-.
      by eapply list_elem_of_lookup_2. }
    destruct (Htb e None He) as [res Hr].
    destruct (phase1_step_ok entity_support chunk get_chunk_callback translate_block
                st i e _ Hr) as [st' Hst']. eauto. }
  pose proof (phase1_spec _ _ _ _ _ _ _ Hp1) as [Hinv1 _].
  pose proof Hinv1 as (Hnd1 & Htodo1 & Hbm1 & Hdom & _).
  destruct (foldM_total
              (phase2_step entity_support chunk palette get_chunk_callback translate_block)
              (phase2_schedule chunk (todo st1)) st1) as (c2 & st2 & Hp2).
  { intros st job Hjob.
    pose proof Hjob as [Hin _]%phase2_schedule_elem.
    destruct (phase2_schedule_holds _ _ _ Hjob) as (x & y & z & Hpos & Hh).
    destruct job as [index [cy pos]]. cbn in Hin, Hpos, Hh. subst pos.
    destruct (lookup_lt_is_Some_2 palette index) as [e He]; [apply Hdom; by right|].
    destruct (Htb e (Some (get_block_at chunk palette get_chunk_callback
                             (Z.of_nat x) (Z.of_nat y + cy * 16) (Z.of_nat z))))
      as [res Hr]; [by eapply list_elem_of_lookup_2|].
    eapply phase2_step_ok; [by apply blocks_getitem_holds|done..]. }
  pose proof (phase2_spec _ _ _ _ _ _ _ _ Hwf Htodo1 Hnd1 Hbm1 Hp2) as [Hinv2 _].
  pose proof Hinv2 as (_ & Hpm2 & _ & _ & Hkeys & Hjobs).
  destruct (entity_pass_gives_no_block translate_entity (entities chunk) st2 Hte)
    as (c3 & st3 & Hp3 & Hfin3 & Hpm3 & Hbm3 & _).
  set (st := if entity_support then st3 else st2).
  assert (palette_mappings st = palette_mappings st2 ∧
          block_mappings st = block_mappings st2) as [Hpm Hbm].
  { unfold st. by destruct entity_support. }
  destruct (fold_store_ok (map_to_list (block_mappings st))
              ((λ '(cy, old_blocks), (cy, rewrite_sub_chunk (palette_mappings st) old_blocks))
                 <$> blocks chunk)) as [b Hstore].
  { by apply wf_blocks_rewrite. }
  { intros p v Hin%elem_of_map_to_list. rewrite Hbm in Hin.
    destruct (Hkeys p (mk_is_Some _ _ Hin)) as (job & Hjob & Hpos).
    destruct (Hjobs job Hjob) as (e & ob & obe & oe & extra & _ & _ & Hob).
    rewrite Hpos, Hin in Hob. destruct ob as [blk|]; [|done].
    destruct Hob as (k & [= ->] & _).
    destruct (phase2_schedule_holds _ _ _ Hjob) as (x & y & z & Hp & Hh).
    destruct job as [index [cy pos]]. cbn in Hp, Hh, Hpos. subst pos p.
    destruct Hh as (a & Ha & Hl).
    exists k, cy, x, y, z, (default 0 (palette_mappings st !! index)).
    split_and!; [done| |done].
    apply holds_fmap. exists a. split; [done|].
    by rewrite rewrite_sub_chunk_map_cells, array_lookup_map_cells, Hl. }
  unfold _translate, translate_passes, block_passes. cbn [negb].
  rewrite Hp1. cbn [mbind Traced_bind]. rewrite Hp2. cbn [mbind Traced_bind].
  unfold st in Hstore. destruct entity_support.
  - rewrite Hp3. cbn [mbind Traced_bind]. unfold commit, lift. rewrite Hstore.
    cbn. by eexists _, _, _.
  - cbn [mret Traced_ret mbind Traced_bind]. unfold commit, lift. rewrite Hstore.
    cbn. by eexists _, _, _.
Qed.

(** ** Entities that become blocks *)

Lemma fold_store_values (l : list (Z * Z * Z * MappingValue)) (b b' : Blocks) :
  fold_result store_mapping b l = Ok b' →
  ∀ p v, (p, v) ∈ l → ∃ k, v = MIndex k.
Proof.
  revert b. induction l as [|[[[x y] z] v0] l IH]; intros b Hfold p v Hin.
  - by apply elem_of_nil in Hin.
  - cbn [fold_result] in Hfold.
    destruct (store_mapping b (x, y, z, v0)) as [b1|] eqn:Hstore; [cbn in Hfold|done].
    apply elem_of_cons in Hin as [[= -> ->]|Hin]; [|by eapply IH].
    destruct v0 as [k|blk]; [by eexists|].
    cbn in Hstore. by destruct (blocks_getitem b x y z).
Qed.

Lemma commit_values (chunk chunk' : Chunk) (st : TranslateState) :
  commit chunk st = Ok chunk' →
  ∀ p v, block_mappings st !! p = Some v → ∃ k, v = MIndex k.
Proof.
  unfold commit. destruct (fold_result _ _ _) as [b|] eqn:Hfold; [|done].
  intros _ p v Hp. eapply fold_store_values; [done|]. by apply elem_of_map_to_list.
Qed.

Lemma entity_pass_blocks (translate_entity : TranslateEntityCallback)
    (l : list Entity) (st st' : TranslateState) calls :
  foldM (entity_step translate_entity) st l = (calls, Ok st') →
  ∀ entity b obe oe,
    entity ∈ l → translate_entity entity = Ok (Some b, obe, oe) →
    ∃ p b', block_mappings st' !! p = Some (MBlock b').
Proof.
  revert st calls. induction l as [|entity0 l IH]; intros st calls Hfold entity b obe oe Hin Hte.
  - by apply elem_of_nil in Hin.
  - apply foldM_cons_ok in Hfold as (c1 & st1 & c2 & Hstep & Hfold & _).
    apply elem_of_cons in Hin as [->|Hin]; [|by eapply IH].
    apply entity_step_fields in Hstep as (ob & obe' & oe' & Hte' & _ & _ & _ & _ & Hbm).
    rewrite Hte in Hte'. injection Hte' as <- <- <-.
    apply entity_pass_spec in Hfold as (_ & _ & _ & _ & Hkeep).
    exists (floor_location entity0).
    destruct (Hkeep (floor_location entity0)) as [Heq|[b' Hb']]; [|by eexists].
    exists b. by rewrite Heq, Hbm, lookup_insert_eq.
Qed.

Lemma entity_pass_returns (translate_entity : TranslateEntityCallback)
    (l : list Entity) (st st' : TranslateState) calls (entity : Entity) :
  foldM (entity_step translate_entity) st l = (calls, Ok st') →
  entity ∈ l → ∃ r, translate_entity entity = Ok r.
Proof.
  revert st calls. induction l as [|entity0 l IH]; intros st calls Hfold Hin.
  - by apply elem_of_nil in Hin.
  - apply foldM_cons_ok in Hfold as (c & st0 & c' & Hstep & Hrest & _).
    apply elem_of_cons in Hin as [->|Hin]; [|by eapply IH].
    apply entity_step_fields in Hstep as (ob & obe & oe & Hte & _). eauto.
Qed.

(** X10: a full translation in which the entity callback gives a block for an
    entity of the chunk does not return: when the translation returns, the
    callback gave no block for any entity of the chunk. *)
Theorem translate_entity_never_block (chunk chunk' : Chunk)
    (palette palette' : list PaletteEntry) (get_chunk_callback : option GetChunkCallback)
    (translate_block : TranslateBlockCallback) (translate_entity : TranslateEntityCallback)
    calls (entity : Entity) :
  _translate true chunk palette get_chunk_callback translate_block
    translate_entity true = (calls, Ok (chunk', palette')) →
  entity ∈ entities chunk →
  ∃ obe oe, translate_entity entity = Ok (None, obe, oe).
Proof.
  intros Htr Hin.
  apply translate_returns in Htr
    as (st1 & st2 & st & c1 & c2 & c3 & _ & _ & Hp3 & Hcommit & _ & _).
  pose proof (entity_pass_spec _ _ _ _ _ Hp3) as (_ & _ & _ & Hcalls & _).
  assert (∃ r, translate_entity entity = Ok r) as [[[ob obe] oe] Hte].
  { eapply entity_pass_returns; [exact Hp3|done]. }
  destruct ob as [b|]; [|by eauto].
  destruct (entity_pass_blocks _ _ _ _ _ Hp3 entity b obe oe Hin Hte) as (p & b' & Hp).
  by destruct (commit_values _ _ _ Hcommit p _ Hp).
Qed.

(** ** Where the block entities are *)

Lemma phase1_step_block_entities (entity_support : bool) (chunk : Chunk)
    (get_chunk_callback : option GetChunkCallback) (translate_block : TranslateBlockCallback)
    (st st' : TranslateState) (i : nat) (e : PaletteEntry) calls :
  phase1_step entity_support chunk get_chunk_callback translate_block st (i, e) =
    (calls, Ok st') →
  ∃ created,
    output_block_entities st' = output_block_entities st ++ created ∧
    ∀ be, be ∈ created →
      ∃ cy x y z,
        (cy, (x, y, z)) ∈ occurrences chunk i ∧
        be_location be = (x + cx chunk * 16, y + cy * 16, z + cz chunk * 16)%Z.
Proof.
  unfold phase1_step.
  destruct (translate_block e None) as [[[[ob obe] oe] extra]|]; [|done].
  cbn. intros [= _ <-].
  assert (∀ l : list BlockEntity,
            ∃ created, l = l ++ created ∧
              ∀ be, be ∈ created →
                ∃ cy x y z,
                  (cy, (x, y, z)) ∈ occurrences chunk i ∧
                  be_location be = (x + cx chunk * 16, y + cy * 16, z + cz chunk * 16)%Z)
    as Hnone.
  { intros l. exists []. rewrite app_nil_r. split; [done|].
    intros be Hbe. by apply elem_of_nil in Hbe. }
  destruct (extra && _); [destruct (nonempty oe && entity_support); apply Hnone|].
  destruct ob as [b|]; [|destruct (nonempty oe && entity_support); apply Hnone].
  destruct (get_add_block (finished st) b) as [new fin'].
  destruct obe as [obe|].
  - eexists. split; [by destruct (nonempty oe && entity_support)|].
    intros be ([cy [[x y] z]] & -> & Hocc)%list_elem_of_fmap.
    by exists cy, x, y, z.
  - exists []. split; [by destruct (nonempty oe && entity_support)|].
    intros be Hbe. by apply elem_of_nil in Hbe.
Qed.

Lemma phase2_step_block_entities (entity_support : bool) (chunk : Chunk)
    (palette : list PaletteEntry) (get_chunk_callback : option GetChunkCallback)
    (translate_block : TranslateBlockCallback)
    (st st' : TranslateState) (index : nat) (cy x y z : Z) calls :
  phase2_step entity_support chunk palette get_chunk_callback translate_block st
    (index, (cy, (x, y, z))) = (calls, Ok st') →
  ∃ created,
    output_block_entities st' = output_block_entities st ++ created ∧
    ∀ be, be ∈ created →
      be_location be = (x + cx chunk * 16, y + cy * 16, z + cz chunk * 16)%Z.
Proof.
  unfold phase2_step.
  destruct (blocks_getitem (blocks chunk) x (y + cy * 16) z) as [c|];
    cbn -[get_block_at]; [|intros ?; simplify_eq].
  unfold palette_getitem. destruct (palette !! c) as [e|];
    cbn -[get_block_at]; [|intros ?; simplify_eq].
  destruct (translate_block e _) as [[[[ob obe] oe] extra]|];
    cbn -[get_block_at]; [|intros ?; simplify_eq].
  intros [= _ <-].
  destruct ob as [b|].
  - destruct (get_add_block (finished st) b) as [new fin'].
    eexists. split; [by destruct (nonempty oe && entity_support)|].
    intros be Hbe. destruct obe as [obe|]; [|by apply elem_of_nil in Hbe].
    by apply list_elem_of_singleton in Hbe as ->.
  - exists []. rewrite app_nil_r. split; [by destruct (nonempty oe && entity_support)|].
    intros be Hbe. by apply elem_of_nil in Hbe.
Qed.

(** X11: every block entity of the chunk a full translation returns is at
    the absolute position [(x + 16 cx, y + 16 cy, z + 16 cz)] of a cell
    [(x, y, z)] of a section [cy] of the chunk. *)
Theorem translate_block_entities_at_cells (entity_support : bool) (chunk chunk' : Chunk)
    (palette palette' : list PaletteEntry) (get_chunk_callback : option GetChunkCallback)
    (translate_block : TranslateBlockCallback) (translate_entity : TranslateEntityCallback)
    calls (be : BlockEntity) :
  _translate entity_support chunk palette get_chunk_callback translate_block
    translate_entity true = (calls, Ok (chunk', palette')) →
  be ∈ block_entities chunk' →
  ∃ cy (x y z c : nat),
    holds (blocks chunk) cy x y z c ∧
    be_location be =
      (Z.of_nat x + cx chunk * 16, Z.of_nat y + cy * 16, Z.of_nat z + cz chunk * 16)%Z.
Proof.
  intros Htr Hbe.
  set (at_cell := λ be : BlockEntity,
         ∃ cy (x y z c : nat),
           holds (blocks chunk) cy x y z c ∧
           be_location be =
             (Z.of_nat x + cx chunk * 16, Z.of_nat y + cy * 16, Z.of_nat z + cz chunk * 16)%Z).
  apply translate_returns in Htr
    as (st1 & st2 & st & c1 & c2 & c3 & Hp1 & Hp2 & Hp3 & Hcommit & _ & _).
  assert (∀ be, be ∈ output_block_entities st1 → at_cell be) as Hinv1.
  { refine (foldM_invariant _
      (λ _ st _, ∀ be, be ∈ output_block_entities st → at_cell be) _ _ _ _ _ _ Hp1).
    - intros be' Hbe'. by apply elem_of_nil in Hbe'.
    - intros pre [i e] st0 calls0 st0' calls1 Hinv Hstep _ be' Hbe'.
      apply phase1_step_block_entities in Hstep as (created & Hobe & Hcreated).
      rewrite Hobe in Hbe'.
      apply elem_of_app in Hbe' as [Hold|Hnew]; [by apply Hinv|].
      destruct (Hcreated be' Hnew) as (cy & x & y & z & Hocc & Hloc).
      apply occurrences_elem in Hocc as (nx & ny & nz & [= -> -> ->] & Hh).
      by exists cy, nx, ny, nz, i. }
  assert (∀ be, be ∈ output_block_entities st2 → at_cell be) as Hinv2.
  { refine (foldM_invariant _
      (λ _ st _, ∀ be, be ∈ output_block_entities st → at_cell be) _ _ _ _ _ _ Hp2).
    - done.
    - intros pre [index [cy [[x y] z]]] st0 calls0 st0' calls1 Hinv Hstep [suf Hsuf] be' Hbe'.
      apply phase2_step_block_entities in Hstep as (created & Hobe & Hcreated).
      rewrite Hobe in Hbe'.
      apply elem_of_app in Hbe' as [Hold|Hnew]; [by apply Hinv|].
      destruct (phase2_schedule_holds chunk (todo st1) (index, (cy, (x, y, z))))
        as (nx & ny & nz & [= -> -> ->] & Hh).
      { rewrite Hsuf. apply elem_of_app. right. by left. }
      exists cy, nx, ny, nz, index. split; [done|]. by apply Hcreated. }
  assert (output_block_entities st = output_block_entities st2) as Hsame.
  { destruct entity_support; [|cbn in Hp3; by injection Hp3 as _ <-].
    destruct (entity_pass_gives_no_block translate_entity (entities chunk) st2)
      as (c3' & st' & Hp3' & _ & _ & _ & Hobe).
    - intros entity Hin.
      assert (∃ r, translate_entity entity = Ok r) as [[[ob obe] oe] Hte].
      { eapply entity_pass_returns; [exact Hp3|done]. }
      destruct ob as [b|]; [|by eauto].
      destruct (entity_pass_blocks _ _ _ _ _ Hp3 entity b obe oe Hin Hte) as (p & b' & Hp).
      by destruct (commit_values _ _ _ Hcommit p _ Hp).
    - rewrite Hp3 in Hp3'. by injection Hp3' as _ <-. }
  unfold commit in Hcommit.
  destruct (fold_result _ _ _) as [b|]; [cbn in Hcommit|done].
  injection Hcommit as <-. cbn in Hbe. rewrite Hsame in Hbe. by apply Hinv2.
Qed.

(** ** When the block callback raises *)

Lemma foldM_app {A B} (f : B → A → Traced B) (b : B) (l1 l2 : list A) :
  foldM f b (l1 ++ l2) = b' ← foldM f b l1; foldM f b' l2.
Proof.
  revert b. induction l1 as [|a l1 IH]; intros b.
  - cbn. by destruct (foldM f b l2).
  - cbn [app foldM]. destruct (f b a) as [c1 [b1|err]]; [|done].
    cbn [mbind Traced_bind]. rewrite IH.
    destruct (foldM f b1 l1) as [c2 [b2|err]]; [|done].
    cbn [mbind Traced_bind]. destruct (foldM f b2 l2) as [c3 r]. by rewrite app_assoc.
Qed.

Lemma phase1_prefix (entity_support : bool) (chunk : Chunk)
    (get_chunk_callback : option GetChunkCallback) (translate_block : TranslateBlockCallback)
    (pre : list PaletteEntry) (st : TranslateState) (k : nat) :
  (∀ e, e ∈ pre → ∃ res, translate_block e None = Ok res) →
  ∃ st',
    foldM (phase1_step entity_support chunk get_chunk_callback translate_block) st
      (imap (λ i a, (k + i, a)) pre) =
    ((λ e, TranslateBlock e None) <$> pre, Ok st').
Proof.
  revert st k. induction pre as [|e pre IH]; intros st k Hpre; [by eexists|].
  destruct (Hpre e) as [res Hres]; [by left|].
  destruct (phase1_step_ok entity_support chunk get_chunk_callback translate_block
              st (k + 0) e res Hres) as [st1 Hstep].
  destruct (IH st1 (S k)) as [st' Hrest]; [intros; apply Hpre; by right|].
  exists st'. rewrite imap_cons. cbn [foldM]. rewrite Hstep. cbn [mbind Traced_bind].
  rewrite (imap_ext _ (λ i a, (S k + i, a))) by (intros; cbn; f_equal; lia).
  by rewrite Hrest.
Qed.

(** X12: when the block callback raises for an entry of the palette in the
    first pass, the full translation raises the same, after calling the
    callback for the entries up to that one and for nothing else: the
    second pass, the entity pass and the rewriting of the chunk do not
    take place. *)
Theorem translate_first_pass_raises (entity_support : bool) (chunk : Chunk)
    (get_chunk_callback : option GetChunkCallback) (translate_block : TranslateBlockCallback)
    (translate_entity : TranslateEntityCallback)
    (pre suf : list PaletteEntry) (e : PaletteEntry) (err : exn) :
  (∀ e', e' ∈ pre → ∃ res, translate_block e' None = Ok res) →
  translate_block e None = Raise err →
  _translate entity_support chunk (pre ++ e :: suf) get_chunk_callback translate_block
    translate_entity true =
    ((λ e, TranslateBlock e None) <$> (pre ++ [e]), Raise err).
Proof.
  intros Hpre Herr.
  destruct (phase1_prefix entity_support chunk get_chunk_callback translate_block
              pre initial_state 0 Hpre) as [st1 Hp1].
  unfold _translate, translate_passes, block_passes, enumerate. cbn [negb].
  rewrite imap_app, foldM_app.
  rewrite (imap_ext _ (λ i a, (0 + i, a)) pre) by done.
  rewrite Hp1. cbn [mbind Traced_bind]. rewrite imap_cons. cbn [foldM].
  assert (phase1_step entity_support chunk get_chunk_callback translate_block st1
            (length pre + 0, e) = ([TranslateBlock e None], Raise err)) as ->.
  { unfold phase1_step. by rewrite Herr. }
  cbn. by rewrite fmap_app.
Qed.

(** ** Where the entities come from *)

Lemma phase1_step_entities (entity_support : bool) (chunk : Chunk)
    (get_chunk_callback : option GetChunkCallback) (translate_block : TranslateBlockCallback)
    (st st' : TranslateState) (i : nat) (e : PaletteEntry) calls :
  phase1_step entity_support chunk get_chunk_callback translate_block st (i, e) =
    (calls, Ok st') →
  ∃ ob obe oe extra created,
    translate_block e None = Ok (ob, obe, oe, extra) ∧
    output_entities st' = output_entities st ++ created ∧
    ∀ e', e' ∈ created → ∃ entity x y z, entity ∈ oe ∧ e' = offset_location entity x y z.
Proof.
  unfold phase1_step.
  destruct (translate_block e None) as [[[[ob obe] oe] extra]|]; [|done].
  cbn. intros [= _ <-]. exists ob, obe, oe, extra.
  set (st0 := if extra && _ then _ else _).
  assert (output_entities st0 = output_entities st) as Hst0.
  { unfold st0. destruct (extra && _); [done|]. destruct ob as [b|]; [|done].
    by destruct (get_add_block (finished st) b). }
  destruct (nonempty oe && entity_support); cbn.
  - eexists. split; [done|]. rewrite Hst0. split; [done|].
    intros e' ([cy [[x y] z]] & He' & _)%list_elem_of_bind.
    apply list_elem_of_fmap in He' as (entity & -> & Hentity).
    eexists entity, _, _, _. split; [exact Hentity|reflexivity].
  - exists []. rewrite app_nil_r. split_and!; [done..|].
    intros e' He'. by apply elem_of_nil in He'.
Qed.

Lemma phase2_step_entities (entity_support : bool) (chunk : Chunk)
    (palette : list PaletteEntry) (get_chunk_callback : option GetChunkCallback)
    (translate_block : TranslateBlockCallback)
    (st st' : TranslateState) (job : nat * (Z * (Z * Z * Z))) calls :
  phase2_step entity_support chunk palette get_chunk_callback translate_block st job =
    (calls, Ok st') →
  ∃ e r ob obe oe extra created,
    translate_block e (Some r) = Ok (ob, obe, oe, extra) ∧
    output_entities st' = output_entities st ++ created ∧
    ∀ e', e' ∈ created → ∃ entity x y z, entity ∈ oe ∧ e' = offset_location entity x y z.
Proof.
  destruct job as [index [cy [[x y] z]]]. unfold phase2_step.
  destruct (blocks_getitem (blocks chunk) x (y + cy * 16) z) as [c|];
    cbn -[get_block_at]; [|intros ?; simplify_eq].
  unfold palette_getitem. destruct (palette !! c) as [e|];
    cbn -[get_block_at]; [|intros ?; simplify_eq].
  destruct (translate_block e _) as [[[[ob obe] oe] extra]|] eqn:Htb;
    cbn -[get_block_at]; [|intros ?; simplify_eq].
  intros [= _ <-].
  exists e, (get_block_at chunk palette get_chunk_callback x (y + cy * 16) z), ob, obe, oe, extra.
  set (st0 := match ob with Some _ => _ | None => _ end).
  assert (output_entities st0 = output_entities st) as Hst0.
  { unfold st0. destruct ob as [b|]; [|done]. by destruct (get_add_block (finished st) b). }
  destruct (nonempty oe && entity_support); cbn -[get_block_at].
  - eexists. split; [exact Htb|]. rewrite Hst0. split; [done|].
    intros e' (entity & -> & Hentity)%list_elem_of_fmap.
    eexists entity, _, _, _. split; [exact Hentity|reflexivity].
  - exists []. rewrite app_nil_r. split_and!; [done..|].
    intros e' He'. by apply elem_of_nil in He'.
Qed.

Lemma entity_pass_no_entities (translate_entity : TranslateEntityCallback)
    (l : list Entity) (st st' : TranslateState) calls :
  (∀ entity, entity ∈ l → ∃ ob obe, translate_entity entity = Ok (ob, obe, [])) →
  foldM (entity_step translate_entity) st l = (calls, Ok st') →
  output_entities st' = output_entities st.
Proof.
  revert st calls. induction l as [|entity l IH]; intros st calls Hte Hfold.
  - cbn in Hfold. by injection Hfold as _ <-.
  - apply foldM_cons_ok in Hfold as (c1 & st1 & c2 & Hstep & Hfold & _).
    rewrite (IH _ _ (λ entity' H, Hte entity' (list_elem_of_further _ _ _ H)) Hfold).
    destruct (Hte entity) as (ob & obe & Hent); [by left|].
    unfold entity_step in Hstep. rewrite Hent in Hstep. cbn in Hstep.
    injection Hstep as _ <-. cbn. rewrite app_nil_r.
    destruct ob as [b|]; [|done]. by destruct (floor_location entity) as [[??]?].
Qed.

(** The entities of the chunk a full translation returns, when the entity
    callback gives no entities: each is an entity the block callback gave,
    moved by an offset. *)
Lemma translate_entities_of_blocks (entity_support : bool) (chunk chunk' : Chunk)
    (palette palette' : list PaletteEntry) (get_chunk_callback : option GetChunkCallback)
    (translate_block : TranslateBlockCallback) (translate_entity : TranslateEntityCallback)
    calls (e' : Entity) :
  (∀ entity, ∃ ob obe, translate_entity entity = Ok (ob, obe, [])) →
  _translate entity_support chunk palette get_chunk_callback translate_block
    translate_entity true = (calls, Ok (chunk', palette')) →
  e' ∈ entities chunk' →
  ∃ input r ob obe oe extra entity x y z,
    translate_block input r = Ok (ob, obe, oe, extra) ∧ entity ∈ oe ∧
    e' = offset_location entity x y z.
Proof.
  intros Hte Htr He'.
  set (given := λ e' : Entity,
         ∃ input r ob obe oe extra entity x y z,
           translate_block input r = Ok (ob, obe, oe, extra) ∧ entity ∈ oe ∧
           e' = offset_location entity x y z).
  apply translate_returns in Htr
    as (st1 & st2 & st & c1 & c2 & c3 & Hp1 & Hp2 & Hp3 & Hcommit & _ & _).
  assert (∀ e', e' ∈ output_entities st1 → given e') as Hinv1.
  { refine (foldM_invariant _
      (λ _ st _, ∀ e', e' ∈ output_entities st → given e') _ _ _ _ _ _ Hp1).
    - intros e0 He0. by apply elem_of_nil in He0.
    - intros pre [i e] st0 calls0 st0' calls1 Hinv Hstep _ e0 He0.
      apply phase1_step_entities in Hstep
        as (ob & obe & oe & extra & created & Htb & Hoe & Hcreated).
      rewrite Hoe in He0. apply elem_of_app in He0 as [Hold|Hnew]; [by apply Hinv|].
      destruct (Hcreated e0 Hnew) as (entity & x & y & z & Hin & ->).
      by exists e, None, ob, obe, oe, extra, entity, x, y, z. }
  assert (∀ e', e' ∈ output_entities st2 → given e') as Hinv2.
  { refine (foldM_invariant _
      (λ _ st _, ∀ e', e' ∈ output_entities st → given e') _ _ _ _ _ _ Hp2).
    - done.
    - intros pre job st0 calls0 st0' calls1 Hinv Hstep _ e0 He0.
      apply phase2_step_entities in Hstep
        as (e & r & ob & obe & oe & extra & created & Htb & Hoe & Hcreated).
      rewrite Hoe in He0. apply elem_of_app in He0 as [Hold|Hnew]; [by apply Hinv|].
      destruct (Hcreated e0 Hnew) as (entity & x & y & z & Hin & ->).
      by exists e, (Some r), ob, obe, oe, extra, entity, x, y, z. }
  assert (output_entities st = output_entities st2) as Hsame.
  { destruct entity_support; [|cbn in Hp3; by injection Hp3 as _ <-].
    eapply entity_pass_no_entities; [|exact Hp3]. intros entity _. apply Hte. }
  unfold commit in Hcommit.
  destruct (fold_result _ _ _) as [b|]; [cbn in Hcommit|done].
  injection Hcommit as <-. cbn in He'. rewrite Hsame in He'. by apply Hinv2.
Qed.

Lemma mapM_Ok_elem {A B} (f : A → result B) (l : list A) (rs : list B) (r : B) :
  mapM f l = Ok rs → r ∈ rs → ∃ a, a ∈ l ∧ f a = Ok r.
Proof.
  revert rs. induction l as [|a l IH]; intros rs Hm Hr.
  - cbn in Hm. injection Hm as <-. by apply elem_of_nil in Hr.
  - cbn [mapM] in Hm. destruct (f a) as [b|] eqn:Hfa; [cbn in Hm|done].
    destruct (mapM f l) as [rs'|] eqn:Hrest; [cbn in Hm|done].
    injection Hm as <-. apply elem_of_cons in Hr as [->|Hr].
    + exists a. split; [by left|done].
    + destruct (IH rs' eq_refl Hr) as (a' & Ha' & Hfa'). exists a'. split; [by right|done].
Qed.

Lemma translate_block_with_entities (rule : BlockRule) (input : PaletteEntry)
    (r : option GetBlockCallback) ob obe oe extra (entity : Entity) :
  translate_block_with rule input r = Ok (ob, obe, oe, extra) → entity ∈ oe →
  ∃ block be extra', rule block r = Ok (OEntity entity, be, extra').
Proof.
  destruct input as [b|t]; [|done]. unfold translate_block_with, enumerate.
  rewrite (translate_layers_combine rule r _ []). cbn [app].
  destruct (mapM _ _) as [rs|] eqn:Hrs; [cbn|done].
  intros [= _ _ <- _] Hin.
  apply list_elem_of_omap in Hin as ([[output be] extra'] & Hin & Hent).
  unfold rule_entity in Hent. cbn in Hent. destruct output as [|ent|]; try done.
  injection Hent as ->.
  destruct (mapM_Ok_elem _ _ _ _ Hrs Hin) as (block & _ & Hrule). eauto.
Qed.

(** X15: every entity of the chunk a full [to_universal] or
    [from_universal] returns is an entity the block rule of the version
    gave for a block, moved by an offset, with or without entity support:
    the entity callback of the adapters gives nothing for the entities the
    chunk had. *)
Theorem adapters_entities_from_rules (entity_support : bool) (version : Version)
    (chunk : Chunk) (palette : list PaletteEntry)
    (get_chunk_callback : option GetChunkCallback) :
  (∀ calls chunk' palette' e',
     to_universal entity_support version chunk palette get_chunk_callback true =
       (calls, Ok (chunk', palette')) →
     e' ∈ entities chunk' →
     ∃ block r be extra entity x y z,
       block_to_universal version block r = Ok (OEntity entity, be, extra) ∧
       e' = offset_location entity x y z) ∧
  (∀ calls chunk' palette' e',
     from_universal entity_support version chunk palette get_chunk_callback true =
       (calls, Ok (chunk', palette')) →
     e' ∈ entities chunk' →
     ∃ block r be extra entity x y z,
       block_from_universal version block r = Ok (OEntity entity, be, extra) ∧
       e' = offset_location entity x y z).
Proof.
  assert (∀ entity, ∃ ob obe, translate_entity_stub entity = Ok (ob, obe, [])) as Hstub
    by (intros; by eexists _, _).
  split.
  - intros calls chunk' palette' e' Hto He'. unfold to_universal in Hto.
    apply traced_bind_ok in Hto as (c1 & biomes' & c2 & _ & Htr & _).
    destruct (translate_entities_of_blocks _ _ _ _ _ _ _ _ _ e' Hstub Htr He')
      as (input & r & ob & obe & oe & extra & entity & x & y & z & Htb & Hin & ->).
    destruct (translate_block_with_entities _ _ _ _ _ _ _ _ Htb Hin)
      as (block & be & extra' & Hrule).
    by exists block, r, be, extra', entity, x, y, z.
  - intros calls chunk' palette' e' Hfrom He'. unfold from_universal in Hfrom.
    apply traced_bind_ok in Hfrom as (c1 & [chunk1 palette1] & c2 & Htr & Hrest & _).
    apply traced_bind_ok in Hrest as (c3 & biomes' & c4 & _ & Hret & _).
    cbn in Hret. injection Hret as _ <- _. cbn in He'.
    destruct (translate_entities_of_blocks _ _ _ _ _ _ _ _ _ e' Hstub Htr He')
      as (input & r & ob & obe & oe & extra & entity & x & y & z & Htb & Hin & ->).
    destruct (translate_block_with_entities _ _ _ _ _ _ _ _ Htb Hin)
      as (block & be & extra' & Hrule).
    by exists block, r, be, extra', entity, x, y, z.
Qed.

(** ** The properties at the sample data *)

Lemma translate_block_entity_of_base_witness :
  ∃ output output_block_entity extra,
    Cases.rule_chest (base_block Sample.door) None = Ok (output, output_block_entity, extra) ∧
    Some Sample.chest =
      match output with OBlock _ => output_block_entity | _ => None end.
Proof.
  apply (translate_block_entity_of_base Cases.rule_chest None Sample.door
           (Some (block_add (Sample.universal "chest") (Sample.universal "chest")))
           (Some Sample.chest) [] false).
  vm_compute. reflexivity.
Defined.

Lemma translate_palette_NoDup_witness :
  NoDup (Sample.palette_of Cases.deferred_outcome) ∧
  ∀ e, e ∈ Sample.palette_of Cases.deferred_outcome → ∃ b, e = PBlock b.
Proof.
  apply (translate_palette_NoDup true Sample.chunk (Sample.chunk_of Cases.deferred_outcome)
           Sample.palette (Sample.palette_of Cases.deferred_outcome)
           (Some Sample.no_neighbours) Sample.translate_block translate_entity_stub
           Cases.deferred_outcome.1).
  vm_compute. reflexivity.
Defined.

Lemma translate_keeps_shape_witness :
  cx (Sample.chunk_of Cases.deferred_outcome) = cx Sample.chunk ∧
  cz (Sample.chunk_of Cases.deferred_outcome) = cz Sample.chunk ∧
  biomes (Sample.chunk_of Cases.deferred_outcome) = biomes Sample.chunk ∧
  section_shapes (blocks (Sample.chunk_of Cases.deferred_outcome)) =
    section_shapes (blocks Sample.chunk).
Proof.
  apply (translate_keeps_shape true Sample.chunk (Sample.chunk_of Cases.deferred_outcome)
           Sample.palette (Sample.palette_of Cases.deferred_outcome)
           (Some Sample.no_neighbours) Sample.translate_block translate_entity_stub
           Cases.deferred_outcome.1).
  vm_compute. reflexivity.
Defined.

Lemma translate_cell_witness :
  ∃ ob obe oe extra k,
    Sample.translate_block (PBlock Sample.water)
      (if is_deferred (Some Sample.no_neighbours) Sample.translate_block (PBlock Sample.water)
       then Some (get_block_at Sample.chunk Sample.palette (Some Sample.no_neighbours)
                    (Z.of_nat 1) (Z.of_nat 2 + 1 * 16) (Z.of_nat 3))
       else None) = Ok (ob, obe, oe, extra) ∧
    holds (blocks (Sample.chunk_of Cases.deferred_outcome)) 1 1 2 3 k ∧
    match ob with
    | Some b => Sample.palette_of Cases.deferred_outcome !! k = Some (PBlock b)
    | None => k = 0
    end.
Proof.
  apply (translate_cell true Sample.chunk (Sample.chunk_of Cases.deferred_outcome)
           Sample.palette (Sample.palette_of Cases.deferred_outcome)
           (Some Sample.no_neighbours) Sample.translate_block translate_entity_stub
           Cases.deferred_outcome.1 1%Z 1 2 3 1 (PBlock Sample.water)).
  - apply (bool_decide_unpack _). vm_compute. exact I.
  - vm_compute. reflexivity.
  - exists (Sample.array_with 1). split; [left|reflexivity].
  - reflexivity.
Defined.

Lemma translate_indices_valid_witness :
  ∃ k,
    holds (blocks (Sample.chunk_of Cases.deferred_outcome)) 1 1 2 3 k ∧
    (k < length (Sample.palette_of Cases.deferred_outcome) ∨
     (k = 0 ∧ Sample.palette_of Cases.deferred_outcome = [])).
Proof.
  apply (translate_indices_valid true Sample.chunk (Sample.chunk_of Cases.deferred_outcome)
           Sample.palette (Sample.palette_of Cases.deferred_outcome)
           (Some Sample.no_neighbours) Sample.translate_block translate_entity_stub
           Cases.deferred_outcome.1 1%Z 1 2 3 1).
  - apply (bool_decide_unpack _). vm_compute. exact I.
  - vm_compute. reflexivity.
  - exists (Sample.array_with 1). split; [left|reflexivity].
Defined.

Lemma translate_calls_order_witness :
  ∃ calls2,
    Cases.entity_outcome.1 =
      ((λ e, TranslateBlock e None) <$> Sample.palette) ++ calls2 ++
      (TranslateEntity <$> entities Sample.chunk_with_entity) ∧
    Forall (λ c, ∃ e p, c = TranslateBlock e (Some p)) calls2.
Proof.
  apply (translate_calls_order true Sample.chunk_with_entity
           (Sample.chunk_of Cases.entity_outcome)
           Sample.palette (Sample.palette_of Cases.entity_outcome)
           None Sample.translate_block_plain translate_entity_stub
           Cases.entity_outcome.1).
  vm_compute. reflexivity.
Defined.

Lemma translate_without_entity_support_witness :
  entities (Sample.chunk_of Cases.no_entities_outcome) = [].
Proof.
  apply (translate_without_entity_support Sample.chunk_with_entity
           (Sample.chunk_of Cases.no_entities_outcome)
           Sample.palette (Sample.palette_of Cases.no_entities_outcome)
           (Some Sample.no_neighbours) Sample.translate_block translate_entity_stub
           Cases.no_entities_outcome.1).
  vm_compute. reflexivity.
Defined.

Lemma adapters_round_trip_without_full_translate_witness :
  ∃ calls1 chunk1 palette1 calls2,
    to_universal true Cases.version Cases.chunk Sample.palette None false =
      (calls1, Ok (chunk1, palette1)) ∧
    from_universal true Cases.version chunk1 palette1 None false =
      (calls2, Ok (Cases.chunk, Sample.palette)).
Proof.
  apply (adapters_round_trip_without_full_translate true Cases.version Cases.chunk
           Sample.palette None None).
  - intros biome _. cbn. lia.
  - intros be names name Hbe [= <-] Hns Hname.
    apply elem_of_cons in Hbe as [->|Hbe];
      [|apply elem_of_cons in Hbe as [->|Hbe]; [|by apply elem_of_nil in Hbe]].
    + vm_compute in Hname. injection Hname as <-. vm_compute. reflexivity.
    + vm_compute in Hns. discriminate Hns.
  - intros be names Hbe [= <-] Hcase.
    apply elem_of_cons in Hbe as [->|Hbe];
      [|apply elem_of_cons in Hbe as [->|Hbe]; [|by apply elem_of_nil in Hbe]].
    + destruct Hcase as [Hns|Hname].
      * destruct Hns. vm_compute. reflexivity.
      * vm_compute in Hname. discriminate Hname.
    + vm_compute. reflexivity.
Defined.

Lemma replace_cells_witness :
  (replace Sample.world [Sample.stone; Sample.water] [Sample.water; Sample.stone]).1 = [] ∧
  ∀ s cells,
    chunk_slices Sample.world !! s = Some cells →
    ∃ cells',
      chunk_slices
        (replace Sample.world [Sample.stone; Sample.water] [Sample.water; Sample.stone]).2 !! s =
        Some cells' ∧
      length cells' = length cells ∧
      ∀ j c, cells !! j = Some c →
        ∃ c',
          cells' !! j = Some c' ∧
          (∀ i b, [Sample.stone; Sample.water] !! i = Some b →
             world_palette
               (replace Sample.world [Sample.stone; Sample.water]
                  [Sample.water; Sample.stone]).2 !! c = Some b →
             ∃ b', [Sample.water; Sample.stone] !! i = Some b' ∧
                   world_palette
                     (replace Sample.world [Sample.stone; Sample.water]
                        [Sample.water; Sample.stone]).2 !! c' = Some b') ∧
          ((∀ b, world_palette
                   (replace Sample.world [Sample.stone; Sample.water]
                      [Sample.water; Sample.stone]).2 !! c = Some b →
                 b ∉ [Sample.stone; Sample.water]) → c' = c).
Proof.
  apply (replace_cells Sample.world [Sample.stone; Sample.water]
           [Sample.water; Sample.stone]).
  - apply (bool_decide_unpack _). vm_compute. exact I.
  - apply (bool_decide_unpack _). vm_compute. exact I.
  - reflexivity.
Defined.

Lemma replace_single_replacement_witness :
  (replace Sample.world [Sample.stone; Sample.water] [Sample.dirt]).1 = [] ∧
  ∀ s cells,
    chunk_slices Sample.world !! s = Some cells →
    ∃ cells',
      chunk_slices (replace Sample.world [Sample.stone; Sample.water] [Sample.dirt]).2 !! s =
        Some cells' ∧
      length cells' = length cells ∧
      ∀ j c, cells !! j = Some c →
        ∃ c',
          cells' !! j = Some c' ∧
          (∀ b, b ∈ [Sample.stone; Sample.water] →
             world_palette
               (replace Sample.world [Sample.stone; Sample.water] [Sample.dirt]).2 !! c =
               Some b →
             world_palette
               (replace Sample.world [Sample.stone; Sample.water] [Sample.dirt]).2 !! c' =
               Some Sample.dirt) ∧
          ((∀ b, world_palette
                   (replace Sample.world [Sample.stone; Sample.water] [Sample.dirt]).2 !! c =
                   Some b → b ∉ [Sample.stone; Sample.water]) → c' = c).
Proof.
  apply (replace_single_replacement Sample.world [Sample.stone; Sample.water] Sample.dirt).
  - apply (bool_decide_unpack _). vm_compute. exact I.
  - apply (bool_decide_unpack _). vm_compute. exact I.
Defined.

Lemma translate_total_witness :
  ∃ calls chunk' palette',
    _translate true Sample.chunk Sample.palette (Some Sample.no_neighbours)
      Sample.translate_block translate_entity_stub true = (calls, Ok (chunk', palette')).
Proof.
  apply (translate_total true Sample.chunk Sample.palette (Some Sample.no_neighbours)
           Sample.translate_block translate_entity_stub).
  - apply (bool_decide_unpack _). vm_compute. exact I.
  - intros e r _. destruct r; eexists; reflexivity.
  - intros entity _. eexists _, _. reflexivity.
Defined.

Lemma translate_entity_never_block_witness :
  ∃ obe oe, translate_entity_stub Sample.cart = Ok (None, obe, oe).
Proof.
  apply (translate_entity_never_block Sample.chunk_with_entity
           (Sample.chunk_of Cases.entity_outcome)
           Sample.palette (Sample.palette_of Cases.entity_outcome)
           None Sample.translate_block_plain translate_entity_stub
           Cases.entity_outcome.1 Sample.cart).
  - vm_compute. reflexivity.
  - left.
Defined.

Lemma translate_block_entities_at_cells_witness :
  ∃ cy (x y z c : nat),
    holds (blocks Sample.chunk) cy x y z c ∧
    be_location (new_at_location Sample.chest 33 18 (-13)) =
      (Z.of_nat x + cx Sample.chunk * 16, Z.of_nat y + cy * 16,
       Z.of_nat z + cz Sample.chunk * 16)%Z.
Proof.
  apply (translate_block_entities_at_cells true Sample.chunk
           (Sample.chunk_of Cases.deferred_outcome)
           Sample.palette (Sample.palette_of Cases.deferred_outcome)
           (Some Sample.no_neighbours) Sample.translate_block translate_entity_stub
           Cases.deferred_outcome.1 (new_at_location Sample.chest 33 18 (-13))).
  - vm_compute. reflexivity.
  - apply (bool_decide_unpack _). vm_compute. exact I.
Defined.

Lemma translate_first_pass_raises_witness :
  _translate true Sample.chunk
    (Cases.bedrock_palette_pre ++ PTuple [] :: Cases.bedrock_palette_suf) None
    (translate_block_with (Sample.rename "universal_minecraft")) translate_entity_stub true =
    ((λ e, TranslateBlock e None) <$> (Cases.bedrock_palette_pre ++ [PTuple []]),
     Raise AttributeError).
Proof.
  apply (translate_first_pass_raises true Sample.chunk None
           (translate_block_with (Sample.rename "universal_minecraft")) translate_entity_stub
           Cases.bedrock_palette_pre Cases.bedrock_palette_suf (PTuple []) AttributeError).
  - intros e' He'. apply list_elem_of_singleton in He' as ->.
    eexists. vm_compute. reflexivity.
  - reflexivity.
Defined.

Lemma adapters_entities_from_rules_witness :
  entities (Sample.chunk_of Items.outcome) = [offset_location Sample.item 33 18 (-13)] ∧
  ∀ e', e' ∈ entities (Sample.chunk_of Items.outcome) →
    ∃ block r be extra entity x y z,
      block_to_universal Items.version block r = Ok (OEntity entity, be, extra) ∧
      e' = offset_location entity x y z.
Proof.
  split; [vm_compute; reflexivity|]. intros e' He'.
  apply (proj1 (adapters_entities_from_rules true Items.version Sample.chunk Sample.palette None)
           Items.outcome.1 (Sample.chunk_of Items.outcome) (Sample.palette_of Items.outcome) e').
  - vm_compute. reflexivity.
  - exact He'.
Defined.
